(** * exfat-reader: a shallow embedding of [src/src/exfat.ts]

    The reader decodes an exFAT image held in a [Uint8Array].  The embedding
    follows the TypeScript source function by function:

    - JavaScript numbers are modelled as [Z].  Every number the code handles
      is an integer, and its arithmetic is exact on doubles as long as the
      results stay within [2^53].  Typed arrays are shorter than that, so a
      larger offset only reaches [subarray] or a bounds test, which clamp
      or reject it as they do its rounded value, and a larger limit is
      never used up.  A 64-bit size enters through [readU64], rounded to a
      double ([roundDouble]).
    - Typed arrays are views [(buffer, byteOffset, byteLength)] into a heap of
      array buffers, so that the aliasing created by [subarray] and the
      writes of [Uint8Array.prototype.set] are visible.
    - Exceptions and unbounded loops are modelled by the three-valued
      [outcome]: a returned value, a thrown error, or exhausted fuel.
      Fuel bounds the iterations of the loop of [readChain] and the nesting
      of [visit]: where a run is out of fuel for every amount of fuel, the
      program does not return (it runs until the host stops it, out of
      memory or out of stack).  Allocation never fails. *)

From Stdlib Require Import ZArith List Bool Lia.
From Stdlib Require Import Strings.Byte.
From Stdlib Require Strings.String.
Import ListNotations.
Import String.StringSyntax.
Delimit Scope string_scope with string.

Local Open Scope Z_scope.

(** ** Outcomes of a computation *)

Inductive error : Type :=
| RangeError
| TypeError.

Inductive outcome (A : Type) : Type :=
| Ret (a : A)
| Throw (e : error)
| OutOfFuel.

Arguments Ret {A} a.
Arguments Throw {A} e.
Arguments OutOfFuel {A}.

Definition bind {A B : Type} (m : outcome A) (k : A -> outcome B) : outcome B :=
  match m with
  | Ret a => k a
  | Throw e => Throw e
  | OutOfFuel => OutOfFuel
  end.

Notation "x <- m ;; k" := (bind m (fun x => k))
  (at level 61, m at next level, right associativity).
Notation "' pat <- m ;; k" := (bind m (fun x => match x with pat => k end))
  (at level 61, pat pattern, m at next level, right associativity).

(** ** Bytes, array buffers and typed-array views *)

Definition u8 (b : byte) : Z := Z.of_N (Byte.to_N b).

(** The heap maps an array-buffer identity (its index) to its contents. *)
Definition heap : Type := list (list byte).

Record Uint8Array : Type := mkUint8Array {
  buffer : nat;
  byteOffset : Z;
  byteLength : Z
}.

(** The bytes a view shows. *)
Definition bytes (h : heap) (a : Uint8Array) : list byte :=
  firstn (Z.to_nat (byteLength a))
         (skipn (Z.to_nat (byteOffset a)) (nth (buffer a) h [])).

(** [BytesLike]: a typed array, or an array buffer given by its identity. *)
Inductive BytesLike : Type :=
| IsUint8Array (a : Uint8Array)
| IsArrayBuffer (b : nat).

(** [b instanceof Uint8Array ? b : new Uint8Array(b)] *)
Definition toUint8 (b : BytesLike) (h : heap) : Uint8Array :=
  match b with
  | IsUint8Array a => a
  | IsArrayBuffer n => mkUint8Array n 0 (Z.of_nat (length (nth n h [])))
  end.

(** The invariant every typed array of the JavaScript heap satisfies. *)
Definition valid (h : heap) (a : Uint8Array) : Prop :=
  (buffer a < length h)%nat /\
  0 <= byteOffset a /\ 0 <= byteLength a /\
  byteOffset a + byteLength a <= Z.of_nat (length (nth (buffer a) h [])).

Definition len (bs : list byte) : Z := Z.of_nat (length bs).

(** [a[i]]: [undefined] ([None]) outside the array. *)
Definition elem (bs : list byte) (i : Z) : option Z :=
  if (0 <=? i) && (i <? len bs)
  then option_map u8 (nth_error bs (Z.to_nat i))
  else None.

Definition byteAt (bs : list byte) (i : Z) : Z :=
  u8 (nth (Z.to_nat i) bs x00).

(** [DataView.prototype.getUint32(o, true)]: little endian, [RangeError]
    when the four bytes do not lie inside the view. *)
Definition getUint32 (d : list byte) (o : Z) : outcome Z :=
  if (0 <=? o) && (o + 4 <=? len d)
  then Ret (byteAt d o + 2^8 * byteAt d (o + 1)
            + 2^16 * byteAt d (o + 2) + 2^24 * byteAt d (o + 3))
  else Throw RangeError.

(** [a.subarray(begin, end)]: a new view on the same buffer; negative
    indices count from the end, and both ends are clamped to the array. *)
Definition clampIndex (srcLength rel : Z) : Z :=
  if rel <? 0 then Z.max (srcLength + rel) 0 else Z.min rel srcLength.

Definition subarray (a : Uint8Array) (begin_ end_ : Z) : Uint8Array :=
  let beginIndex := clampIndex (byteLength a) begin_ in
  let endIndex := clampIndex (byteLength a) end_ in
  mkUint8Array (buffer a) (byteOffset a + beginIndex)
               (Z.max (endIndex - beginIndex) 0).

(** [new Uint8Array(n)]: a fresh zero-filled buffer and the view on it
    (a host that cannot allocate [n] bytes throws instead). *)
Definition newUint8Array (n : Z) (h : heap) : Uint8Array * heap :=
  (mkUint8Array (length h) 0 n, h ++ [repeat x00 (Z.to_nat n)]).

Definition splice (dst src : list byte) (p : nat) : list byte :=
  firstn p dst ++ src ++ skipn (p + length src) dst.

Fixpoint updateBuffer (h : heap) (b : nat) (f : list byte -> list byte) : heap :=
  match h, b with
  | [], _ => []
  | x :: h', O => f x :: h'
  | x :: h', S b' => x :: updateBuffer h' b' f
  end.

(** [out.set(s, p)]: copies the bytes of [s] into [out] at index [p];
    [RangeError] when they do not fit. *)
Definition set (out s : Uint8Array) (p : Z) (h : heap) : outcome heap :=
  if (p <? 0) || (byteLength out <? p + byteLength s) then Throw RangeError
  else
    let src := bytes h s in
    Ret (updateBuffer h (buffer out)
           (fun dst => splice dst src (Z.to_nat (byteOffset out + p)))).

(** ** Numbers *)

Definition toInt32 (v : Z) : Z := (v + 2^31) mod 2^32 - 2^31.

(** [a << b] on JavaScript numbers; [undefined] counts as 0. *)
Definition shl (a : Z) (b : option Z) : Z :=
  let count := Z.land (match b with Some n => n | None => 0 end) 31 in
  toInt32 (Z.shiftl (toInt32 a) count).

(** Rounding of an integer to the nearest double, ties to even. *)
Definition roundDouble (x : Z) : Z :=
  let a := Z.abs x in
  if a <? 2^53 then x
  else
    let e := Z.log2 a - 52 in
    let q := a / 2^e in
    let r := a mod 2^e in
    let half := 2^(e - 1) in
    let q' := if r <? half then q
              else if half <? r then q + 1
              else if Z.even q then q else q + 1 in
    Z.sgn x * (q' * 2^e).

Definition readU32 (d : list byte) (o : Z) : outcome Z := getUint32 d o.

Definition readU64 (d : list byte) (o : Z) : outcome Z :=
  lo <- getUint32 d o ;;
  hi <- getUint32 d (o + 4) ;;
  Ret (roundDouble (hi * 2^32 + lo)).

(** ** Boot sector *)

Record Boot : Type := mkBoot {
  sectorSize : Z;
  clusterSize : Z;
  fatOffsetBytes : Z;
  fatLengthBytes : Z;
  clusterHeapOffsetBytes : Z;
  clusterCount : Z;
  rootDirCluster : Z
}.

Definition parseBoot (h : heap) (buf : Uint8Array) : outcome Boot :=
  let d := bytes h buf in
  let bytesPerSectorShift := elem d 0x6c in
  let sectorsPerClusterShift := elem d 0x6d in
  let sectorSize := shl 1 bytesPerSectorShift in
  let clusterSize := sectorSize * shl 1 sectorsPerClusterShift in
  fatOffset <- readU32 d 0x50 ;;
  fatLength <- readU32 d 0x54 ;;
  clusterHeapOffset <- readU32 d 0x58 ;;
  clusterCount <- readU32 d 0x5c ;;
  rootDirCluster <- readU32 d 0x60 ;;
  Ret {| sectorSize := sectorSize;
         clusterSize := clusterSize;
         fatOffsetBytes := fatOffset * sectorSize;
         fatLengthBytes := fatLength * sectorSize;
         clusterHeapOffsetBytes := clusterHeapOffset * sectorSize;
         clusterCount := clusterCount;
         rootDirCluster := rootDirCluster |}.

Definition clusterOffset (boot : Boot) (cluster : Z) : Z :=
  clusterHeapOffsetBytes boot + (cluster - 2) * clusterSize boot.

Definition readFATNext (h : heap) (buf : Uint8Array) (boot : Boot) (cluster : Z)
  : outcome Z :=
  let off := fatOffsetBytes boot + cluster * 4 in
  if off + 4 >? byteLength buf then Ret 0xffffffff
  else getUint32 (bytes h buf) off.

Definition isEndOfChain (v : Z) : bool :=
  (v >=? 0xfffffff8) || (v =? 0xffffffff) || (v =? 0).

(** ** FAT chains *)

(** One state of the loop of [readChain]: the chunks pushed so far, the
    bytes still wanted ([None] when no limit was given) and the cluster.
    [remaining -= ...] is exact here, as it is on doubles for a limit of
    at most [2^53]. *)
Fixpoint chainLoop (fuel : nat) (h : heap) (buf : Uint8Array) (boot : Boot)
    (chunks : list Uint8Array) (remaining : option Z) (c : Z)
  : outcome (list Uint8Array) :=
  if (c >=? 2) && (c <? 0x0fffffff) then
    match fuel with
    | O => OutOfFuel
    | S fuel' =>
        let off := clusterOffset boot c in
        let size := clusterSize boot in
        let slice := subarray buf off (off + size) in
        let pushed :=
          match remaining with
          | None => Some (chunks ++ [slice], None)
          | Some r =>
              if r <=? 0 then None
              else
                let take := Z.min (byteLength slice) r in
                Some (chunks ++ [subarray slice 0 take], Some (r - take))
          end in
        match pushed with
        | None => Ret chunks
        | Some (chunks', remaining') =>
            next <- readFATNext h buf boot c ;;
            if isEndOfChain next then Ret chunks'
            else chainLoop fuel' h buf boot chunks' remaining' next
        end
    end
  else Ret chunks.

Definition totalLength (chunks : list Uint8Array) : Z :=
  fold_left (fun total s => total + byteLength s) chunks 0.

Fixpoint copyChunks (out : Uint8Array) (chunks : list Uint8Array) (p : Z)
    (h : heap) : outcome heap :=
  match chunks with
  | [] => Ret h
  | s :: rest =>
      h' <- set out s p h ;;
      copyChunks out rest (p + byteLength s) h'
  end.

(** [readChain]: a single chunk is returned as it is, a view into the
    image; otherwise the chunks are copied into a fresh array. *)
Definition readChain (fuel : nat) (buf : Uint8Array) (boot : Boot)
    (startCluster : Z) (limitBytes : option Z) (h : heap)
  : outcome (Uint8Array * heap) :=
  chunks <- chainLoop fuel h buf boot [] limitBytes startCluster ;;
  match chunks with
  | [chunk] => Ret (chunk, h)
  | _ =>
      let '(out, h1) := newUint8Array (totalLength chunks) h in
      h2 <- copyChunks out chunks 0 h1 ;;
      Ret (out, h2)
  end.

(** ** Strings *)

(** A JavaScript string: its UTF-16 code units. *)
Definition jsstring : Type := list Z.

Definition streq (a b : jsstring) : bool :=
  if list_eq_dec Z.eq_dec a b then true else false.

Definition isLead (u : Z) : bool := (0xD800 <=? u) && (u <=? 0xDBFF).
Definition isTrail (u : Z) : bool := (0xDC00 <=? u) && (u <=? 0xDFFF).

Fixpoint codeUnits (bs : list byte) : list Z :=
  match bs with
  | lo :: hi :: rest => (u8 lo + 2^8 * u8 hi) :: codeUnits rest
  | _ => []
  end.

(** The UTF-16 decoder: an unpaired surrogate becomes U+FFFD, and so does
    whatever is pending (a lead surrogate, an odd byte) at the end. *)
Fixpoint utf16 (units : list Z) (odd : bool) : jsstring :=
  match units with
  | [] => if odd then [0xFFFD] else []
  | u :: rest =>
      if isLead u then
        match rest with
        | [] => [0xFFFD]
        | t :: rest' =>
            if isTrail t then u :: t :: utf16 rest' odd
            else 0xFFFD :: utf16 rest odd
        end
      else if isTrail u then 0xFFFD :: utf16 rest odd
      else u :: utf16 rest odd
  end.

Definition stripBOM (s : jsstring) : jsstring :=
  match s with
  | u :: rest => if u =? 0xFEFF then rest else s
  | [] => []
  end.

(** [new TextDecoder("utf-16le").decode(part)] *)
Definition TD16_decode (part : list byte) : jsstring :=
  stripBOM (utf16 (codeUnits part) (Nat.odd (length part))).

Fixpoint dropWhileNul (s : jsstring) : jsstring :=
  match s with
  | u :: rest => if u =? 0 then dropWhileNul rest else s
  | [] => []
  end.

(** [name.replace(/\u0000+$/g, "")] *)
Definition stripTrailingNul (s : jsstring) : jsstring :=
  rev (dropWhileNul (rev s)).

(** [bs.subarray(b, e)] on the contents of an array. *)
Definition subBytes (bs : list byte) (begin_ end_ : Z) : list byte :=
  let beginIndex := clampIndex (len bs) begin_ in
  let endIndex := clampIndex (len bs) end_ in
  firstn (Z.to_nat (Z.max (endIndex - beginIndex) 0))
         (skipn (Z.to_nat beginIndex) bs).

(** ** Directory entries *)

Module DirEntry.
Record t : Type := mk {
  name : jsstring;
  isDir : bool;
  size : Z;
  firstCluster : Z
}.
End DirEntry.

Definition leq_opt (a : Z) (b : option Z) : bool :=
  match b with Some n => a <=? n | None => false end.

Definition land_opt (a : option Z) (m : Z) : Z :=
  Z.land (match a with Some n => n | None => 0 end) m.

(** The inner loop of [readDirectory] over the secondary entries; it
    returns the final [j], [name], [firstCluster] and [size]. *)
Fixpoint secondaries (fuel : nat) (data : list byte) (secondaryCount : option Z)
    (consumed j : Z) (name : jsstring) (firstCluster size : Z)
  : outcome (Z * jsstring * Z * Z) :=
  if leq_opt consumed secondaryCount && (j + 32 <=? len data) then
    match fuel with
    | O => OutOfFuel
    | S fuel' =>
        let st := elem data j in
        match st with
        | Some 0xc0 =>
            firstCluster' <- readU32 data (j + 0x14) ;;
            size' <- readU64 data (j + 0x18) ;;
            secondaries fuel' data secondaryCount (consumed + 1) (j + 32)
                        name firstCluster' size'
        | Some 0xc1 =>
            let part := subBytes data (j + 2) (j + 32) in
            secondaries fuel' data secondaryCount (consumed + 1) (j + 32)
                        (name ++ TD16_decode part) firstCluster size
        | _ =>
            secondaries fuel' data secondaryCount (consumed + 1) (j + 32)
                        name firstCluster size
        end
    end
  else Ret (j, name, firstCluster, size).

(** The outer loop of [readDirectory]. *)
Fixpoint dirLoop (fuel : nat) (data : list byte) (i : Z)
    (res : list DirEntry.t) : outcome (list DirEntry.t) :=
  if i + 32 <=? len data then
    match fuel with
    | O => OutOfFuel
    | S fuel' =>
        match elem data i with
        | Some 0x00 => dirLoop fuel' data (i + 32) res
        | Some 0x85 =>
            let secondaryCount := elem data (i + 1) in
            let isDir := negb (land_opt (elem data (i + 4)) 0x10 =? 0) in
            '(j, name, firstCluster, size) <-
              secondaries fuel' data secondaryCount 1 (i + 32) [] 0 0 ;;
            let name := stripTrailingNul name in
            dirLoop fuel' data j
                    (res ++ [DirEntry.mk name isDir size firstCluster])
        | _ => dirLoop fuel' data (i + 32) res
        end
    end
  else Ret res.

(** [readDirectory]; both loops advance by 32 bytes per iteration, so the
    number of bytes bounds their iterations. *)
Definition readDirectory (fuel : nat) (buf : Uint8Array) (boot : Boot)
    (startCluster : Z) (h : heap) : outcome (list DirEntry.t * heap) :=
  '(data, h1) <- readChain fuel buf boot startCluster None h ;;
  let d := bytes h1 data in
  res <- dirLoop (S (length d)) d 0 [] ;;
  Ret (res, h1).

(** ** Paths *)

Definition slash : Z := 0x2F.

(** [s.split("/")] *)
Fixpoint split (s : jsstring) : list jsstring :=
  match s with
  | [] => [[]]
  | u :: s' =>
      if u =? slash then [] :: split s'
      else match split s' with
           | seg :: segs => (u :: seg) :: segs
           | [] => [[u]]
           end
  end.

Definition truthy (s : jsstring) : bool :=
  match s with [] => false | _ => true end.

Definition normalizePath (p : jsstring) : list jsstring :=
  filter truthy (split p).

(** [parts.join("/")] *)
Fixpoint join (parts : list jsstring) : jsstring :=
  match parts with
  | [] => []
  | [s] => s
  | s :: rest => s ++ slash :: join rest
  end.

(** ** The reader *)

Module ExfatListItem.
Record t : Type := mk {
  name : jsstring;
  isDir : bool;
  size : Z
}.
End ExfatListItem.

(** A walk item.  The closure [read] of a file item is kept as what it
    captures, the entry's [firstCluster] and [size]; [callRead] runs it.
    A directory item has no [read] property ([None]). *)
Module ExfatWalkItem.
Record t : Type := mk {
  path : jsstring;
  isDir : bool;
  size : Z;
  read : option (Z * Z)
}.
End ExfatWalkItem.

Module ExfatReader.

Record t : Type := mk {
  buf : Uint8Array;
  boot : Boot
}.

(** [new ExfatReader(image)] *)
Definition new (image : BytesLike) (h : heap) : outcome t :=
  let b := toUint8 image h in
  boot <- parseBoot h b ;;
  Ret (mk b boot).

(** The loop that [list] and [walk] start with: descend through the
    directories named by [parts]; [None] when one is not found. *)
Fixpoint findDirectory (fuel : nat) (this : t) (parts : list jsstring)
    (cluster : Z) (h : heap) : outcome (option Z * heap) :=
  match parts with
  | [] => Ret (Some cluster, h)
  | part :: rest =>
      '(entries, h1) <- readDirectory fuel (buf this) (boot this) cluster h ;;
      match find (fun e => DirEntry.isDir e && streq (DirEntry.name e) part)
                 entries with
      | None => Ret (None, h1)
      | Some next => findDirectory fuel this rest (DirEntry.firstCluster next) h1
      end
  end.

Definition isLast (rest : list jsstring) : bool :=
  match rest with [] => true | _ => false end.

Fixpoint existsLoop (fuel : nat) (this : t) (parts : list jsstring)
    (cluster : Z) (h : heap) : outcome (bool * heap) :=
  match parts with
  | [] => Ret (true, h)
  | part :: rest =>
      '(entries, h1) <- readDirectory fuel (buf this) (boot this) cluster h ;;
      let last := isLast rest in
      match find (fun e => streq (DirEntry.name e) part
                           && (last || DirEntry.isDir e)) entries with
      | None => Ret (false, h1)
      | Some found => existsLoop fuel this rest (DirEntry.firstCluster found) h1
      end
  end.

Definition exists_ (fuel : nat) (this : t) (path : jsstring) (h : heap)
  : outcome (bool * heap) :=
  let parts := normalizePath path in
  existsLoop fuel this parts (rootDirCluster (boot this)) h.

Fixpoint readFileLoop (fuel : nat) (this : t) (parts : list jsstring)
    (cluster : Z) (h : heap) : outcome (option Uint8Array * heap) :=
  match parts with
  | [] => Ret (None, h)
  | part :: rest =>
      '(entries, h1) <- readDirectory fuel (buf this) (boot this) cluster h ;;
      let last := isLast rest in
      match find (fun e => streq (DirEntry.name e) part
                           && (if negb last then DirEntry.isDir e
                               else negb (DirEntry.isDir e))) entries with
      | None => Ret (None, h1)
      | Some found =>
          if last then
            '(data, h2) <- readChain fuel (buf this) (boot this)
                             (DirEntry.firstCluster found)
                             (Some (DirEntry.size found)) h1 ;;
            Ret (Some data, h2)
          else readFileLoop fuel this rest (DirEntry.firstCluster found) h1
      end
  end.

Definition readFile (fuel : nat) (this : t) (path : jsstring) (h : heap)
  : outcome (option Uint8Array * heap) :=
  let parts := normalizePath path in
  readFileLoop fuel this parts (rootDirCluster (boot this)) h.

(** [for (const e of entries) body(e)] over a threaded state. *)
Fixpoint forOf {A S : Type} (body : A -> S -> outcome S) (xs : list A) (s : S)
  : outcome S :=
  match xs with
  | [] => Ret s
  | x :: xs' => s' <- body x s ;; forOf body xs' s'
  end.

Definition childPath (currentPath name : jsstring) : jsstring :=
  if streq currentPath [slash] then slash :: name
  else currentPath ++ slash :: name.

(** The body of the [for] loop of [visit], for one entry; [recurse] is
    the recursive call of [visit]. *)
Definition visitEntry
    (recurse : jsstring -> Z -> list ExfatWalkItem.t * heap ->
               outcome (list ExfatWalkItem.t * heap))
    (currentPath : jsstring) (e : DirEntry.t)
    (st : list ExfatWalkItem.t * heap)
  : outcome (list ExfatWalkItem.t * heap) :=
  let '(result, h) := st in
  let p := childPath currentPath (DirEntry.name e) in
  if DirEntry.isDir e then
    recurse p (DirEntry.firstCluster e)
            (result ++ [ExfatWalkItem.mk p true (DirEntry.size e) None], h)
  else
    Ret (result ++ [ExfatWalkItem.mk p false (DirEntry.size e)
                      (Some (DirEntry.firstCluster e, DirEntry.size e))], h).

(** The closure [visit] of [walk]; [result] is the array it pushes to, and
    [depth] bounds the nesting of the recursive calls (the program has no
    bound of its own: it nests until the host's stack is used up). *)
Fixpoint visit (depth fuel : nat) (this : t) (currentPath : jsstring)
    (c : Z) (st : list ExfatWalkItem.t * heap)
  : outcome (list ExfatWalkItem.t * heap) :=
  match depth with
  | O => OutOfFuel
  | S depth' =>
      let '(result, h) := st in
      '(entries, h1) <- readDirectory fuel (buf this) (boot this) c h ;;
      forOf (visitEntry (visit depth' fuel this) currentPath)
            entries (result, h1)
  end.

Definition walk (fuel : nat) (this : t) (path : jsstring) (h : heap)
  : outcome (list ExfatWalkItem.t * heap) :=
  let parts := normalizePath path in
  '(found, h1) <- findDirectory fuel this parts (rootDirCluster (boot this)) h ;;
  match found with
  | None => Ret ([], h1)
  | Some cluster =>
      let basePath := match parts with
                      | [] => [slash]
                      | _ => slash :: join parts
                      end in
      visit fuel fuel this basePath cluster ([], h1)
  end.

(** [item.read()]: the closure of a file item runs [readChain] with what
    it captured; on an item without the property the call is a
    [TypeError]. *)
Definition callRead (fuel : nat) (this : t) (item : ExfatWalkItem.t)
    (h : heap) : outcome (Uint8Array * heap) :=
  match ExfatWalkItem.read item with
  | None => Throw TypeError
  | Some (firstCluster, size) =>
      readChain fuel (buf this) (boot this) firstCluster (Some size) h
  end.

Definition list (fuel : nat) (this : t) (path : jsstring) (h : heap)
  : outcome (list ExfatListItem.t * heap) :=
  let parts := normalizePath path in
  '(found, h1) <- findDirectory fuel this parts (rootDirCluster (boot this)) h ;;
  match found with
  | None => Ret ([], h1)
  | Some cluster =>
      '(out, h2) <- readDirectory fuel (buf this) (boot this) cluster h1 ;;
      Ret (map (fun e => ExfatListItem.mk (DirEntry.name e) (DirEntry.isDir e)
                                          (DirEntry.size e)) out, h2)
  end.

End ExfatReader.

Definition createExfatReader (image : BytesLike) (h : heap)
  : outcome ExfatReader.t :=
  ExfatReader.new image h.

(** ** Building images *)

Module Image.

Definition byteOfZ (z : Z) : byte :=
  match Byte.of_N (Z.to_N (z mod 256)) with
  | Some b => b
  | None => x00
  end.

Definition le32 (v : Z) : list byte :=
  map byteOfZ [v; v / 2^8; v / 2^16; v / 2^24].

Definition le64 (v : Z) : list byte := le32 (v mod 2^32) ++ le32 (v / 2^32).

(** [bs] cut or zero-filled to [n] bytes. *)
Definition pad (n : nat) (bs : list byte) : list byte :=
  firstn n (bs ++ repeat x00 n).

Definition utf16le (s : jsstring) : list byte :=
  flat_map (fun u => [byteOfZ u; byteOfZ (u / 2^8)]) s.

(** The code units of an ASCII string. *)
Definition str (s : String.string) : jsstring :=
  map u8 (String.list_byte_of_string s).

(** A boot sector of [n] bytes with the given BPB fields. *)
Definition bootSector (n : nat) (fatOffset fatLength clusterHeapOffset
    clusterCount rootDirCluster bytesPerSectorShift sectorsPerClusterShift : Z)
  : list byte :=
  pad n (repeat x00 0x50
         ++ le32 fatOffset ++ le32 fatLength ++ le32 clusterHeapOffset
         ++ le32 clusterCount ++ le32 rootDirCluster
         ++ repeat x00 8
         ++ [byteOfZ bytesPerSectorShift; byteOfZ sectorsPerClusterShift]).

(** The three kinds of directory entry the decoder knows. *)
Definition fileEntry (secondaryCount attributes : Z) : list byte :=
  pad 32 ([x85; byteOfZ secondaryCount; x00; x00] ++ le32 attributes).

Definition streamEntry (firstCluster size : Z) : list byte :=
  pad 32 ([xc0] ++ repeat x00 19 ++ le32 firstCluster ++ le64 size).

Definition nameEntry (s : jsstring) : list byte :=
  pad 32 ([xc1; x00] ++ utf16le s).

(** A complete entry set for a short name. *)
Definition entrySet (isDir : bool) (s : jsstring) (firstCluster size : Z)
  : list byte :=
  fileEntry 2 (if isDir then 0x10 else 0x20)
  ++ streamEntry firstCluster size ++ nameEntry s.

Definition fat (entries : list Z) : list byte := flat_map le32 entries.

(** The heap holding one image, and the view on the whole of it. *)
Definition load (image : list byte) : heap := [image].
Definition whole (image : list byte) : Uint8Array :=
  mkUint8Array 0 0 (len image).

End Image.

(** ** Sample images *)

Module Sample.
Import Image.

(** Sectors of 32 bytes, clusters of 256 bytes; the boot region takes four
    sectors, the FAT one sector at sector 4, the cluster heap starts at
    sector 5.  Cluster 2 is the root directory ([hello.txt], 4 bytes in
    cluster 3, and the directory [Documents] in cluster 4), which holds
    [a.bin], 266 bytes in the chain 5, 6, and [empty], of size 0 and
    first cluster 0. *)
Definition image : list byte :=
  bootSector 128 4 1 5 5 2 5 3
  ++ pad 32 (fat [0xfffffff8; 0xffffffff; 0xffffffff; 0xffffffff;
                  0xffffffff; 6; 0xffffffff])
  ++ pad 256 (entrySet false (str "hello.txt"%string) 3 4
              ++ entrySet true (str "Documents"%string) 4 0)
  ++ pad 256 (map byteOfZ [104; 105; 33; 10])
  ++ pad 256 (entrySet false (str "a.bin"%string) 5 266
              ++ entrySet false (str "empty"%string) 0 0)
  ++ pad 256 (map byteOfZ [1; 2; 3])
  ++ pad 256 (map byteOfZ [4; 5; 6]).

(** The same image cut six bytes into cluster 6. *)
Definition truncated : list byte := firstn 1190 image.

Definition geometry : Boot := mkBoot 32 256 128 32 160 5 2.

Definition reader (img : list byte) : ExfatReader.t :=
  ExfatReader.mk (whole img) geometry.

End Sample.

(** ** Notions used in the statements *)

(** [inside a s]: the view [s] shows a part of what the view [a] shows. *)
Definition inside (a s : Uint8Array) : Prop :=
  buffer s = buffer a /\
  byteOffset a <= byteOffset s /\ 0 <= byteLength s /\
  byteOffset s + byteLength s <= byteOffset a + byteLength a.

(** The bytes a list of chunks shows, in order. *)
Definition contents (h : heap) (chunks : list Uint8Array)
  : list byte :=
  flat_map (bytes h) chunks.

(** [grows h g]: the heap [g] is [h] with fresh buffers added; no buffer
    of [h] has changed. *)
Definition grows (h g : heap) : Prop := exists fresh, g = h ++ fresh.

(** Two heaps in which the image view shows the same bytes. *)
Definition agree (image : Uint8Array) (h h' : heap) : Prop :=
  valid h image /\ valid h' image /\ bytes h image = bytes h' image.

(** Two runs with the same kind of outcome, and related results. *)
Definition related {A : Type} (R : A -> heap -> A -> heap -> Prop)
    (r r' : outcome (A * heap)) : Prop :=
  match r, r' with
  | Ret (a, g), Ret (a', g') => R a g a' g'
  | Throw e, Throw e' => e = e'
  | OutOfFuel, OutOfFuel => True
  | _, _ => False
  end.

(** [resolvesToFile fuel this parts cluster h e h']: starting in the
    directory at [cluster], every segment of [parts] but the last names a
    directory entry and the last one names the non-directory entry [e];
    [h'] is the heap after the directory reads. *)
Fixpoint resolvesToFile (fuel : nat) (this : ExfatReader.t)
    (parts : list jsstring) (cluster : Z) (h : heap)
    (e : DirEntry.t) (h' : heap) : Prop :=
  match parts with
  | [] => False
  | part :: rest =>
      exists entries h1,
        readDirectory fuel (ExfatReader.buf this) (ExfatReader.boot this)
                      cluster h = Ret (entries, h1) /\
        match rest with
        | [] =>
            find (fun e => streq (DirEntry.name e) part
                           && negb (DirEntry.isDir e)) entries = Some e /\
            h' = h1
        | _ =>
            exists d,
              find (fun e => streq (DirEntry.name e) part
                             && DirEntry.isDir e) entries = Some d /\
              resolvesToFile fuel this rest (DirEntry.firstCluster d) h1 e h'
        end
  end.

(** The four operations give the same outcome on the paths [p] and [q]. *)
Definition sameResults (fuel : nat) (this : ExfatReader.t) (h : heap)
    (p q : jsstring) : Prop :=
  ExfatReader.list fuel this p h = ExfatReader.list fuel this q h /\
  ExfatReader.exists_ fuel this p h = ExfatReader.exists_ fuel this q h /\
  ExfatReader.readFile fuel this p h = ExfatReader.readFile fuel this q h /\
  ExfatReader.walk fuel this p h = ExfatReader.walk fuel this q h.

(** [appends run]: what [run] pushes does not depend on the items that
    are already in the result array, and these stay in front. *)
Definition appends
    (run : list ExfatWalkItem.t * heap ->
           outcome (list ExfatWalkItem.t * heap)) : Prop :=
  forall result h,
    run (result, h)
    = ('(pushed, g) <- run ([], h) ;; Ret (result ++ pushed, g)).

(** [unchanged h g]: every array of [h] is still there in [g] and shows
    the same bytes. *)
Definition unchanged (h g : heap) : Prop :=
  forall a, valid h a -> valid g a /\ bytes g a = bytes h a.

(** ** Further notions *)

(** [1 << k] as a 32-bit integer, for a shift count [k] below 32. *)
Definition int32Pow2 (k : Z) : Z := if k =? 31 then - 2^31 else 2^k.

(** The shift count a byte of the boot sector gives; a missing byte
    counts as 0. *)
Definition shiftCount (d : list byte) (o : Z) : Z :=
  match elem d o with
  | Some n => n mod 32
  | None => 0
  end.

(** The base path [walk] starts from. *)
Definition basePath (parts : list jsstring) : jsstring :=
  match parts with
  | [] => [slash]
  | _ => slash :: join parts
  end.

(** The item [visit] pushes for the entry [e] of the directory at
    [currentPath]. *)
Definition itemOf (currentPath : jsstring) (e : DirEntry.t) : ExfatWalkItem.t :=
  let p := ExfatReader.childPath currentPath (DirEntry.name e) in
  if DirEntry.isDir e then ExfatWalkItem.mk p true (DirEntry.size e) None
  else ExfatWalkItem.mk p false (DirEntry.size e)
         (Some (DirEntry.firstCluster e, DirEntry.size e)).

(** A segment as [normalizePath] yields them: not empty, without slash. *)
Definition segment (s : jsstring) : Prop := s <> [] /\ ~ In slash s.

(** ** Damaged images *)

Module Damaged.
Import Image.

(** A boot sector with a sector shift of 31: the sector size is [- 2^31]
    and the FAT, one sector in, lies at a negative offset. *)
Definition negative : list byte := bootSector 128 1 1 5 5 2 31 0.

(** The sample image with the FAT entry of cluster 5 pointing to cluster 5
    itself. *)
Definition cyclic : list byte :=
  bootSector 128 4 1 5 5 2 5 3
  ++ pad 32 (fat [0xfffffff8; 0xffffffff; 0xffffffff; 0xffffffff;
                  0xffffffff; 5; 0xffffffff])
  ++ skipn 160 Sample.image.

(** The sample image with a root directory cluster of 1. *)
Definition rootless : list byte :=
  bootSector 128 4 1 5 5 1 5 3 ++ skipn 128 Sample.image.

End Damaged.

(** A code unit of a JavaScript string. *)
Definition codeUnit (u : Z) : Prop := 0 <= u < 2^16.

(** What every decoded record satisfies. *)
Definition wellFormedEntry (e : DirEntry.t) : Prop :=
  0 <= DirEntry.size e <= 2^64 /\
  0 <= DirEntry.firstCluster e < 2^32 /\
  Forall codeUnit (DirEntry.name e) /\
  last (DirEntry.name e) 1 <> 0.

(** What every item of [walk] satisfies: its path starts with a slash,
    it has a [read] accessor exactly when it is not a directory, and the
    accessor reads with the size of the item as the limit. *)
Definition walkItemOk (it : ExfatWalkItem.t) : Prop :=
  hd 0 (ExfatWalkItem.path it) = slash /\
  0 <= ExfatWalkItem.size it /\
  (ExfatWalkItem.isDir it = true <-> ExfatWalkItem.read it = None) /\
  (forall firstCluster size,
      ExfatWalkItem.read it = Some (firstCluster, size) ->
      size = ExfatWalkItem.size it).

(** Equal results, in heaps that still agree on the image. *)
Definition sameIn (image : Uint8Array) {A : Type} (a : A) (g : heap) (a' : A)
    (g' : heap) : Prop :=
  a = a' /\ agree image g g'.

(** * Properties *)

Arguments subarray : simpl never.
Arguments totalLength : simpl never.

(** Closed comparisons and equalities, decided by evaluation. *)
Ltac by_compute :=
  repeat match goal with
         | |- valid _ _ => unfold valid
         | |- _ /\ _ => split
         end;
  first [ apply Nat.ltb_lt; vm_compute; reflexivity
        | apply Nat.leb_le; vm_compute; reflexivity
        | apply Z.ltb_lt; vm_compute; reflexivity
        | apply Z.leb_le; vm_compute; reflexivity
        | vm_compute; reflexivity ].

(** ** Views and heaps *)

Lemma len_nonneg (bs : list byte) : 0 <= len bs.
Proof. unfold len. lia. Qed.

Lemma u8_range (b : byte) : 0 <= u8 b < 256.
Proof.
  unfold u8. pose proof (Byte.to_N_bounded b). lia.
Qed.

Lemma bytes_len (h : heap) (a : Uint8Array) :
  valid h a -> len (bytes h a) = byteLength a.
Proof.
  intros (_ & Ho & Hl & Hb). unfold len, bytes.
  rewrite length_firstn, length_skipn. lia.
Qed.

Lemma valid_app (h fresh : heap) (a : Uint8Array) :
  valid h a -> valid (h ++ fresh) a.
Proof.
  intros (Hb & Ho & Hl & Hn). unfold valid.
  rewrite length_app, app_nth1 by assumption. repeat split; try lia.
Qed.

Lemma bytes_app (h fresh : heap) (a : Uint8Array) :
  (buffer a < length h)%nat -> bytes (h ++ fresh) a = bytes h a.
Proof.
  intros Hb. unfold bytes. now rewrite app_nth1.
Qed.

Lemma inside_refl (a : Uint8Array) : 0 <= byteLength a -> inside a a.
Proof. unfold inside. lia. Qed.

Lemma inside_trans (a s t : Uint8Array) :
  inside a s -> inside s t -> inside a t.
Proof.
  unfold inside. intros (-> & ? & ? & ?) (-> & ? & ? & ?). lia.
Qed.

Lemma clampIndex_range (n rel : Z) : 0 <= n -> 0 <= clampIndex n rel <= n.
Proof.
  intros Hn. unfold clampIndex. destruct (rel <? 0) eqn:E; lia.
Qed.

Lemma subarray_inside (a : Uint8Array) (b e : Z) :
  0 <= byteLength a -> inside a (subarray a b e).
Proof.
  intros Hl. unfold inside, subarray. simpl.
  pose proof (clampIndex_range (byteLength a) b Hl).
  pose proof (clampIndex_range (byteLength a) e Hl). lia.
Qed.

Lemma inside_valid (h : heap) (a s : Uint8Array) :
  valid h a -> inside a s -> valid h s.
Proof.
  unfold valid, inside. intros (Hb & Ho & Hl & Hn) (E & ? & ? & ?).
  rewrite E. repeat split; lia.
Qed.

Lemma skipn_firstn_swap {A : Type} (k n : nat) (l : list A) :
  skipn k (firstn n l) = firstn (n - k) (skipn k l).
Proof.
  revert n l. induction k as [|k IH]; intros n l.
  - now rewrite Nat.sub_0_r.
  - destruct n as [|n]; [reflexivity|].
    destruct l as [|x l]; simpl; [now rewrite firstn_nil | apply IH].
Qed.

(** What a part of a view shows is determined by what the view shows. *)
Lemma bytes_inside (h : heap) (a s : Uint8Array) :
  valid h a -> inside a s ->
  bytes h s = firstn (Z.to_nat (byteLength s))
                (skipn (Z.to_nat (byteOffset s - byteOffset a)) (bytes h a)).
Proof.
  intros (Hb & Ho & Hl & Hn) (E & ? & ? & ?). unfold bytes. rewrite E.
  rewrite skipn_firstn_swap, skipn_skipn, firstn_firstn.
  f_equal; [lia|]. f_equal. lia.
Qed.

Lemma bytes_subarray (h : heap) (a : Uint8Array) (b e : Z) :
  valid h a -> bytes h (subarray a b e) = subBytes (bytes h a) b e.
Proof.
  intros Hv. pose proof Hv as (_ & _ & Hl & _).
  rewrite (bytes_inside h a) by (auto using subarray_inside).
  unfold subBytes. rewrite (bytes_len h a Hv). unfold subarray. simpl.
  do 2 f_equal. lia.
Qed.

(** ** Construction (C1) *)

Lemma getUint32_cases (d : list byte) (o : Z) :
  getUint32 d o = Throw RangeError \/ exists v, getUint32 d o = Ret v.
Proof.
  unfold getUint32. destruct ((0 <=? o) && (o + 4 <=? len d)); eauto.
Qed.

Lemma getUint32_inside (d : list byte) (o : Z) :
  0 <= o -> o + 4 <= len d -> exists v, getUint32 d o = Ret v.
Proof.
  intros Ho Hl. unfold getUint32.
  replace ((0 <=? o) && (o + 4 <=? len d)) with true; eauto.
  symmetry. apply andb_true_iff. split; lia.
Qed.

Lemma getUint32_outside (d : list byte) (o : Z) :
  len d < o + 4 -> getUint32 d o = Throw RangeError.
Proof.
  intros Hl. unfold getUint32.
  replace (o + 4 <=? len d) with false by (symmetry; lia).
  now rewrite andb_false_r.
Qed.

(** C1.  Constructing a reader from an image shorter than the BPB fields
    it reads (the last one ends at offset 0x64) fails, with the
    [RangeError] of the out-of-bounds [getUint32], the only error the
    constructor can raise; from any image of at least 0x64 bytes it
    succeeds, whatever the bytes are. *)
Theorem new_fails_iff_too_short (h : heap) (image : BytesLike) :
  valid h (toUint8 image h) ->
  (byteLength (toUint8 image h) < 0x64 ->
   ExfatReader.new image h = Throw RangeError) /\
  (0x64 <= byteLength (toUint8 image h) ->
   exists b, ExfatReader.new image h = Ret (ExfatReader.mk (toUint8 image h) b)).
Proof.
  intros Hv. pose proof (bytes_len h _ Hv) as Hlen.
  unfold ExfatReader.new, parseBoot, readU32. cbv zeta.
  set (d := bytes h (toUint8 image h)) in *.
  split; intros Hshort.
  - assert (Hlast : getUint32 d 0x60 = Throw RangeError)
      by (apply getUint32_outside; lia).
    destruct (getUint32_cases d 0x50) as [-> | [v1 ->]]; [reflexivity|].
    destruct (getUint32_cases d 0x54) as [-> | [v2 ->]]; [reflexivity|].
    destruct (getUint32_cases d 0x58) as [-> | [v3 ->]]; [reflexivity|].
    destruct (getUint32_cases d 0x5c) as [-> | [v4 ->]]; [reflexivity|].
    cbn [bind]. now rewrite Hlast.
  - destruct (getUint32_inside d 0x50) as [v1 ->]; [lia | lia |].
    destruct (getUint32_inside d 0x54) as [v2 ->]; [lia | lia |].
    destruct (getUint32_inside d 0x58) as [v3 ->]; [lia | lia |].
    destruct (getUint32_inside d 0x5c) as [v4 ->]; [lia | lia |].
    destruct (getUint32_inside d 0x60) as [v5 ->]; [lia | lia |].
    cbn [bind]. eauto.
Qed.

Lemma new_fails_iff_too_short_witness :
  ExfatReader.new (IsArrayBuffer 0) (Image.load (repeat x00 99))
  = Throw RangeError /\
  exists b,
    ExfatReader.new (IsArrayBuffer 0) (Image.load (repeat x00 100))
    = Ret (ExfatReader.mk (Image.whole (repeat x00 100)) b).
Proof.
  split.
  - apply (proj1 (new_fails_iff_too_short (Image.load (repeat x00 99))
                    (IsArrayBuffer 0) ltac:(by_compute))).
    by_compute.
  - apply (proj2 (new_fails_iff_too_short (Image.load (repeat x00 100))
                    (IsArrayBuffer 0) ltac:(by_compute))).
    by_compute.
Defined.

(** The geometry of the sample images is the one their boot sector
    holds, and cutting the image does not change it. *)
Lemma sample_reader :
  createExfatReader (IsArrayBuffer 0) (Image.load Sample.image)
  = Ret (Sample.reader Sample.image) /\
  createExfatReader (IsUint8Array (Image.whole Sample.truncated))
                    (Image.load Sample.truncated)
  = Ret (Sample.reader Sample.truncated).
Proof. split; vm_compute; reflexivity. Qed.

(** Rounding to a double: exact below [2^53], to the nearest
    representable value with ties to even above. *)
Lemma roundDouble_examples :
  roundDouble (2^53 - 1) = 2^53 - 1 /\
  roundDouble (2^53 + 1) = 2^53 /\
  roundDouble (2^53 + 3) = 2^53 + 4 /\
  roundDouble (2^64 - 1) = 2^64.
Proof. repeat split; vm_compute; reflexivity. Qed.

(** A chain of one cluster is returned as a view into the image itself,
    a longer one in a fresh buffer. *)
Lemma readFile_aliasing :
  ExfatReader.readFile 4 (Sample.reader Sample.image)
    (Image.str "/hello.txt"%string) (Image.load Sample.image)
  = Ret (Some (mkUint8Array 0 416 4), Image.load Sample.image) /\
  exists fresh,
    ExfatReader.readFile 4 (Sample.reader Sample.image)
      (Image.str "/Documents/a.bin"%string) (Image.load Sample.image)
    = Ret (Some (mkUint8Array 1 0 266), Image.load Sample.image ++ [fresh]).
Proof.
  split; [vm_compute; reflexivity|].
  eexists. vm_compute. reflexivity.
Qed.

(** ** Assembling the chunks of a chain *)

Lemma bind_assoc {A B C : Type} (m : outcome A) (f : A -> outcome B)
    (g : B -> outcome C) :
  bind (bind m f) g = bind m (fun a => bind (f a) g).
Proof. now destruct m. Qed.

Lemma bind_ret {A B : Type} (m : outcome A) (f : A -> outcome B) (b : B) :
  bind m f = Ret b -> exists a, m = Ret a /\ f a = Ret b.
Proof. destruct m; simpl; try discriminate. eauto. Qed.

Lemma fold_left_lengths (chunks : list Uint8Array) (a : Z) :
  fold_left (fun total s => total + byteLength s) chunks a
  = a + totalLength chunks.
Proof.
  unfold totalLength. revert a.
  induction chunks as [|s chunks IH]; intros a; simpl; [lia|].
  rewrite (IH (a + byteLength s)), (IH (byteLength s)). lia.
Qed.

Lemma totalLength_cons (s : Uint8Array) (chunks : list Uint8Array) :
  totalLength (s :: chunks) = byteLength s + totalLength chunks.
Proof. unfold totalLength at 1. simpl. now rewrite fold_left_lengths. Qed.

Lemma totalLength_app (xs ys : list Uint8Array) :
  totalLength (xs ++ ys) = totalLength xs + totalLength ys.
Proof.
  induction xs as [|s xs IH]; [reflexivity|].
  simpl. rewrite !totalLength_cons, IH. lia.
Qed.

Lemma contents_len (h : heap) (chunks : list Uint8Array) :
  Forall (valid h) chunks -> len (contents h chunks) = totalLength chunks.
Proof.
  induction 1 as [|s chunks Hs _ IH]; [reflexivity|].
  unfold contents in *. simpl. rewrite totalLength_cons, <- IH, <- (bytes_len h s Hs).
  unfold len. rewrite length_app. lia.
Qed.

Lemma totalLength_nonneg (h : heap) (chunks : list Uint8Array) :
  Forall (valid h) chunks -> 0 <= totalLength chunks.
Proof.
  intros H. rewrite <- (contents_len h chunks H). apply len_nonneg.
Qed.

Lemma updateBuffer_last (h : heap) (B : list byte)
    (f : list byte -> list byte) :
  updateBuffer (h ++ [B]) (length h) f = h ++ [f B].
Proof. induction h as [|x h IH]; simpl; [reflexivity | now rewrite IH]. Qed.

Lemma splice_length (dst src : list byte) (p : nat) :
  (p + length src <= length dst)%nat -> length (splice dst src p) = length dst.
Proof.
  intros H. unfold splice. rewrite !length_app, length_firstn, length_skipn. lia.
Qed.

Lemma firstn_splice (dst src : list byte) (p : nat) :
  (p <= length dst)%nat ->
  firstn (p + length src) (splice dst src p) = firstn p dst ++ src.
Proof.
  intros H. unfold splice. rewrite app_assoc.
  replace (p + length src)%nat with (length (firstn p dst ++ src) + 0)%nat
    by (rewrite length_app, length_firstn; lia).
  rewrite firstn_app_2. simpl. now rewrite app_nil_r.
Qed.

Lemma skipn_splice (dst src : list byte) (p k : nat) :
  (p <= length dst)%nat ->
  skipn (p + length src + k) (splice dst src p) = skipn (p + length src + k) dst.
Proof.
  intros H. unfold splice. rewrite app_assoc, skipn_app.
  rewrite skipn_all2 by (rewrite length_app, length_firstn; lia).
  rewrite length_app, length_firstn, skipn_skipn. simpl. f_equal. lia.
Qed.

(** Copying the chunks into the fresh buffer [B] at the end of the heap
    fills it, from [p] on, with what the chunks show. *)
Lemma copyChunks_fresh (h : heap) (total : Z) :
  forall (chunks : list Uint8Array) (p : Z) (B : list byte),
    Forall (valid h) chunks ->
    0 <= p -> p + totalLength chunks <= total -> len B = total ->
    copyChunks (mkUint8Array (length h) 0 total) chunks p (h ++ [B])
    = Ret (h ++ [firstn (Z.to_nat p) B ++ contents h chunks
                 ++ skipn (Z.to_nat (p + totalLength chunks)) B]).
Proof.
  induction chunks as [|s chunks IH]; intros p B Hv Hp Hfit HB.
  - simpl. unfold totalLength. simpl. rewrite Z.add_0_r, firstn_skipn.
    reflexivity.
  - apply Forall_cons_iff in Hv as [Hs Hrest].
    rewrite totalLength_cons in *.
    pose proof (totalLength_nonneg h chunks Hrest) as Hnn.
    pose proof Hs as (Hb & _ & Hl & _).
    pose proof (bytes_len h s Hs) as Hlen. unfold len in Hlen, HB.
    simpl. unfold set. simpl.
    replace ((p <? 0) || (total <? p + byteLength s)) with false
      by (symmetry; apply orb_false_iff; split; lia).
    rewrite updateBuffer_last, (bytes_app h [B] s Hb). simpl.
    rewrite IH; try assumption; try lia.
    + do 3 f_equal. unfold contents. simpl. rewrite <- !app_assoc.
      replace (Z.to_nat (p + byteLength s))
        with (Z.to_nat p + length (bytes h s))%nat by lia.
      rewrite firstn_splice by lia. rewrite <- app_assoc. do 3 f_equal.
      replace (Z.to_nat (p + byteLength s + totalLength chunks))
        with (Z.to_nat p + length (bytes h s) + Z.to_nat (totalLength chunks))%nat
        by lia.
      rewrite skipn_splice by lia. f_equal. lia.
    + unfold len. rewrite splice_length; lia.
Qed.

(** ** The loop of [readChain] *)

(** The chunks already pushed are a prefix of the result and do not
    influence the rest of the loop. *)
Lemma chainLoop_app (fuel : nat) (h : heap) (buf : Uint8Array) (boot : Boot) :
  forall (chunks : list Uint8Array) (remaining : option Z) (c : Z),
    chainLoop fuel h buf boot chunks remaining c
    = (cs <- chainLoop fuel h buf boot [] remaining c ;; Ret (chunks ++ cs)).
Proof.
  induction fuel as [|fuel IH]; intros chunks remaining c; simpl.
  - destruct ((c >=? 2) && (c <? 0x0fffffff)); simpl;
      [reflexivity | now rewrite app_nil_r].
  - destruct ((c >=? 2) && (c <? 0x0fffffff)); simpl;
      [|now rewrite app_nil_r].
    destruct remaining as [r|].
    + destruct (r <=? 0); simpl; [now rewrite app_nil_r|].
      destruct (readFATNext h buf boot c) as [next| |]; simpl; try reflexivity.
      destruct (isEndOfChain next); simpl; [reflexivity|].
      rewrite (IH (chunks ++ _)), (IH [_]), bind_assoc.
      destruct (chainLoop fuel h buf boot [] _ next); simpl; try reflexivity.
      now rewrite <- app_assoc.
    + destruct (readFATNext h buf boot c) as [next| |]; simpl; try reflexivity.
      destruct (isEndOfChain next); simpl; [reflexivity|].
      rewrite (IH (chunks ++ _)), (IH [_]), bind_assoc.
      destruct (chainLoop fuel h buf boot [] _ next); simpl; try reflexivity.
      now rewrite <- app_assoc.
Qed.

(** Every chunk is a part of the image view. *)
Lemma chainLoop_inside (fuel : nat) (h : heap) (buf : Uint8Array) (boot : Boot) :
  0 <= byteLength buf ->
  forall (remaining : option Z) (c : Z) (chunks : list Uint8Array),
    chainLoop fuel h buf boot [] remaining c = Ret chunks ->
    Forall (inside buf) chunks.
Proof.
  intros Hl. induction fuel as [|fuel IH]; intros remaining c chunks; simpl.
  - destruct ((c >=? 2) && (c <? 0x0fffffff)); [discriminate|].
    intros [= <-]. constructor.
  - destruct ((c >=? 2) && (c <? 0x0fffffff)); [|intros [= <-]; constructor].
    set (slice := subarray buf _ _).
    assert (Hs : inside buf slice) by (apply subarray_inside; exact Hl).
    assert (Hcut : forall n, inside buf (subarray slice 0 n)).
    { intros n. apply (inside_trans buf slice); [exact Hs|].
      apply subarray_inside. apply Hs. }
    destruct remaining as [r|].
    + destruct (r <=? 0); [intros [= <-]; constructor|].
      destruct (readFATNext h buf boot c) as [next| |]; simpl; try discriminate.
      destruct (isEndOfChain next).
      * intros [= <-]. constructor; [apply Hcut | constructor].
      * rewrite chainLoop_app. intros H.
        apply bind_ret in H as (cs & Hcs & [= <-]).
        constructor; [apply Hcut | eapply IH; eassumption].
    + destruct (readFATNext h buf boot c) as [next| |]; simpl; try discriminate.
      destruct (isEndOfChain next).
      * intros [= <-]. constructor; [exact Hs | constructor].
      * rewrite chainLoop_app. intros H.
        apply bind_ret in H as (cs & Hcs & [= <-]).
        constructor; [exact Hs | eapply IH; eassumption].
Qed.

Lemma inside_all_valid (h : heap) (buf : Uint8Array)
    (chunks : list Uint8Array) :
  valid h buf -> Forall (inside buf) chunks -> Forall (valid h) chunks.
Proof.
  intros Hv H. eapply Forall_impl; [|exact H].
  intros s. now apply inside_valid.
Qed.

(** [readChain] returns a view that shows the chunks of the loop one after
    the other; it leaves every buffer of the heap as it is, and at most
    adds a fresh one. *)
Lemma readChain_of_chunks (fuel : nat) (buf : Uint8Array) (boot : Boot)
    (c : Z) (limitBytes : option Z) (h : heap)
    (chunks : list Uint8Array) :
  valid h buf ->
  chainLoop fuel h buf boot [] limitBytes c = Ret chunks ->
  exists v fresh,
    readChain fuel buf boot c limitBytes h = Ret (v, h ++ fresh) /\
    valid (h ++ fresh) v /\
    byteLength v = totalLength chunks /\
    bytes (h ++ fresh) v = contents h chunks.
Proof.
  intros Hv Hloop. pose proof Hv as (_ & _ & Hl & _).
  pose proof (inside_all_valid h buf chunks Hv
                (chainLoop_inside fuel h buf boot Hl _ _ _ Hloop)) as Hall.
  unfold readChain. rewrite Hloop. simpl.
  assert (Hfresh : exists v fresh,
    (let '(out, h1) := newUint8Array (totalLength chunks) h in
     h2 <- copyChunks out chunks 0 h1 ;; Ret (out, h2)) = Ret (v, h ++ fresh) /\
    valid (h ++ fresh) v /\ byteLength v = totalLength chunks /\
    bytes (h ++ fresh) v = contents h chunks).
  { pose proof (totalLength_nonneg h chunks Hall) as Hnn.
    pose proof (contents_len h chunks Hall) as Hclen.
    unfold newUint8Array.
    rewrite (copyChunks_fresh h (totalLength chunks) chunks 0);
      [ | assumption | lia | lia | unfold len; rewrite repeat_length; lia ].
    simpl.
    rewrite (skipn_all2 (n := Z.to_nat (totalLength chunks)))
      by (rewrite repeat_length; lia).
    rewrite app_nil_r.
    eexists _, [contents h chunks]. split; [reflexivity|].
    unfold valid, bytes; simpl.
    rewrite length_app, nth_middle. simpl. unfold len in Hclen.
    repeat split; try lia.
    rewrite firstn_all2 by lia. reflexivity. }
  destruct chunks as [|chunk [|chunk' rest]]; try exact Hfresh.
  exists chunk, []. rewrite app_nil_r.
  apply Forall_cons_iff in Hall as [Hc _].
  split; [reflexivity|]. split; [exact Hc|]. split.
  - unfold totalLength. simpl. lia.
  - unfold contents. simpl. now rewrite app_nil_r.
Qed.

Lemma readChain_ret (fuel : nat) (buf : Uint8Array) (boot : Boot)
    (c : Z) (limitBytes : option Z) (h h' : heap) (v : Uint8Array) :
  valid h buf ->
  readChain fuel buf boot c limitBytes h = Ret (v, h') ->
  exists chunks fresh,
    chainLoop fuel h buf boot [] limitBytes c = Ret chunks /\
    h' = h ++ fresh /\ valid h' v /\
    byteLength v = totalLength chunks /\
    bytes h' v = contents h chunks.
Proof.
  intros Hv Hret.
  destruct (chainLoop fuel h buf boot [] limitBytes c) as [chunks| |] eqn:Hloop;
    try (unfold readChain in Hret; rewrite Hloop in Hret; discriminate).
  destruct (readChain_of_chunks fuel buf boot c limitBytes h chunks Hv Hloop)
    as (v' & fresh & Hr & Hvalid & Hlen & Hbytes).
  rewrite Hr in Hret. injection Hret as <- <-.
  exists chunks, fresh. auto.
Qed.

(** ** Reading with a limit (C4) *)

Lemma subarray_prefix_length (a : Uint8Array) (n : Z) :
  0 <= n <= byteLength a -> byteLength (subarray a 0 n) = n.
Proof.
  intros Hn. unfold subarray, clampIndex. simpl.
  destruct (n <? 0) eqn:E; lia.
Qed.

Lemma bytes_subarray_prefix (h : heap) (a : Uint8Array) (n : Z) :
  valid h a -> 0 <= n <= byteLength a ->
  bytes h (subarray a 0 n) = firstn (Z.to_nat n) (bytes h a).
Proof.
  intros Hv Hn. rewrite (bytes_subarray h a 0 n Hv). unfold subBytes.
  rewrite (bytes_len h a Hv). unfold clampIndex. simpl.
  destruct (n <? 0) eqn:E; [lia|].
  replace (Z.min 0 (byteLength a)) with 0 by lia. simpl.
  f_equal. lia.
Qed.

Lemma chainLoop_limit_total (fuel : nat) (h : heap) (buf : Uint8Array)
    (boot : Boot) :
  0 <= byteLength buf ->
  forall (r c : Z) (chunks : list Uint8Array),
    0 <= r ->
    chainLoop fuel h buf boot [] (Some r) c = Ret chunks ->
    totalLength chunks <= r.
Proof.
  intros Hl. induction fuel as [|fuel IH]; intros r c chunks Hr; cbn [chainLoop].
  - destruct ((c >=? 2) && (c <? 0x0fffffff)); [discriminate|].
    intros [= <-]. exact Hr.
  - destruct ((c >=? 2) && (c <? 0x0fffffff)); [|intros [= <-]; exact Hr].
    set (slice := subarray buf _ _).
    assert (Hs : 0 <= byteLength slice) by (apply (subarray_inside buf); exact Hl).
    destruct (r <=? 0) eqn:Er; [intros [= <-]; exact Hr|].
    set (take := Z.min (byteLength slice) r).
    assert (Htake : byteLength (subarray slice 0 take) = take)
      by (apply subarray_prefix_length; lia).
    destruct (readFATNext h buf boot c) as [next| |]; cbn [bind]; try discriminate.
    destruct (isEndOfChain next).
    + intros [= <-]. rewrite totalLength_cons, Htake.
      unfold totalLength. simpl. lia.
    + rewrite chainLoop_app. intros H.
      apply bind_ret in H as (cs & Hcs & [= <-]).
      apply IH in Hcs; [|lia]. cbn [app]. rewrite totalLength_cons, Htake. lia.
Qed.

(** With a limit [r], the loop collects the first [r] bytes of what it
    collects without one. *)
Lemma chainLoop_limit_prefix (fuel : nat) (h : heap) (buf : Uint8Array)
    (boot : Boot) :
  valid h buf ->
  forall (r c : Z) (whole : list Uint8Array),
    0 <= r ->
    chainLoop fuel h buf boot [] None c = Ret whole ->
    exists chunks,
      chainLoop fuel h buf boot [] (Some r) c = Ret chunks /\
      contents h chunks = firstn (Z.to_nat r) (contents h whole).
Proof.
  intros Hv. pose proof Hv as (_ & _ & Hl & _).
  induction fuel as [|fuel IH]; intros r c whole Hr; cbn [chainLoop].
  - destruct ((c >=? 2) && (c <? 0x0fffffff)); [discriminate|].
    intros [= <-]. exists []. now rewrite firstn_nil.
  - destruct ((c >=? 2) && (c <? 0x0fffffff));
      [|intros [= <-]; exists []; now rewrite firstn_nil].
    set (slice := subarray buf _ _).
    assert (Hs : valid h slice)
      by (apply (inside_valid h buf); [exact Hv | apply subarray_inside; exact Hl]).
    pose proof (bytes_len h slice Hs) as Hlen. unfold len in Hlen.
    destruct (readFATNext h buf boot c) as [next| |]; cbn [bind]; try discriminate.
    destruct (r <=? 0) eqn:Er.
    { intros _. exists []. split; [reflexivity|].
      replace r with 0 by lia. reflexivity. }
    set (take := Z.min (byteLength slice) r).
    assert (Hcut : bytes h (subarray slice 0 take)
                   = firstn (Z.to_nat r) (bytes h slice)).
    { assert (Hnn : 0 <= byteLength slice) by apply Hs.
      rewrite bytes_subarray_prefix; [|exact Hs|unfold take; lia].
      destruct (Z.le_gt_cases r (byteLength slice)).
      - f_equal. lia.
      - rewrite !firstn_all2 by lia. reflexivity. }
    cbn [bind]. destruct (isEndOfChain next).
    + intros [= <-]. eexists. split; [reflexivity|].
      unfold contents. simpl. rewrite !app_nil_r. exact Hcut.
    + rewrite (chainLoop_app fuel h buf boot [slice]).
      rewrite (chainLoop_app fuel h buf boot [subarray slice 0 take]).
      intros H. apply bind_ret in H as (rest & Hrest & [= <-]).
      destruct (IH (r - take) next rest ltac:(lia) Hrest) as (cs & -> & Hcs).
      cbn [bind app]. eexists. split; [reflexivity|].
      unfold contents in *. cbn [flat_map]. rewrite Hcs, Hcut, firstn_app.
      do 2 f_equal. lia.
Qed.

(** The two facts about a limit: a bound on what is returned, and the
    result as a prefix of the chain read without a limit. *)
Lemma readChain_limit_facts (fuel : nat) (buf : Uint8Array) (boot : Boot)
    (startCluster N : Z) (h : heap) :
  valid h buf -> 0 <= N ->
  (forall v h',
      readChain fuel buf boot startCluster (Some N) h = Ret (v, h') ->
      byteLength v <= N /\ len (bytes h' v) <= N) /\
  (forall d h1,
      readChain fuel buf boot startCluster None h = Ret (d, h1) ->
      exists v h',
        readChain fuel buf boot startCluster (Some N) h = Ret (v, h') /\
        bytes h' v = firstn (Z.to_nat N) (bytes h1 d)).
Proof.
  intros Hv HN. pose proof Hv as (_ & _ & Hl & _). split.
  - intros v h' Hret.
    apply readChain_ret in Hret as (chunks & fresh & Hloop & -> & Hvv & Hlen & _);
      [|exact Hv].
    apply chainLoop_limit_total in Hloop; [|exact Hl|exact HN].
    rewrite (bytes_len _ v Hvv). lia.
  - intros d h1 Hret.
    apply readChain_ret in Hret as (whole & fresh & Hloop & -> & _ & _ & Hd);
      [|exact Hv].
    destruct (chainLoop_limit_prefix fuel h buf boot Hv N startCluster whole HN Hloop)
      as (chunks & Hlim & Hcs).
    destruct (readChain_of_chunks fuel buf boot startCluster (Some N) h chunks Hv Hlim)
      as (v & fresh' & Hr & _ & _ & Hb).
    exists v, (h ++ fresh'). split; [exact Hr|]. now rewrite Hb, Hd.
Qed.

(** C4.  Reading a chain with a limit of [N] bytes never yields more than
    [N] bytes: whatever [readChain] returns has length at most [N], and it
    does return whenever the chain can be read without a limit, with the
    first [N] bytes of that chain (the last chunk taken is cut). *)
Theorem readChain_limit (fuel : nat) (buf : Uint8Array) (boot : Boot)
    (startCluster N : Z) (h : heap) :
  valid h buf -> 0 <= N ->
  (forall v h',
      readChain fuel buf boot startCluster (Some N) h = Ret (v, h') ->
      byteLength v <= N /\ len (bytes h' v) <= N) /\
  (forall d h1,
      readChain fuel buf boot startCluster None h = Ret (d, h1) ->
      exists v h',
        readChain fuel buf boot startCluster (Some N) h = Ret (v, h') /\
        bytes h' v = firstn (Z.to_nat N) (bytes h1 d)).
Proof. apply readChain_limit_facts. Qed.

Lemma readChain_limit_witness :
  exists v h',
    readChain 4 (Image.whole Sample.image) Sample.geometry 5 (Some 266)
              (Image.load Sample.image) = Ret (v, h') /\
    len (bytes h' v) <= 266.
Proof.
  destruct (readChain_limit 4 (Image.whole Sample.image) Sample.geometry 5 266
              (Image.load Sample.image) ltac:(by_compute) ltac:(lia))
    as [Hsafe Htotal].
  edestruct Htotal as (v & h' & Hr & _); [vm_compute; reflexivity|].
  exists v, h'. split; [exact Hr | apply (Hsafe v h' Hr)].
Defined.

(** ** Paths (C7, C9) *)

Lemma split_nonempty (s : jsstring) : split s <> [].
Proof.
  destruct s as [|u s]; simpl; [discriminate|].
  destruct (u =? slash); [discriminate|].
  destruct (split s); discriminate.
Qed.

Lemma split_slash (a b : jsstring) :
  split (a ++ slash :: b) = split a ++ split b.
Proof.
  induction a as [|u a IH]; simpl.
  - reflexivity.
  - destruct (u =? slash); [now rewrite IH|].
    rewrite IH. pose proof (split_nonempty a).
    destruct (split a); [contradiction | reflexivity].
Qed.

Lemma normalizePath_slash (a b : jsstring) :
  normalizePath (a ++ slash :: b) = normalizePath a ++ normalizePath b.
Proof. unfold normalizePath. now rewrite split_slash, filter_app. Qed.

Lemma normalizePath_only_slash : normalizePath [slash] = [].
Proof. reflexivity. Qed.

(** One more slash at the start, at the end, or next to a slash does not
    change the segments. *)
Lemma normalizePath_extra_slash (a b : jsstring) :
  a = [] \/ b = [] \/ last a 0 = slash \/ hd 0 b = slash ->
  normalizePath (a ++ slash :: b) = normalizePath (a ++ b).
Proof.
  intros [-> | [-> | [Ha | Hb]]].
  - reflexivity.
  - rewrite normalizePath_slash, (app_nil_r a). simpl. apply app_nil_r.
  - destruct (exists_last (l := a)) as (a' & u & ->).
    { intros ->. discriminate. }
    rewrite last_last in Ha. subst u.
    rewrite <- !app_assoc. simpl.
    rewrite !normalizePath_slash. reflexivity.
  - destruct b as [|u b]; [discriminate|]. simpl in Hb. subst u.
    rewrite !normalizePath_slash. reflexivity.
Qed.

(** C7.  The results of [list], [exists], [readFile] and [walk] depend on
    the path only through its non-empty segments: two paths with the same
    segments give the same results, and so does a path with one more
    slash at its start, at its end, or next to another slash. *)
Theorem path_segments_only (fuel : nat) (this : ExfatReader.t) (h : heap) :
  (forall p q, normalizePath p = normalizePath q ->
               sameResults fuel this h p q) /\
  (forall a b, a = [] \/ b = [] \/ last a 0 = slash \/ hd 0 b = slash ->
               sameResults fuel this h (a ++ slash :: b) (a ++ b)).
Proof.
  assert (Hseg : forall p q, normalizePath p = normalizePath q ->
                             sameResults fuel this h p q).
  { intros p q E. unfold sameResults, ExfatReader.list, ExfatReader.exists_,
      ExfatReader.readFile, ExfatReader.walk.
    rewrite E. repeat split. }
  split; [exact Hseg|].
  intros a b H. apply Hseg, normalizePath_extra_slash, H.
Qed.

Lemma path_segments_only_witness :
  sameResults 4 (Sample.reader Sample.image) (Image.load Sample.image)
    (Image.str "//Documents///a.bin/"%string)
    (Image.str "/Documents/a.bin"%string).
Proof.
  apply (proj1 (path_segments_only 4 (Sample.reader Sample.image)
                  (Image.load Sample.image))).
  vm_compute. reflexivity.
Defined.

(** C9.  For a path without segments, [exists] answers [true] at once: for
    any reader, whatever its root cluster, without any fuel and without
    touching the heap, so without reading the root directory. *)
Theorem exists_without_segments (fuel : nat) (this : ExfatReader.t)
    (path : jsstring) (h : heap) :
  normalizePath path = [] ->
  ExfatReader.exists_ fuel this path h = Ret (true, h).
Proof.
  intros E. unfold ExfatReader.exists_. rewrite E. reflexivity.
Qed.

Lemma exists_without_segments_witness :
  ExfatReader.exists_ 0
    (ExfatReader.mk (Image.whole Sample.image) (mkBoot 32 256 128 32 160 5 1))
    (Image.str "///"%string) (Image.load Sample.image)
  = Ret (true, Image.load Sample.image).
Proof.
  apply exists_without_segments. vm_compute. reflexivity.
Defined.

(** ** Clusters that reach past the end of the image (C2) *)

(** Against C2 as the specification states it: cluster 6 of the truncated
    sample image starts at byte 1184 and would end at 1440, past the 1190
    bytes of the image, and reading it returns the six bytes that are
    there instead of failing. *)
Lemma readChain_past_end_counterexample :
  clusterOffset Sample.geometry 6 + clusterSize Sample.geometry
  > byteLength (Image.whole Sample.truncated) /\
  readChain 4 (Image.whole Sample.truncated) Sample.geometry 6 None
            (Image.load Sample.truncated)
  = Ret (mkUint8Array 0 1184 6, Image.load Sample.truncated).
Proof. split; vm_compute; reflexivity. Qed.

(** C2, amended.  Slicing a cluster never fails.  When the offset of a
    cluster plus [clusterSize] exceeds the length of the image, the slice
    [buf.subarray(off, off + size)] is clamped to the end of the image: it
    lies inside the image and shows the bytes from the offset to the end
    (none when the offset is at or past the end; for a negative offset,
    which counts from the end, the last [- off] bytes).  The loop of
    [readChain] then goes on as for any cluster.  Without a limit it
    pushes the slice and looks up the FAT.  With a limit it stops before
    the slice when nothing remains to be read, and otherwise pushes the
    first [min(slice.length, remaining)] bytes of the slice, takes their
    number from what remains (exactly, up to [2^53]) and looks up the
    FAT. *)
Theorem cluster_slice_clamped (fuel : nat) (h : heap) (buf : Uint8Array)
    (boot : Boot) (c : Z) (chunks : list Uint8Array) :
  valid h buf ->
  clusterOffset boot c + clusterSize boot > byteLength buf ->
  let off := clusterOffset boot c in
  let slice := subarray buf off (off + clusterSize boot) in
  let step chunks' remaining' :=
    next <- readFATNext h buf boot c ;;
    if isEndOfChain next then Ret chunks'
    else chainLoop fuel h buf boot chunks' remaining' next in
  inside buf slice /\ valid h slice /\
  bytes h slice
  = skipn (Z.to_nat (if off <? 0 then byteLength buf + off else off))
          (bytes h buf) /\
  (2 <= c < 0x0fffffff ->
   chainLoop (S fuel) h buf boot chunks None c = step (chunks ++ [slice]) None /\
   forall r,
     let cut := subarray slice 0 (Z.min (byteLength slice) r) in
     (r <= 0 -> chainLoop (S fuel) h buf boot chunks (Some r) c = Ret chunks) /\
     (0 < r ->
      inside buf cut /\
      bytes h cut = firstn (Z.to_nat r) (bytes h slice) /\
      exists remaining',
        chainLoop (S fuel) h buf boot chunks (Some r) c
        = step (chunks ++ [cut]) (Some remaining') /\
        (r <= 2^53 -> remaining' = r - Z.min (byteLength slice) r))).
Proof.
  intros Hv Hend off slice step. pose proof Hv as (_ & _ & Hl & _).
  pose proof (bytes_len h buf Hv) as Hlen. unfold len in Hlen.
  assert (Hin : inside buf slice) by (apply subarray_inside; exact Hl).
  assert (Hvs : valid h slice) by (apply (inside_valid h buf); assumption).
  split; [exact Hin|]. split; [exact Hvs|]. split.
  - unfold slice. rewrite (bytes_subarray h buf _ _ Hv). unfold subBytes, len.
    rewrite Hlen. unfold clampIndex. fold off.
    destruct (off + clusterSize boot <? 0) eqn:E2; [lia|].
    replace (Z.min (off + clusterSize boot) (byteLength buf))
      with (byteLength buf) by lia.
    rewrite firstn_all2 by (rewrite length_skipn; lia).
    destruct (off <? 0) eqn:E1.
    + f_equal. lia.
    + destruct (Z.le_gt_cases off (byteLength buf)).
      * f_equal. lia.
      * rewrite !skipn_all2 by lia. reflexivity.
  - intros Hc.
    assert (Hcond : (c >=? 2) && (c <? 0x0fffffff) = true)
      by (apply andb_true_iff; split; lia).
    split; [cbn [chainLoop]; rewrite Hcond; reflexivity|].
    intros r cut. split.
    + intros Hr. cbn [chainLoop]. rewrite Hcond.
      replace (r <=? 0) with true by (symmetry; apply Z.leb_le; exact Hr).
      reflexivity.
    + intros Hr. split; [|split].
      * apply (inside_trans buf slice cut Hin).
        apply subarray_inside. apply Hin.
      * pose proof Hvs as (_ & _ & Hls & _).
        pose proof (bytes_len h slice Hvs) as Hlens. unfold len in Hlens.
        unfold cut. rewrite bytes_subarray_prefix by (exact Hvs || lia).
        destruct (Z.le_gt_cases r (byteLength slice)).
        -- now rewrite Z.min_r by lia.
        -- rewrite Z.min_l by lia. rewrite !firstn_all2 by lia. reflexivity.
      * exists (r - Z.min (byteLength slice) r). split; [|reflexivity].
        cbn [chainLoop]. rewrite Hcond.
        replace (r <=? 0) with false by (symmetry; apply Z.leb_gt; exact Hr).
        reflexivity.
Qed.

Lemma cluster_slice_clamped_witness :
  bytes (Image.load Sample.truncated)
        (subarray (Image.whole Sample.truncated) 1184 1440)
  = skipn 1184 Sample.truncated /\
  chainLoop 1 (Image.load Sample.truncated) (Image.whole Sample.truncated)
            Sample.geometry [] (Some 4) 6
  = Ret [mkUint8Array 0 1184 4].
Proof.
  pose proof (cluster_slice_clamped 0 (Image.load Sample.truncated)
                (Image.whole Sample.truncated) Sample.geometry 6 []
                ltac:(by_compute) ltac:(apply Z.lt_gt; by_compute))
    as (_ & _ & Hbytes & Hloop).
  split; [exact Hbytes|].
  destruct (Hloop ltac:(by_compute)) as [_ Hlimit].
  destruct (Hlimit 4) as [_ Hpush].
  destruct (Hpush ltac:(by_compute)) as (_ & _ & remaining' & Hstep & _).
  refine (eq_trans Hstep _). vm_compute. reflexivity.
Defined.

(** ** Truncated entry sets (C6) *)

(** When [k] whole entries are left in the buffer and at least [k] more
    secondaries are wanted, the inner loop consumes exactly these [k]
    entries, whatever the declared count beyond that. *)
Lemma secondaries_in_bounds (data : list byte) :
  forall (k fuel1 fuel2 : nat) (sc1 sc2 consumed j : Z) (name : jsstring)
         (firstCluster size : Z),
    0 <= j ->
    j + 32 * Z.of_nat k <= len data < j + 32 * Z.of_nat k + 32 ->
    Z.of_nat k <= sc1 - consumed + 1 -> Z.of_nat k <= sc2 - consumed + 1 ->
    (k <= fuel1)%nat -> (k <= fuel2)%nat ->
    exists name' firstCluster' size',
      secondaries fuel1 data (Some sc1) consumed j name firstCluster size
      = Ret (j + 32 * Z.of_nat k, name', firstCluster', size') /\
      secondaries fuel2 data (Some sc2) consumed j name firstCluster size
      = Ret (j + 32 * Z.of_nat k, name', firstCluster', size').
Proof.
  induction k as [|k IH];
    intros fuel1 fuel2 sc1 sc2 consumed j name fc size Hj Hk H1 H2 Hf1 Hf2.
  - exists name, fc, size.
    assert (E : (j + 32 <=? len data) = false) by lia.
    replace (j + 32 * Z.of_nat 0) with j by lia.
    destruct fuel1, fuel2; cbn [secondaries]; rewrite E, !andb_false_r; auto.
  - destruct fuel1 as [|fuel1]; [lia|]. destruct fuel2 as [|fuel2]; [lia|].
    cbn [secondaries leq_opt].
    replace (consumed <=? sc1) with true by (symmetry; lia).
    replace (consumed <=? sc2) with true by (symmetry; lia).
    replace (j + 32 <=? len data) with true by (symmetry; lia).
    cbn [andb].
    replace (j + 32 * Z.of_nat (S k)) with (j + 32 + 32 * Z.of_nat k) by lia.
    assert (Hnext : forall name' fc' size',
      exists name'' fc'' size'',
        secondaries fuel1 data (Some sc1) (consumed + 1) (j + 32) name' fc' size'
        = Ret (j + 32 + 32 * Z.of_nat k, name'', fc'', size'') /\
        secondaries fuel2 data (Some sc2) (consumed + 1) (j + 32) name' fc' size'
        = Ret (j + 32 + 32 * Z.of_nat k, name'', fc'', size'')).
    { intros name' fc' size'. apply IH; lia. }
    destruct (elem data j) as [st|]; [|apply Hnext].
    destruct (Z.eq_dec st 0xc0) as [-> | Hc0].
    + unfold readU32, readU64.
      destruct (getUint32_inside data (j + 0x14)) as [v1 ->]; [lia | lia |].
      destruct (getUint32_inside data (j + 0x18)) as [v2 ->]; [lia | lia |].
      destruct (getUint32_inside data (j + 0x18 + 4)) as [v3 ->]; [lia | lia |].
      cbn [bind]. apply Hnext.
    + destruct (Z.eq_dec st 0xc1) as [-> | Hc1]; [apply Hnext|].
      destruct st as [|p|p]; try apply Hnext.
      do 8 (destruct p as [p|p|]; try apply Hnext); contradiction.
Qed.

Lemma dirLoop_end (fuel : nat) (data : list byte) (i : Z)
    (res : list DirEntry.t) :
  len data < i + 32 -> dirLoop fuel data i res = Ret res.
Proof.
  intros H. assert (E : (i + 32 <=? len data) = false) by lia.
  destruct fuel; cbn [dirLoop]; now rewrite E.
Qed.

(** C6.  A 0x85 entry at [i] declares [sc] secondaries, but only [m < sc]
    whole entries follow it in the buffer.  The decoder consumes these [m]
    entries, stops at the end of the buffer and still emits one record:
    the one built from the name, first cluster and size found in the [m]
    entries that are there (the inner loop run with a count of [m]). *)
Theorem truncated_entry_set (fuel : nat) (data : list byte)
    (i sc : Z) (m : nat) (res : list DirEntry.t) :
  0 <= i ->
  elem data i = Some 0x85 ->
  elem data (i + 1) = Some sc ->
  Z.of_nat m < sc ->
  i + 32 + 32 * Z.of_nat m <= len data < i + 32 + 32 * Z.of_nat m + 32 ->
  (m < fuel)%nat ->
  exists name firstCluster size,
    secondaries m data (Some (Z.of_nat m)) 1 (i + 32) [] 0 0
    = Ret (i + 32 + 32 * Z.of_nat m, name, firstCluster, size) /\
    dirLoop fuel data i res
    = Ret (res ++ [DirEntry.mk (stripTrailingNul name)
                     (negb (land_opt (elem data (i + 4)) 0x10 =? 0))
                     size firstCluster]).
Proof.
  intros Hi Hprimary Hcount Hm Hlen Hfuel.
  destruct fuel as [|fuel]; [lia|].
  destruct (secondaries_in_bounds data m fuel m sc (Z.of_nat m) 1 (i + 32)
              [] 0 0) as (name & fc & size & Hrun & Hexact); try lia.
  exists name, fc, size. split; [exact Hexact|].
  cbn [dirLoop].
  replace (i + 32 <=? len data) with true by (symmetry; lia).
  rewrite Hprimary, Hcount, Hrun. cbn [bind].
  apply dirLoop_end. lia.
Qed.

Lemma truncated_entry_set_witness :
  dirLoop 97 (Image.fileEntry 5 0x20 ++ Image.streamEntry 7 1000
              ++ Image.nameEntry (Image.str "ab"%string)) 0 []
  = Ret [DirEntry.mk (Image.str "ab"%string) false 1000 7].
Proof.
  destruct (truncated_entry_set 97
              (Image.fileEntry 5 0x20 ++ Image.streamEntry 7 1000
               ++ Image.nameEntry (Image.str "ab"%string)) 0 5 2 []
              ltac:(lia) ltac:(by_compute) ltac:(by_compute) ltac:(lia)
              ltac:(by_compute) ltac:(lia))
    as (name & fc & size & Hrun & Hdir).
  rewrite Hdir. vm_compute in Hrun. injection Hrun as <- <- <-.
  vm_compute. reflexivity.
Defined.

(** ** Directory reads *)

Lemma grows_refl (h : heap) : grows h h.
Proof. exists []. now rewrite app_nil_r. Qed.

Lemma grows_trans (h g k : heap) : grows h g -> grows g k -> grows h k.
Proof.
  intros [f1 ->] [f2 ->]. exists (f1 ++ f2). now rewrite app_assoc.
Qed.

Lemma grows_valid (h g : heap) (a : Uint8Array) :
  grows h g -> valid h a -> valid g a.
Proof. intros [fresh ->]. apply valid_app. Qed.

Lemma grows_bytes (h g : heap) (a : Uint8Array) :
  grows h g -> valid h a -> bytes g a = bytes h a.
Proof. intros [fresh ->] Hv. apply bytes_app, Hv. Qed.

Lemma getUint32_nonneg (d : list byte) (o v : Z) :
  getUint32 d o = Ret v -> 0 <= v.
Proof.
  unfold getUint32. destruct ((0 <=? o) && (o + 4 <=? len d)); [|discriminate].
  remember (byteAt d o + _ + _ + _) as x eqn:Ex.
  intros [= <-]. subst x. unfold byteAt.
  pose proof (u8_range (nth (Z.to_nat o) d x00)).
  pose proof (u8_range (nth (Z.to_nat (o + 1)) d x00)).
  pose proof (u8_range (nth (Z.to_nat (o + 2)) d x00)).
  pose proof (u8_range (nth (Z.to_nat (o + 3)) d x00)).
  lia.
Qed.

Lemma roundDouble_nonneg (x : Z) : 0 <= x -> 0 <= roundDouble x.
Proof.
  intros Hx. unfold roundDouble. destruct (Z.abs x <? 2^53); [exact Hx|].
  set (e := Z.log2 (Z.abs x) - 52).
  assert (Hp : 0 <= 2^e) by (apply Z.pow_nonneg; lia).
  assert (Hq : 0 <= Z.abs x / 2^e) by (apply Z_div_nonneg_nonneg; lia).
  assert (Hs : 0 <= Z.sgn x) by lia.
  apply Z.mul_nonneg_nonneg; [exact Hs|].
  apply Z.mul_nonneg_nonneg; [|exact Hp].
  destruct (_ <? _); [exact Hq|]. destruct (_ <? _); [lia|].
  destruct (Z.even _); lia.
Qed.

Lemma readU64_nonneg (d : list byte) (o v : Z) :
  readU64 d o = Ret v -> 0 <= v.
Proof.
  unfold readU64. intros H.
  apply bind_ret in H as (lo & Hlo & H).
  apply bind_ret in H as (hi & Hhi & [= <-]).
  apply getUint32_nonneg in Hlo, Hhi. apply roundDouble_nonneg. lia.
Qed.

Lemma secondaries_size_nonneg (data : list byte) (sc : option Z) :
  forall (fuel : nat) (consumed j : Z) (name : jsstring) (fc size : Z)
         (j' : Z) (name' : jsstring) (fc' size' : Z),
    0 <= size ->
    secondaries fuel data sc consumed j name fc size = Ret (j', name', fc', size') ->
    0 <= size'.
Proof.
  induction fuel as [|fuel IH]; intros consumed j name fc size j' name' fc' size' Hs;
    cbn [secondaries]; destruct (leq_opt consumed sc && (j + 32 <=? len data));
    try discriminate; try (intros [= _ _ _ <-]; exact Hs).
  assert (Hnext : forall name1 fc1, 
    secondaries fuel data sc (consumed + 1) (j + 32) name1 fc1 size
    = Ret (j', name', fc', size') -> 0 <= size').
  { intros name1 fc1. apply IH, Hs. }
  destruct (elem data j) as [st|]; [|apply Hnext].
  destruct (Z.eq_dec st 0xc0) as [-> | Hc0].
  - intros H. apply bind_ret in H as (fc1 & _ & H).
    apply bind_ret in H as (size1 & Hsize & H).
    apply readU64_nonneg in Hsize. eapply IH; eassumption.
  - destruct st as [|p|p]; try apply Hnext.
    do 8 (destruct p as [p|p|]; try apply Hnext); contradiction.
Qed.

Lemma dirLoop_sizes (data : list byte) :
  forall (fuel : nat) (i : Z) (res res' : list DirEntry.t),
    Forall (fun e => 0 <= DirEntry.size e) res ->
    dirLoop fuel data i res = Ret res' ->
    Forall (fun e => 0 <= DirEntry.size e) res'.
Proof.
  induction fuel as [|fuel IH]; intros i res res' Hres; cbn [dirLoop];
    destruct (i + 32 <=? len data); try discriminate;
    try (intros [= <-]; exact Hres).
  destruct (elem data i) as [et|]; [|apply IH, Hres].
  destruct (Z.eq_dec et 0x85) as [-> | H85].
  - intros H. apply bind_ret in H as ([[[j name] fc] size] & Hsec & H).
    apply secondaries_size_nonneg in Hsec; [|lia].
    eapply IH; [|exact H]. apply Forall_app. split; [exact Hres|].
    constructor; [exact Hsec | constructor].
  - destruct et as [|p|p]; try apply IH, Hres.
    do 8 (destruct p as [p|p|]; try apply IH, Hres); contradiction.
Qed.

(** The decoder always returns: its loops advance by 32 bytes per
    iteration, and the fuel [readDirectory] gives them is enough. *)
Lemma secondaries_total (data : list byte) (sc : option Z) :
  forall (fuel : nat) (consumed j : Z) (name : jsstring) (fc size : Z),
    0 <= j -> len data < j + 32 * Z.of_nat fuel + 32 ->
    exists j' name' fc' size',
      secondaries fuel data sc consumed j name fc size
      = Ret (j', name', fc', size') /\ j <= j'.
Proof.
  induction fuel as [|fuel IH]; intros consumed j name fc size Hj Hlen;
    cbn [secondaries];
    destruct (j + 32 <=? len data) eqn:E; rewrite ?andb_false_r;
    try (exists j, name, fc, size; split; [reflexivity | lia]);
    destruct (leq_opt consumed sc); cbn [andb];
    try (exists j, name, fc, size; split; [reflexivity | lia]);
    [lia|].
  assert (Hnext : forall name1 fc1 size1,
    exists j' name' fc' size',
      secondaries fuel data sc (consumed + 1) (j + 32) name1 fc1 size1
      = Ret (j', name', fc', size') /\ j <= j').
  { intros name1 fc1 size1.
    destruct (IH (consumed + 1) (j + 32) name1 fc1 size1)
      as (j' & name' & fc' & size' & Hr & Hle); [lia | lia |].
    exists j', name', fc', size'. split; [exact Hr | lia]. }
  destruct (elem data j) as [st|]; [|apply Hnext].
  destruct (Z.eq_dec st 0xc0) as [-> | Hc0].
  - unfold readU32, readU64.
    destruct (getUint32_inside data (j + 0x14)) as [v1 ->]; [lia | lia |].
    destruct (getUint32_inside data (j + 0x18)) as [v2 ->]; [lia | lia |].
    destruct (getUint32_inside data (j + 0x18 + 4)) as [v3 ->]; [lia | lia |].
    cbn [bind]. apply Hnext.
  - destruct st as [|p|p]; try apply Hnext.
    do 8 (destruct p as [p|p|]; try apply Hnext); contradiction.
Qed.

Lemma dirLoop_total (data : list byte) :
  forall (fuel : nat) (i : Z) (res : list DirEntry.t),
    0 <= i -> len data < i + 32 * Z.of_nat fuel ->
    exists res', dirLoop fuel data i res = Ret res'.
Proof.
  induction fuel as [|fuel IH]; intros i res Hi Hlen; cbn [dirLoop];
    destruct (i + 32 <=? len data) eqn:E; eauto; [lia|].
  destruct (elem data i) as [et|]; [|apply IH; lia].
  destruct (Z.eq_dec et 0x85) as [-> | H85].
  - destruct (secondaries_total data (elem data (i + 1)) fuel 1 (i + 32) [] 0 0)
      as (j' & name' & fc' & size' & -> & Hle); [lia | lia |].
    cbn [bind]. apply IH; lia.
  - destruct et as [|p|p]; try (apply IH; lia).
    do 8 (destruct p as [p|p|]; try (apply IH; lia)); contradiction.
Qed.

Lemma readDirectory_of_chain (fuel : nat) (buf : Uint8Array) (boot : Boot)
    (c : Z) (h g : heap) (data : Uint8Array) :
  readChain fuel buf boot c None h = Ret (data, g) ->
  exists entries, readDirectory fuel buf boot c h = Ret (entries, g).
Proof.
  intros H. unfold readDirectory. rewrite H. cbn [bind].
  destruct (dirLoop_total (bytes g data) (S (length (bytes g data))) 0 [])
    as (res & ->); [lia | unfold len; lia |].
  cbn [bind]. eauto.
Qed.

(** A directory read leaves the buffers of the heap as they are, and the
    sizes it decodes are not negative. *)
Lemma readDirectory_ret (fuel : nat) (buf : Uint8Array) (boot : Boot) (c : Z)
    (h g : heap) (entries : list DirEntry.t) :
  valid h buf ->
  readDirectory fuel buf boot c h = Ret (entries, g) ->
  grows h g /\ Forall (fun e => 0 <= DirEntry.size e) entries.
Proof.
  intros Hv H. unfold readDirectory in H.
  apply bind_ret in H as ([data h1] & Hchain & H).
  apply bind_ret in H as (res & Hdir & [= <- <-]).
  apply readChain_ret in Hchain as (chunks & fresh & _ & -> & _); [|exact Hv].
  split; [now exists fresh|].
  eapply dirLoop_sizes; [|exact Hdir]. constructor.
Qed.

Lemma chainLoop_no_fuel (h : heap) (buf : Uint8Array) (boot : Boot)
    (remaining : option Z) (c : Z) (chunks : list Uint8Array) :
  chainLoop 0 h buf boot [] remaining c = Ret chunks -> chunks = [].
Proof.
  cbn [chainLoop]. destruct ((c >=? 2) && (c <? 0x0fffffff)); [discriminate|].
  now intros [= <-].
Qed.

Lemma readDirectory_no_fuel (buf : Uint8Array) (boot : Boot) (c : Z)
    (h g : heap) (entries : list DirEntry.t) :
  valid h buf ->
  readDirectory 0 buf boot c h = Ret (entries, g) -> entries = [].
Proof.
  intros Hv H. unfold readDirectory in H.
  apply bind_ret in H as ([data h1] & Hchain & H).
  apply bind_ret in H as (res & Hdir & [= <- <-]).
  apply readChain_ret in Hchain as (chunks & fresh & Hloop & -> & _ & _ & Hb);
    [|exact Hv].
  apply chainLoop_no_fuel in Hloop. subst chunks. rewrite Hb in Hdir.
  cbn in Hdir. now injection Hdir as <-.
Qed.

(** ** Reading a file (C3, C10) *)

Lemma resolvesToFile_facts (fuel : nat) (this : ExfatReader.t) (e : DirEntry.t)
    (h1 : heap) :
  forall (parts : list jsstring) (cluster : Z) (h : heap),
    valid h (ExfatReader.buf this) ->
    resolvesToFile fuel this parts cluster h e h1 ->
    grows h h1 /\ 0 <= DirEntry.size e /\ fuel <> O.
Proof.
  induction parts as [|part rest IH]; intros cluster h Hv; cbn [resolvesToFile];
    [contradiction|].
  intros (entries & g & Hread & Hrest).
  destruct (readDirectory_ret _ _ _ _ _ _ _ Hv Hread) as [Hg Hsizes].
  destruct rest as [|part' rest].
  - destruct Hrest as [Hfind ->]. split; [exact Hg|].
    pose proof (find_some _ _ Hfind) as [Hin _]. split.
    + rewrite Forall_forall in Hsizes. now apply Hsizes.
    + intros ->. apply readDirectory_no_fuel in Hread; [|exact Hv].
      subst entries. discriminate.
  - destruct Hrest as (d & _ & Hrest).
    apply IH in Hrest as (Hg' & Hsize & Hfuel);
      [|apply (grows_valid h g); assumption].
    split; [apply (grows_trans h g h1); assumption | auto].
Qed.

(** On a path that resolves to the file entry [e], [readFile] reads the
    chain of [e] with the size of [e] as the limit. *)
Lemma readFileLoop_resolved (fuel : nat) (this : ExfatReader.t) (e : DirEntry.t)
    (h1 : heap) :
  forall (parts : list jsstring) (cluster : Z) (h : heap),
    resolvesToFile fuel this parts cluster h e h1 ->
    ExfatReader.readFileLoop fuel this parts cluster h
    = ('(data, h2) <- readChain fuel (ExfatReader.buf this)
                        (ExfatReader.boot this) (DirEntry.firstCluster e)
                        (Some (DirEntry.size e)) h1 ;;
       Ret (Some data, h2)).
Proof.
  induction parts as [|part rest IH]; intros cluster h; cbn [resolvesToFile];
    [contradiction|].
  intros (entries & g & Hread & Hrest).
  cbn [ExfatReader.readFileLoop]. rewrite Hread. cbn [bind].
  destruct rest as [|part' rest].
  - destruct Hrest as [Hfind ->]. cbn [ExfatReader.isLast negb].
    rewrite Hfind. reflexivity.
  - destruct Hrest as (d & Hfind & Hrest). cbn [ExfatReader.isLast negb].
    rewrite Hfind. apply IH, Hrest.
Qed.

(** Against C3 as the specification states it: in the truncated sample
    image the entry of [/Documents/a.bin] declares 266 bytes, of which only
    262 lie inside the image, and [readFile] returns these 262. *)
Lemma readFile_size_counterexample :
  resolvesToFile 4 (Sample.reader Sample.truncated)
    (normalizePath (Image.str "/Documents/a.bin"%string)) 2
    (Image.load Sample.truncated)
    (DirEntry.mk (Image.str "a.bin"%string) false 266 5)
    (Image.load Sample.truncated) /\
  exists v h2,
    ExfatReader.readFile 4 (Sample.reader Sample.truncated)
      (Image.str "/Documents/a.bin"%string) (Image.load Sample.truncated)
    = Ret (Some v, h2) /\
    len (bytes h2 v) = 262.
Proof.
  split.
  - replace (normalizePath (Image.str "/Documents/a.bin"%string))
      with [Image.str "Documents"%string; Image.str "a.bin"%string]
      by (vm_compute; reflexivity).
    cbn [resolvesToFile].
    eexists _, _. split; [vm_compute; reflexivity|].
    eexists. split; [vm_compute; reflexivity|].
    eexists _, _. split; [vm_compute; reflexivity|].
    split; vm_compute; reflexivity.
  - eexists _, _. split; vm_compute; reflexivity.
Qed.

(** C3, amended.  On a path that resolves to a file entry, whatever
    [readFile] returns is a byte array of length at most the size declared
    in the entry; and whenever the chain of the entry can be read, the
    result holds the first [size] bytes of that chain: its length is the
    declared size when the chain has that many bytes inside the image, and
    the length of the chain otherwise. *)
Theorem readFile_length (fuel : nat) (this : ExfatReader.t) (path : jsstring)
    (h : heap) (e : DirEntry.t) (h1 : heap) :
  valid h (ExfatReader.buf this) ->
  resolvesToFile fuel this (normalizePath path)
                 (rootDirCluster (ExfatReader.boot this)) h e h1 ->
  (forall o h2,
      ExfatReader.readFile fuel this path h = Ret (o, h2) ->
      exists v, o = Some v /\ byteLength v <= DirEntry.size e /\
                len (bytes h2 v) <= DirEntry.size e) /\
  (forall d h3,
      readChain fuel (ExfatReader.buf this) (ExfatReader.boot this)
                (DirEntry.firstCluster e) None h1 = Ret (d, h3) ->
      exists v h2,
        ExfatReader.readFile fuel this path h = Ret (Some v, h2) /\
        bytes h2 v = firstn (Z.to_nat (DirEntry.size e)) (bytes h3 d) /\
        len (bytes h2 v) = Z.min (DirEntry.size e) (len (bytes h3 d))).
Proof.
  intros Hv Hres.
  destruct (resolvesToFile_facts _ _ _ _ _ _ _ Hv Hres) as (Hg & Hsize & _).
  pose proof (grows_valid _ _ _ Hg Hv) as Hv1.
  destruct (readChain_limit_facts fuel (ExfatReader.buf this)
              (ExfatReader.boot this)
              (DirEntry.firstCluster e) (DirEntry.size e) h1 Hv1 Hsize)
    as [Hsafe Htotal].
  unfold ExfatReader.readFile. rewrite (readFileLoop_resolved _ _ _ _ _ _ _ Hres).
  split.
  - intros o h2 H. apply bind_ret in H as ([v g] & Hchain & [= <- <-]).
    exists v. split; [reflexivity|]. apply (Hsafe v g Hchain).
  - intros d h3 Hd. destruct (Htotal d h3 Hd) as (v & h2 & -> & Hb).
    exists v, h2. split; [reflexivity|]. split; [exact Hb|].
    rewrite Hb. unfold len. rewrite length_firstn. lia.
Qed.

Lemma sample_resolves (name : String.string) (size firstCluster : Z) :
  find (fun e => streq (DirEntry.name e) (Image.str name)
                 && negb (DirEntry.isDir e))
       [DirEntry.mk (Image.str "a.bin"%string) false 266 5;
        DirEntry.mk (Image.str "empty"%string) false 0 0]
  = Some (DirEntry.mk (Image.str name) false size firstCluster) ->
  resolvesToFile 4 (Sample.reader Sample.image)
    [Image.str "Documents"%string; Image.str name] 2
    (Image.load Sample.image)
    (DirEntry.mk (Image.str name) false size firstCluster)
    (Image.load Sample.image).
Proof.
  intros Hfind. cbn [resolvesToFile].
  eexists _, _. split; [vm_compute; reflexivity|].
  eexists. split; [vm_compute; reflexivity|].
  eexists _, _. split; [vm_compute; reflexivity|].
  split; [exact Hfind | reflexivity].
Qed.

Lemma readFile_length_witness :
  exists v h2,
    ExfatReader.readFile 4 (Sample.reader Sample.image)
      (Image.str "/Documents/a.bin"%string) (Image.load Sample.image)
    = Ret (Some v, h2) /\
    len (bytes h2 v) = 266.
Proof.
  destruct (readFile_length 4 (Sample.reader Sample.image)
              (Image.str "/Documents/a.bin"%string) (Image.load Sample.image)
              (DirEntry.mk (Image.str "a.bin"%string) false 266 5)
              (Image.load Sample.image)
              ltac:(by_compute)
              (sample_resolves "a.bin"%string 266 5 eq_refl))
    as [_ Htotal].
  edestruct Htotal as (v & h2 & Hr & _ & Hlen); [vm_compute; reflexivity|].
  exists v, h2. split; [exact Hr|]. rewrite Hlen. vm_compute. reflexivity.
Defined.

(** C10.  On a path that resolves to a file entry of declared size 0,
    [readFile] returns an empty array, whatever the first cluster of the
    entry is: with a limit of 0 the loop of [readChain] pushes nothing. *)
Theorem readFile_size_zero (fuel : nat) (this : ExfatReader.t) (path : jsstring)
    (h : heap) (e : DirEntry.t) (h1 : heap) :
  valid h (ExfatReader.buf this) ->
  resolvesToFile fuel this (normalizePath path)
                 (rootDirCluster (ExfatReader.boot this)) h e h1 ->
  DirEntry.size e = 0 ->
  exists v h2,
    ExfatReader.readFile fuel this path h = Ret (Some v, h2) /\
    byteLength v = 0 /\ bytes h2 v = [].
Proof.
  intros Hv Hres Hzero.
  destruct (resolvesToFile_facts _ _ _ _ _ _ _ Hv Hres) as (Hg & _ & Hfuel).
  pose proof (grows_valid _ _ _ Hg Hv) as Hv1.
  assert (Hloop : chainLoop fuel h1 (ExfatReader.buf this) (ExfatReader.boot this)
                    [] (Some (DirEntry.size e)) (DirEntry.firstCluster e)
                  = Ret []).
  { rewrite Hzero. destruct fuel as [|fuel]; [contradiction|].
    cbn [chainLoop]. now destruct (_ && _). }
  destruct (readChain_of_chunks _ _ _ _ _ _ _ Hv1 Hloop)
    as (v & fresh & Hr & _ & Hlen & Hb).
  unfold ExfatReader.readFile. rewrite (readFileLoop_resolved _ _ _ _ _ _ _ Hres).
  rewrite Hr. exists v, (h1 ++ fresh). auto.
Qed.

Lemma readFile_size_zero_witness :
  exists v h2,
    ExfatReader.readFile 4 (Sample.reader Sample.image)
      (Image.str "/Documents/empty"%string) (Image.load Sample.image)
    = Ret (Some v, h2) /\
    byteLength v = 0 /\ bytes h2 v = [].
Proof.
  apply (readFile_size_zero 4 (Sample.reader Sample.image)
           (Image.str "/Documents/empty"%string) (Image.load Sample.image)
           (DirEntry.mk (Image.str "empty"%string) false 0 0)
           (Image.load Sample.image)
           ltac:(by_compute)
           (sample_resolves "empty"%string 0 0 eq_refl) eq_refl).
Defined.

(** ** The order of [walk] (C5) *)

Lemma forOf_app {A S : Type} (body : A -> S -> outcome S)
    (xs ys : list A) (s : S) :
  ExfatReader.forOf body (xs ++ ys) s
  = (s' <- ExfatReader.forOf body xs s ;; ExfatReader.forOf body ys s').
Proof.
  revert s. induction xs as [|x xs IH]; intros s; simpl; [reflexivity|].
  destruct (body x s); simpl; auto.
Qed.

Lemma forOf_visitEntry_appends
    (recurse : jsstring -> Z -> list ExfatWalkItem.t * heap ->
               outcome (list ExfatWalkItem.t * heap))
    (currentPath : jsstring) :
  (forall p c, appends (recurse p c)) ->
  forall entries,
    appends (ExfatReader.forOf (ExfatReader.visitEntry recurse currentPath)
                               entries).
Proof.
  intros Hrec. induction entries as [|e entries IH]; intros result h.
  - simpl. now rewrite app_nil_r.
  - cbn [ExfatReader.forOf ExfatReader.visitEntry].
    destruct (DirEntry.isDir e).
    + rewrite (Hrec _ _ (result ++ _)), (Hrec _ _ ([] ++ _)).
      destruct (recurse _ _ ([], h)) as [[pushed g]| |]; cbn [bind];
        try reflexivity.
      rewrite (IH ((result ++ _) ++ pushed)), (IH (([] ++ _) ++ pushed)).
      destruct (ExfatReader.forOf _ entries ([], g)) as [[pushed' g']| |];
        cbn [bind]; try reflexivity.
      now rewrite <- !app_assoc.
    + cbn [bind]. rewrite (IH (result ++ _)), (IH ([] ++ _)).
      destruct (ExfatReader.forOf _ entries ([], h)) as [[pushed' g']| |];
        cbn [bind]; try reflexivity.
      now rewrite <- !app_assoc.
Qed.

Lemma visit_appends (fuel : nat) (this : ExfatReader.t) :
  forall (depth : nat) (currentPath : jsstring) (c : Z),
    appends (ExfatReader.visit depth fuel this currentPath c).
Proof.
  induction depth as [|depth IH]; intros currentPath c result h;
    cbn [ExfatReader.visit]; [reflexivity|].
  destruct (readDirectory fuel _ _ c h) as [[entries h1]| |]; cbn [bind];
    try reflexivity.
  apply forOf_visitEntry_appends. exact IH.
Qed.

(** C5.  [walk] returns what [visit] pushes for the directory the path
    names, and [visit] works in pre-order.  For every entry [e] of the
    directory it reads, the run is: the entries before [e] push their
    items (each with its own subtree); then the item of [e] itself is
    pushed and at once, in the heap these runs have left, the directory
    of [e] is visited and pushes all the descendants of [e] (nothing for
    a file); then the entries after [e] push theirs.  So the item of a
    directory comes strictly before, and next to, the items of its
    descendants. *)
Theorem walk_preorder (fuel : nat) (this : ExfatReader.t) :
  (forall path h items h',
      ExfatReader.walk fuel this path h = Ret (items, h') ->
      exists found h1,
        ExfatReader.findDirectory fuel this (normalizePath path)
          (rootDirCluster (ExfatReader.boot this)) h = Ret (found, h1) /\
        match found with
        | None => items = [] /\ h' = h1
        | Some cluster =>
            ExfatReader.visit fuel fuel this
              (match normalizePath path with
               | [] => [slash]
               | parts => slash :: join parts
               end) cluster ([], h1) = Ret (items, h')
        end) /\
  (forall depth currentPath c result h h1 before e after,
      readDirectory fuel (ExfatReader.buf this) (ExfatReader.boot this) c h
      = Ret (before ++ e :: after, h1) ->
      let each :=
        ExfatReader.visitEntry (ExfatReader.visit depth fuel this)
                               currentPath in
      let p := ExfatReader.childPath currentPath (DirEntry.name e) in
      ExfatReader.visit (S depth) fuel this currentPath c (result, h)
      = ('(earlier, g1) <- ExfatReader.forOf each before ([], h1) ;;
         '(subtree, g2) <-
           (if DirEntry.isDir e
            then ExfatReader.visit depth fuel this p (DirEntry.firstCluster e)
                                   ([], g1)
            else Ret ([], g1)) ;;
         '(later, g3) <- ExfatReader.forOf each after ([], g2) ;;
         Ret (result ++ earlier
              ++ [ExfatWalkItem.mk p (DirEntry.isDir e) (DirEntry.size e)
                    (if DirEntry.isDir e then None
                     else Some (DirEntry.firstCluster e, DirEntry.size e))]
              ++ subtree ++ later, g3))).
Proof.
  split.
  - intros path h items h'. unfold ExfatReader.walk. intros H.
    apply bind_ret in H as ([found h1] & Hfind & H).
    exists found, h1. split; [exact Hfind|].
    destruct found as [cluster|]; [|now injection H as <- <-].
    destruct (normalizePath path); exact H.
  - intros depth currentPath c result h h1 before e after Hread each p.
    pose proof (forOf_visitEntry_appends _ currentPath
                  (visit_appends fuel this depth)) as Heach.
    fold each in Heach.
    cbn [ExfatReader.visit]. rewrite Hread. cbn [bind]. fold each.
    rewrite forOf_app, (Heach before result h1).
    destruct (ExfatReader.forOf each before ([], h1)) as [[earlier g1]| |];
      cbn [bind]; try reflexivity.
    cbn [ExfatReader.forOf]. unfold each at 1.
    cbn [ExfatReader.visitEntry]. fold p.
    destruct (DirEntry.isDir e).
    + rewrite (visit_appends fuel this depth p _ (_ ++ _) g1).
      destruct (ExfatReader.visit depth fuel this p _ ([], g1))
        as [[subtree g2]| |]; cbn [bind]; try reflexivity.
      rewrite (Heach after _ g2).
      destruct (ExfatReader.forOf each after ([], g2)) as [[later g3]| |];
        cbn [bind]; try reflexivity.
      now rewrite <- !app_assoc.
    + cbn [bind]. rewrite (Heach after _ g1).
      destruct (ExfatReader.forOf each after ([], g1)) as [[later g3]| |];
        cbn [bind]; try reflexivity.
      now rewrite <- !app_assoc.
Qed.

Lemma walk_preorder_witness :
  ExfatReader.visit 4 4 (Sample.reader Sample.image) [slash] 2
    ([], Image.load Sample.image)
  = Ret ([ExfatWalkItem.mk (Image.str "/hello.txt"%string) false 4
            (Some (3, 4));
          ExfatWalkItem.mk (Image.str "/Documents"%string) true 0 None;
          ExfatWalkItem.mk (Image.str "/Documents/a.bin"%string) false 266
            (Some (5, 266));
          ExfatWalkItem.mk (Image.str "/Documents/empty"%string) false 0
            (Some (0, 0))],
         Image.load Sample.image).
Proof.
  refine (eq_trans
            (proj2 (walk_preorder 4 (Sample.reader Sample.image))
               3%nat [slash] 2 [] (Image.load Sample.image)
               (Image.load Sample.image)
               [DirEntry.mk (Image.str "hello.txt"%string) false 4 3]
               (DirEntry.mk (Image.str "Documents"%string) true 0 4) [] _) _);
    vm_compute; reflexivity.
Defined.

(** ** Reads leave the heap as it is (C8) *)

Lemma readChain_grows (fuel : nat) (buf : Uint8Array) (boot : Boot) (c : Z)
    (limitBytes : option Z) (h g : heap) (v : Uint8Array) :
  valid h buf ->
  readChain fuel buf boot c limitBytes h = Ret (v, g) ->
  grows h g /\ valid g v.
Proof.
  intros Hv H.
  apply readChain_ret in H as (chunks & fresh & _ & -> & Hvv & _); [|exact Hv].
  split; [now exists fresh | exact Hvv].
Qed.

Lemma findDirectory_grows (fuel : nat) (this : ExfatReader.t) :
  forall (parts : list jsstring) (cluster : Z) (h g : heap)
         (found : option Z),
    valid h (ExfatReader.buf this) ->
    ExfatReader.findDirectory fuel this parts cluster h = Ret (found, g) ->
    grows h g.
Proof.
  induction parts as [|part rest IH]; intros cluster h g found Hv;
    cbn [ExfatReader.findDirectory].
  - intros [= _ <-]. apply grows_refl.
  - intros H. apply bind_ret in H as ([entries h1] & Hread & H).
    apply readDirectory_ret in Hread as [Hg _]; [|exact Hv].
    destruct (find _ entries) as [next|].
    + apply IH in H; [|apply (grows_valid h h1); assumption].
      apply (grows_trans h h1 g); assumption.
    + injection H as _ <-. exact Hg.
Qed.

Lemma existsLoop_grows (fuel : nat) (this : ExfatReader.t) :
  forall (parts : list jsstring) (cluster : Z) (h g : heap) (r : bool),
    valid h (ExfatReader.buf this) ->
    ExfatReader.existsLoop fuel this parts cluster h = Ret (r, g) ->
    grows h g.
Proof.
  induction parts as [|part rest IH]; intros cluster h g r Hv;
    cbn [ExfatReader.existsLoop].
  - intros [= _ <-]. apply grows_refl.
  - intros H. apply bind_ret in H as ([entries h1] & Hread & H).
    apply readDirectory_ret in Hread as [Hg _]; [|exact Hv].
    destruct (find _ entries) as [next|].
    + apply IH in H; [|apply (grows_valid h h1); assumption].
      apply (grows_trans h h1 g); assumption.
    + injection H as _ <-. exact Hg.
Qed.

Lemma readFileLoop_grows (fuel : nat) (this : ExfatReader.t) :
  forall (parts : list jsstring) (cluster : Z) (h g : heap)
         (r : option Uint8Array),
    valid h (ExfatReader.buf this) ->
    ExfatReader.readFileLoop fuel this parts cluster h = Ret (r, g) ->
    grows h g.
Proof.
  induction parts as [|part rest IH]; intros cluster h g r Hv;
    cbn [ExfatReader.readFileLoop].
  - intros [= _ <-]. apply grows_refl.
  - intros H. apply bind_ret in H as ([entries h1] & Hread & H).
    apply readDirectory_ret in Hread as [Hg _]; [|exact Hv].
    pose proof (grows_valid h h1 _ Hg Hv) as Hv1.
    destruct (find _ entries) as [found|].
    + destruct (ExfatReader.isLast rest).
      * apply bind_ret in H as ([data h2] & Hchain & [= _ <-]).
        apply readChain_grows in Hchain as [Hg2 _]; [|exact Hv1].
        apply (grows_trans h h1 h2); assumption.
      * apply IH in H; [|exact Hv1]. apply (grows_trans h h1 g); assumption.
    + injection H as _ <-. exact Hg.
Qed.

Lemma visit_grows (fuel : nat) (this : ExfatReader.t) :
  forall (depth : nat) (currentPath : jsstring) (c : Z)
         (result result' : list ExfatWalkItem.t) (h g : heap),
    valid h (ExfatReader.buf this) ->
    ExfatReader.visit depth fuel this currentPath c (result, h)
    = Ret (result', g) ->
    grows h g.
Proof.
  induction depth as [|depth IH]; intros currentPath c result result' h g Hv;
    cbn [ExfatReader.visit]; [discriminate|].
  intros H. apply bind_ret in H as ([entries h1] & Hread & H).
  apply readDirectory_ret in Hread as [Hg _]; [|exact Hv].
  apply (grows_trans h h1 g); [exact Hg|].
  pose proof (grows_valid h h1 _ Hg Hv) as Hv1.
  clear Hg Hv. revert result h1 Hv1 H.
  induction entries as [|e entries IHe]; intros result h1 Hv1;
    cbn [ExfatReader.forOf].
  - intros [= _ <-]. apply grows_refl.
  - intros H. apply bind_ret in H as ([r1 g1] & He & H).
    assert (Hg1 : grows h1 g1).
    { cbn [ExfatReader.visitEntry] in He. destruct (DirEntry.isDir e).
      - eapply IH; eassumption.
      - injection He as _ <-. apply grows_refl. }
    apply IHe in H; [|apply (grows_valid h1 g1); assumption].
    apply (grows_trans h1 g1 g); assumption.
Qed.

Lemma agree_refl (image : Uint8Array) (h : heap) :
  valid h image -> agree image h h.
Proof. unfold agree. auto. Qed.

Lemma agree_grows (image : Uint8Array) (h h' g g' : heap) :
  agree image h h' -> grows h g -> grows h' g' -> agree image g g'.
Proof.
  intros (Hv & Hv' & E) Hg Hg'. unfold agree.
  rewrite (grows_bytes h g image Hg Hv), (grows_bytes h' g' image Hg' Hv').
  eauto using grows_valid.
Qed.

Lemma chainLoop_agree (h h' : heap) (buf : Uint8Array) (boot : Boot) :
  bytes h buf = bytes h' buf ->
  forall (fuel : nat) (chunks : list Uint8Array)
         (remaining : option Z) (c : Z),
    chainLoop fuel h buf boot chunks remaining c
    = chainLoop fuel h' buf boot chunks remaining c.
Proof.
  intros E. induction fuel as [|fuel IH]; intros chunks remaining c;
    cbn [chainLoop]; [reflexivity|].
  unfold readFATNext. rewrite E.
  destruct (_ && _); [|reflexivity].
  destruct remaining as [r|]; [destruct (r <=? 0); [reflexivity|]|];
    (destruct (if _ >? _ then _ else _) as [next| |]; cbn [bind];
     [destruct (isEndOfChain next); [reflexivity | apply IH]
     | reflexivity | reflexivity]).
Qed.

Lemma contents_agree (buf : Uint8Array) (h h' : heap)
    (chunks : list Uint8Array) :
  agree buf h h' -> Forall (inside buf) chunks ->
  contents h chunks = contents h' chunks.
Proof.
  intros (Hv & Hv' & E). induction 1 as [|s chunks Hs _ IH]; [reflexivity|].
  unfold contents in *. cbn [flat_map].
  rewrite IH, (bytes_inside h buf s Hv Hs), (bytes_inside h' buf s Hv' Hs), E.
  reflexivity.
Qed.

Lemma related_bind {A B : Type} (R : A -> heap -> A -> heap -> Prop)
    (S : B -> heap -> B -> heap -> Prop) (m m' : outcome (A * heap))
    (k k' : A * heap -> outcome (B * heap)) :
  related R m m' ->
  (forall a g a' g', R a g a' g' -> related S (k (a, g)) (k' (a', g'))) ->
  related S (bind m k) (bind m' k').
Proof.
  intros Hm Hk.
  destruct m as [[a g]| |], m' as [[a' g']| |]; cbn in *;
    try contradiction; try discriminate; auto.
Qed.

(** In two heaps that agree on the image, [readChain] returns arrays that
    show the same bytes. *)
Lemma readChain_related (fuel : nat) (buf : Uint8Array) (boot : Boot) (c : Z)
    (limitBytes : option Z) (h h' : heap) :
  agree buf h h' ->
  related (fun v g v' g' => bytes g v = bytes g' v' /\ agree buf g g')
          (readChain fuel buf boot c limitBytes h)
          (readChain fuel buf boot c limitBytes h').
Proof.
  intros Hag. pose proof Hag as (Hv & Hv' & E).
  pose proof (chainLoop_agree h h' buf boot E fuel [] limitBytes c) as Hloop.
  destruct (chainLoop fuel h buf boot [] limitBytes c) as [chunks| |] eqn:Hl.
  - symmetry in Hloop.
    destruct (readChain_of_chunks _ _ _ _ _ _ _ Hv Hl)
      as (v & fresh & -> & _ & _ & Hb).
    destruct (readChain_of_chunks _ _ _ _ _ _ _ Hv' Hloop)
      as (v' & fresh' & -> & _ & _ & Hb').
    cbn. rewrite Hb, Hb'. split.
    + apply (contents_agree buf); [exact Hag|].
      apply (chainLoop_inside fuel h buf boot) in Hl; [exact Hl | apply Hv].
    + apply (agree_grows buf h h'); [exact Hag | eexists; reflexivity ..].
  - unfold readChain. rewrite Hl, <- Hloop. reflexivity.
  - unfold readChain. rewrite Hl, <- Hloop. exact I.
Qed.

Lemma readDirectory_related (fuel : nat) (buf : Uint8Array) (boot : Boot)
    (c : Z) (h h' : heap) :
  agree buf h h' ->
  related (fun es g es' g' => es = es' /\ agree buf g g')
          (readDirectory fuel buf boot c h)
          (readDirectory fuel buf boot c h').
Proof.
  intros Hag. unfold readDirectory.
  apply (related_bind _ _ _ _ _ _ (readChain_related fuel buf boot c None h h' Hag)).
  intros data g data' g' [E Hg]. rewrite E.
  destruct (dirLoop _ (bytes g' data') 0 []) as [res| |]; cbn; auto.
Qed.

Lemma readFileLoop_related (fuel : nat) (this : ExfatReader.t) :
  forall (parts : list jsstring) (cluster : Z) (h h' : heap),
    agree (ExfatReader.buf this) h h' ->
    related (fun o g o' g' =>
               option_map (bytes g) o = option_map (bytes g') o' /\
               agree (ExfatReader.buf this) g g')
            (ExfatReader.readFileLoop fuel this parts cluster h)
            (ExfatReader.readFileLoop fuel this parts cluster h').
Proof.
  induction parts as [|part rest IH]; intros cluster h h' Hag;
    cbn [ExfatReader.readFileLoop].
  - cbn. auto.
  - apply (related_bind _ _ _ _ _ _
             (readDirectory_related fuel _ _ cluster h h' Hag)).
    intros entries g entries' g' [<- Hg].
    destruct (find _ entries) as [found|]; [|cbn; auto].
    destruct (ExfatReader.isLast rest); [|apply IH, Hg].
    apply (related_bind _ _ _ _ _ _
             (readChain_related fuel _ _ (DirEntry.firstCluster found)
                (Some (DirEntry.size found)) g g' Hg)).
    intros data k data' k' [E Hk]. cbn. now rewrite E.
Qed.

Lemma grows_unchanged (h g : heap) : grows h g -> unchanged h g.
Proof.
  intros Hg a Ha. split; [apply (grows_valid h g a Hg Ha)|].
  apply (grows_bytes h g a Hg Ha).
Qed.

Lemma readFileLoop_valid (fuel : nat) (this : ExfatReader.t) :
  forall (parts : list jsstring) (cluster : Z) (h g : heap)
         (v : Uint8Array),
    valid h (ExfatReader.buf this) ->
    ExfatReader.readFileLoop fuel this parts cluster h = Ret (Some v, g) ->
    valid g v.
Proof.
  induction parts as [|part rest IH]; intros cluster h g v Hv;
    cbn [ExfatReader.readFileLoop]; [discriminate|].
  intros H. apply bind_ret in H as ([entries h1] & Hread & H).
  apply readDirectory_ret in Hread as [Hg _]; [|exact Hv].
  pose proof (grows_valid h h1 _ Hg Hv) as Hv1.
  destruct (find _ entries) as [found|]; [|discriminate].
  destruct (ExfatReader.isLast rest).
  - apply bind_ret in H as ([data h2] & Hchain & [= <- <-]).
    apply readChain_grows in Hchain as [_ Hd]; [exact Hd | exact Hv1].
  - eapply IH; eassumption.
Qed.

(** C8.  No operation of a reader changes a byte of the image, nor of any
    other array of the heap: a run that returns leaves every array as it
    was (it only adds fresh buffers).  [readFile] is a function of the
    bytes of the image: in two heaps that agree on the image it ends the
    same way and returns the same bytes, and so a second call of
    [readFile] after a first one returns the same bytes again, while the
    first result still shows its bytes. *)
Theorem reads_leave_image (fuel : nat) (this : ExfatReader.t) (h : heap) :
  valid h (ExfatReader.buf this) ->
  (forall path r g,
      ExfatReader.list fuel this path h = Ret (r, g) -> unchanged h g) /\
  (forall path r g,
      ExfatReader.exists_ fuel this path h = Ret (r, g) -> unchanged h g) /\
  (forall path r g,
      ExfatReader.readFile fuel this path h = Ret (r, g) -> unchanged h g) /\
  (forall path r g,
      ExfatReader.walk fuel this path h = Ret (r, g) -> unchanged h g) /\
  (forall item r g,
      ExfatReader.callRead fuel this item h = Ret (r, g) -> unchanged h g) /\
  (forall path h',
      agree (ExfatReader.buf this) h h' ->
      related (fun o g o' g' =>
                 option_map (bytes g) o = option_map (bytes g') o' /\
                 agree (ExfatReader.buf this) g g')
              (ExfatReader.readFile fuel this path h)
              (ExfatReader.readFile fuel this path h')) /\
  (forall path o1 h1,
      ExfatReader.readFile fuel this path h = Ret (o1, h1) ->
      exists o2 h2,
        ExfatReader.readFile fuel this path h1 = Ret (o2, h2) /\
        option_map (bytes h2) o2 = option_map (bytes h1) o1 /\
        option_map (bytes h2) o1 = option_map (bytes h1) o1).
Proof.
  intros Hv. repeat apply conj.
  - intros path r g H. apply grows_unchanged.
    unfold ExfatReader.list in H.
    apply bind_ret in H as ([found h1] & Hfind & H).
    apply findDirectory_grows in Hfind; [|exact Hv].
    destruct found as [cluster|]; [|now injection H as _ <-].
    apply bind_ret in H as ([out h2] & Hread & [= _ <-]).
    apply readDirectory_ret in Hread as [Hg _];
      [|apply (grows_valid h h1); assumption].
    apply (grows_trans h h1 h2); assumption.
  - intros path r g H. apply grows_unchanged.
    apply (existsLoop_grows fuel this _ _ h g r Hv H).
  - intros path r g H. apply grows_unchanged.
    apply (readFileLoop_grows fuel this _ _ h g r Hv H).
  - intros path r g H. apply grows_unchanged.
    unfold ExfatReader.walk in H.
    apply bind_ret in H as ([found h1] & Hfind & H).
    apply findDirectory_grows in Hfind; [|exact Hv].
    destruct found as [cluster|]; [|now injection H as _ <-].
    apply visit_grows in H; [|apply (grows_valid h h1); assumption].
    apply (grows_trans h h1 g); assumption.
  - intros item r g H. apply grows_unchanged.
    unfold ExfatReader.callRead in H.
    destruct (ExfatWalkItem.read item) as [[firstCluster size]|];
      [|discriminate].
    apply (readChain_grows _ _ _ _ _ _ _ _ Hv H).
  - intros path h' Hag. apply readFileLoop_related, Hag.
  - intros path o1 h1 H.
    pose proof (readFileLoop_grows fuel this _ _ h h1 o1 Hv H) as Hg.
    assert (Hag : agree (ExfatReader.buf this) h h1)
      by (apply (agree_grows _ h h); auto using agree_refl, grows_refl).
    pose proof (readFileLoop_related fuel this (normalizePath path)
                  (rootDirCluster (ExfatReader.boot this)) h h1 Hag) as Hrel.
    fold (ExfatReader.readFile fuel this path h) in Hrel.
    fold (ExfatReader.readFile fuel this path h1) in Hrel.
    rewrite H in Hrel.
    destruct (ExfatReader.readFile fuel this path h1) as [[o2 h2]| |] eqn:H2;
      cbn in Hrel; try contradiction.
    destruct Hrel as [E _]. exists o2, h2. split; [reflexivity|].
    split; [now symmetry|].
    destruct o1 as [v1|]; [|reflexivity]. cbn. f_equal.
    apply (readFileLoop_valid fuel this _ _ h h1 v1 Hv) in H.
    apply (readFileLoop_grows fuel this _ _ h1 h2 o2) in H2;
      [|apply (grows_valid h h1); assumption].
    apply (grows_bytes h1 h2 v1 H2 H).
Qed.

Lemma reads_leave_image_witness :
  exists o1 h1,
    ExfatReader.readFile 4 (Sample.reader Sample.image)
      (Image.str "/Documents/a.bin"%string) (Image.load Sample.image)
    = Ret (o1, h1) /\
    exists o2 h2,
      ExfatReader.readFile 4 (Sample.reader Sample.image)
        (Image.str "/Documents/a.bin"%string) h1 = Ret (o2, h2) /\
      option_map (bytes h2) o2 = option_map (bytes h1) o1 /\
      option_map (bytes h2) o1 = option_map (bytes h1) o1.
Proof.
  eexists _, _. split; [vm_compute; reflexivity|].
  apply (reads_leave_image 4 (Sample.reader Sample.image)
           (Image.load Sample.image) ltac:(by_compute)).
  vm_compute. reflexivity.
Defined.

(** * Further properties *)

(** ** The geometry of the boot sector *)

Lemma toInt32_small (v : Z) : - 2^31 <= v < 2^31 -> toInt32 v = v.
Proof.
  intros H. unfold toInt32. rewrite Z.mod_small; lia.
Qed.

Lemma shl_one (n : Z) :
  0 <= n -> shl 1 (Some n) = int32Pow2 (n mod 32).
Proof.
  intros Hn. unfold shl, int32Pow2.
  change 31 with (Z.ones 5) at 1. rewrite Z.land_ones by lia.
  change (2^5) with 32.
  pose proof (Z.mod_pos_bound n 32 ltac:(lia)) as Hk.
  set (k := n mod 32) in *.
  rewrite (toInt32_small 1) by lia. rewrite Z.shiftl_1_l.
  destruct (k =? 31) eqn:E.
  - replace k with 31 by lia. reflexivity.
  - apply toInt32_small. split; [pose proof (Z.pow_nonneg 2 k); lia|].
    apply Z.pow_lt_mono_r; lia.
Qed.

Lemma elem_range (d : list byte) (o n : Z) :
  elem d o = Some n -> 0 <= n < 256.
Proof.
  unfold elem. destruct (_ && _); [|discriminate].
  destruct (nth_error d (Z.to_nat o)) as [b|]; [|discriminate].
  intros [= <-]. apply u8_range.
Qed.

Lemma elem_none (d : list byte) (o : Z) :
  len d <= o -> elem d o = None.
Proof.
  intros H. unfold elem.
  replace (o <? len d) with false by (symmetry; lia).
  now rewrite andb_false_r.
Qed.

Lemma shl_one_elem (d : list byte) (o : Z) :
  shl 1 (elem d o) = int32Pow2 (shiftCount d o).
Proof.
  unfold shiftCount. destruct (elem d o) as [n|] eqn:E; [|reflexivity].
  apply shl_one. apply elem_range in E. lia.
Qed.

Lemma parseBoot_fields (h : heap) (image : Uint8Array) (b : Boot) :
  parseBoot h image = Ret b ->
  exists fatOffset fatLength clusterHeapOffset,
    0 <= fatOffset /\ 0 <= fatLength /\ 0 <= clusterHeapOffset /\
    0 <= clusterCount b /\ 0 <= rootDirCluster b /\
    sectorSize b = int32Pow2 (shiftCount (bytes h image) 0x6c) /\
    clusterSize b = sectorSize b * int32Pow2 (shiftCount (bytes h image) 0x6d) /\
    fatOffsetBytes b = fatOffset * sectorSize b /\
    fatLengthBytes b = fatLength * sectorSize b /\
    clusterHeapOffsetBytes b = clusterHeapOffset * sectorSize b.
Proof.
  unfold parseBoot, readU32. cbv zeta. intros H.
  apply bind_ret in H as (v1 & H1 & H). apply bind_ret in H as (v2 & H2 & H).
  apply bind_ret in H as (v3 & H3 & H). apply bind_ret in H as (v4 & H4 & H).
  apply bind_ret in H as (v5 & H5 & [= <-]).
  apply getUint32_nonneg in H1, H2, H3, H4, H5.
  exists v1, v2, v3. cbn. rewrite !shl_one_elem. repeat split; auto.
Qed.

(** X1.  The sector size is [1 << s] with the shift byte [s] at 0x6c
    taken modulo 32 as a 32-bit integer (a count of 31 gives [- 2^31]),
    the cluster size that times [1 << s'] for the byte at 0x6d; a shift
    byte beyond the end of the image counts as 0, so an image of at most
    0x6c bytes has sectors and clusters of one byte. *)
Theorem parseBoot_sizes (h : heap) (image : Uint8Array) (b : Boot) :
  valid h image ->
  parseBoot h image = Ret b ->
  sectorSize b = int32Pow2 (shiftCount (bytes h image) 0x6c) /\
  clusterSize b = sectorSize b * int32Pow2 (shiftCount (bytes h image) 0x6d) /\
  (byteLength image <= 0x6c -> sectorSize b = 1 /\ clusterSize b = 1) /\
  (0 < sectorSize b \/ sectorSize b = - 2^31) /\
  clusterSize b <> 0.
Proof.
  intros Hv H. pose proof (bytes_len h image Hv) as Hlen.
  destruct (parseBoot_fields h image b H)
    as (_ & _ & _ & _ & _ & _ & _ & _ & Hs & Hc & _).
  split; [exact Hs|]. split; [exact Hc|].
  assert (Hrange : forall o, 0 <= shiftCount (bytes h image) o < 32).
  { intros o. unfold shiftCount. destruct (elem _ o); [|lia].
    apply Z.mod_pos_bound. lia. }
  assert (Hpow : forall k, 0 <= k < 32 ->
            (0 < int32Pow2 k \/ int32Pow2 k = - 2^31) /\ int32Pow2 k <> 0).
  { intros k Hk. unfold int32Pow2. destruct (k =? 31); [lia|].
    pose proof (Z.pow_pos_nonneg 2 k). lia. }
  split; [|split].
  - intros Hshort. rewrite Hc, Hs. unfold shiftCount.
    rewrite !elem_none by lia. split; reflexivity.
  - rewrite Hs. apply Hpow, Hrange.
  - rewrite Hc, Hs.
    pose proof (Hpow _ (Hrange 0x6c)). pose proof (Hpow _ (Hrange 0x6d)). nia.
Qed.

Lemma parseBoot_sizes_witness :
  exists b,
    parseBoot (Image.load (repeat x00 108)) (Image.whole (repeat x00 108)) = Ret b /\
    sectorSize b = 1 /\ clusterSize b = 1.
Proof.
  eexists. split; [vm_compute; reflexivity|].
  apply (parseBoot_sizes (Image.load (repeat x00 108))
           (Image.whole (repeat x00 108)) _ ltac:(by_compute) eq_refl).
  by_compute.
Defined.

(** ** Which runs throw *)

Lemma getUint32_range (d : list byte) (o v : Z) :
  getUint32 d o = Ret v -> 0 <= v < 2^32.
Proof.
  unfold getUint32. destruct ((0 <=? o) && (o + 4 <=? len d)); [|discriminate].
  remember (byteAt d o + _ + _ + _) as x eqn:Ex.
  intros [= <-]. subst x. unfold byteAt.
  pose proof (u8_range (nth (Z.to_nat o) d x00)).
  pose proof (u8_range (nth (Z.to_nat (o + 1)) d x00)).
  pose proof (u8_range (nth (Z.to_nat (o + 2)) d x00)).
  pose proof (u8_range (nth (Z.to_nat (o + 3)) d x00)).
  lia.
Qed.

Lemma readFATNext_ret (h : heap) (buf : Uint8Array) (boot : Boot) (c : Z) :
  valid h buf -> 0 <= fatOffsetBytes boot -> 0 <= c ->
  exists v, readFATNext h buf boot c = Ret v /\ 0 <= v < 2^32.
Proof.
  intros Hv Hfat Hc. unfold readFATNext.
  destruct (_ >? _) eqn:E; [exists 0xffffffff; split; [reflexivity | lia]|].
  destruct (getUint32_inside (bytes h buf) (fatOffsetBytes boot + c * 4))
    as [v Hr]; [lia | rewrite (bytes_len h buf Hv); lia |].
  exists v. split; [exact Hr | apply (getUint32_range _ _ _ Hr)].
Qed.

(** X2.  With a positive sector size the FAT lies at a non-negative
    offset, and the FAT lookup never fails: for every cluster it returns
    a 32-bit value, which is [0xffffffff] when the entry does not lie
    inside the image. *)
Theorem fat_lookup_never_throws (image : BytesLike) (h0 h : heap)
    (this : ExfatReader.t) (c : Z) :
  ExfatReader.new image h0 = Ret this ->
  0 < sectorSize (ExfatReader.boot this) ->
  valid h (ExfatReader.buf this) ->
  0 <= c ->
  0 <= fatOffsetBytes (ExfatReader.boot this) /\
  exists next,
    readFATNext h (ExfatReader.buf this) (ExfatReader.boot this) c = Ret next /\
    0 <= next < 2^32 /\
    (byteLength (ExfatReader.buf this)
     < fatOffsetBytes (ExfatReader.boot this) + c * 4 + 4 ->
     next = 0xffffffff).
Proof.
  intros Hnew Hpos Hv Hc.
  assert (Hfat : 0 <= fatOffsetBytes (ExfatReader.boot this)).
  { unfold ExfatReader.new in Hnew. cbv zeta in Hnew.
    apply bind_ret in Hnew as (b & Hb & [= <-]). cbn in *.
    destruct (parseBoot_fields _ _ _ Hb)
      as (fatOffset & _ & _ & Hf & _ & _ & _ & _ & _ & _ & Hfo & _).
    rewrite Hfo. nia. }
  split; [exact Hfat|].
  destruct (readFATNext_ret h _ _ c Hv Hfat Hc) as (next & Hnext & Hrange).
  exists next. split; [exact Hnext|]. split; [exact Hrange|].
  intros Hout. unfold readFATNext in Hnext.
  replace (_ >? _) with true in Hnext by (symmetry; apply Z.gtb_lt; lia).
  now injection Hnext as <-.
Qed.

Lemma fat_lookup_never_throws_witness :
  exists next,
    readFATNext (Image.load Sample.truncated) (Image.whole Sample.truncated)
                Sample.geometry 5 = Ret next /\
    0 <= next < 2^32.
Proof.
  destruct (fat_lookup_never_throws
              (IsUint8Array (Image.whole Sample.truncated))
              (Image.load Sample.truncated) (Image.load Sample.truncated)
              (Sample.reader Sample.truncated) 5
              ltac:(by_compute) ltac:(by_compute) ltac:(by_compute)
              ltac:(by_compute))
    as (_ & next & Hnext & Hrange & _).
  exists next. split; [exact Hnext | exact Hrange].
Defined.

Lemma chainLoop_negative_fat (fuel : nat) (h : heap) (buf : Uint8Array)
    (boot : Boot) (chunks : list Uint8Array) (c : Z) :
  2 <= c < 0x0fffffff ->
  fatOffsetBytes boot + 4 * c < 0 ->
  fatOffsetBytes boot + 4 * c + 4 <= byteLength buf ->
  chainLoop (S fuel) h buf boot chunks None c = Throw RangeError.
Proof.
  intros Hc Hneg Hin. cbn [chainLoop].
  replace ((c >=? 2) && (c <? 0x0fffffff)) with true
    by (symmetry; apply andb_true_iff; split; lia).
  unfold readFATNext.
  replace (fatOffsetBytes boot + c * 4 + 4 >? byteLength buf) with false
    by (symmetry; lia).
  unfold getUint32.
  replace (0 <=? fatOffsetBytes boot + c * 4) with false by (symmetry; lia).
  reflexivity.
Qed.

Lemma readDirectory_negative_fat (fuel : nat) (h : heap) (buf : Uint8Array)
    (boot : Boot) (c : Z) :
  2 <= c < 0x0fffffff ->
  fatOffsetBytes boot + 4 * c < 0 ->
  fatOffsetBytes boot + 4 * c + 4 <= byteLength buf ->
  readDirectory (S fuel) buf boot c h = Throw RangeError.
Proof.
  intros Hc Hneg Hin. unfold readDirectory, readChain.
  now rewrite chainLoop_negative_fat.
Qed.

(** X3.  The lookups are not total: when the FAT entry of the root
    cluster lies at a negative offset (a negative sector size), reading
    the root directory throws the [RangeError] of [getUint32], and with
    it [list] and [walk] on every path, and [exists] and [readFile] on
    every path that has a segment. *)
Theorem negative_fat_offset_throws (fuel : nat) (this : ExfatReader.t)
    (path : jsstring) (h : heap) :
  2 <= rootDirCluster (ExfatReader.boot this) < 0x0fffffff ->
  fatOffsetBytes (ExfatReader.boot this)
  + 4 * rootDirCluster (ExfatReader.boot this) < 0 ->
  fatOffsetBytes (ExfatReader.boot this)
  + 4 * rootDirCluster (ExfatReader.boot this) + 4
  <= byteLength (ExfatReader.buf this) ->
  fuel <> O ->
  ExfatReader.list fuel this path h = Throw RangeError /\
  ExfatReader.walk fuel this path h = Throw RangeError /\
  (normalizePath path <> [] ->
   ExfatReader.exists_ fuel this path h = Throw RangeError /\
   ExfatReader.readFile fuel this path h = Throw RangeError).
Proof.
  intros Hroot Hneg Hin Hfuel. destruct fuel as [|fuel]; [contradiction|].
  pose proof (readDirectory_negative_fat fuel h _ _ _ Hroot Hneg Hin) as Hthrow.
  unfold ExfatReader.list, ExfatReader.walk, ExfatReader.exists_,
    ExfatReader.readFile.
  destruct (normalizePath path) as [|part rest].
  - cbn [ExfatReader.findDirectory bind ExfatReader.visit].
    rewrite Hthrow. split; [reflexivity|]. split; [reflexivity|].
    intros Hne. now destruct Hne.
  - cbn [ExfatReader.findDirectory ExfatReader.existsLoop
           ExfatReader.readFileLoop].
    rewrite Hthrow. repeat split.
Qed.

Lemma negative_fat_offset_throws_witness :
  exists this,
    ExfatReader.new (IsArrayBuffer 0) (Image.load Damaged.negative) = Ret this /\
    ExfatReader.list 1 this (Image.str "/"%string) (Image.load Damaged.negative)
    = Throw RangeError.
Proof.
  eexists. split; [vm_compute; reflexivity|].
  apply negative_fat_offset_throws;
    [by_compute | by_compute | by_compute | discriminate].
Defined.

(** ** A root directory outside the cluster range *)

Lemma readChain_out_of_range (fuel : nat) (buf : Uint8Array) (boot : Boot)
    (c : Z) (limitBytes : option Z) (h : heap) :
  ~ (2 <= c < 0x0fffffff) ->
  readChain fuel buf boot c limitBytes h
  = Ret (mkUint8Array (length h) 0 0, h ++ [[]]).
Proof.
  intros Hc. unfold readChain.
  assert (E : (c >=? 2) && (c <? 0x0fffffff) = false)
    by (apply andb_false_iff; lia).
  destruct fuel; cbn [chainLoop]; rewrite E; reflexivity.
Qed.

Lemma readDirectory_out_of_range (fuel : nat) (buf : Uint8Array) (boot : Boot)
    (c : Z) (h : heap) :
  ~ (2 <= c < 0x0fffffff) ->
  readDirectory fuel buf boot c h = Ret ([], h ++ [[]]).
Proof.
  intros Hc. unfold readDirectory. rewrite readChain_out_of_range by exact Hc.
  cbn [bind]. unfold bytes. cbn [buffer byteOffset byteLength].
  rewrite nth_middle. reflexivity.
Qed.

(** X4.  When the root directory cluster is outside [[2, 0x0fffffff)]
    nothing is read from the image and nothing is found: [list] and
    [walk] return no items, and on a path with a segment [exists]
    returns [false] and [readFile] [null]. *)
Theorem root_out_of_range (fuel : nat) (this : ExfatReader.t)
    (path : jsstring) (h : heap) :
  ~ (2 <= rootDirCluster (ExfatReader.boot this) < 0x0fffffff) ->
  ExfatReader.list fuel this path h = Ret ([], h ++ [[]]) /\
  (fuel <> O \/ normalizePath path <> [] ->
   ExfatReader.walk fuel this path h = Ret ([], h ++ [[]])) /\
  (normalizePath path <> [] ->
   ExfatReader.exists_ fuel this path h = Ret (false, h ++ [[]]) /\
   ExfatReader.readFile fuel this path h = Ret (None, h ++ [[]])).
Proof.
  intros Hroot.
  pose proof (fun fuel => readDirectory_out_of_range fuel
                (ExfatReader.buf this) (ExfatReader.boot this) _ h Hroot) as Hempty.
  unfold ExfatReader.list, ExfatReader.walk, ExfatReader.exists_,
    ExfatReader.readFile.
  destruct (normalizePath path) as [|part rest].
  - cbn [ExfatReader.findDirectory bind]. rewrite Hempty. cbn [bind map].
    split; [reflexivity|]. split; [|intros Hne; now destruct Hne].
    intros [Hfuel | Hne]; [|now destruct Hne].
    destruct fuel as [|fuel]; [contradiction|].
    cbn [ExfatReader.visit]. rewrite Hempty. reflexivity.
  - cbn [ExfatReader.findDirectory ExfatReader.existsLoop
           ExfatReader.readFileLoop].
    rewrite Hempty. cbn. repeat split.
Qed.

Lemma root_out_of_range_witness :
  exists this,
    ExfatReader.new (IsArrayBuffer 0) (Image.load Damaged.rootless) = Ret this /\
    ExfatReader.list 4 this (Image.str "/Documents"%string)
      (Image.load Damaged.rootless)
    = Ret ([], Image.load Damaged.rootless ++ [[]]).
Proof.
  eexists. split; [vm_compute; reflexivity|].
  apply root_out_of_range. cbn. lia.
Defined.

(** ** The shape of a chain read *)

Lemma readChain_copied (fuel : nat) (buf : Uint8Array) (boot : Boot) (c : Z)
    (limitBytes : option Z) (h : heap) (chunks : list Uint8Array) :
  valid h buf ->
  chainLoop fuel h buf boot [] limitBytes c = Ret chunks ->
  length chunks <> 1%nat ->
  readChain fuel buf boot c limitBytes h
  = Ret (mkUint8Array (length h) 0 (totalLength chunks),
         h ++ [contents h chunks]).
Proof.
  intros Hv Hloop Hmany. pose proof Hv as (_ & _ & Hl & _).
  pose proof (inside_all_valid h buf chunks Hv
                (chainLoop_inside fuel h buf boot Hl _ _ _ Hloop)) as Hall.
  pose proof (totalLength_nonneg h chunks Hall) as Hnn.
  pose proof (contents_len h chunks Hall) as Hclen.
  assert (Hcopy :
    (let '(out, h1) := newUint8Array (totalLength chunks) h in
     h2 <- copyChunks out chunks 0 h1 ;; Ret (out, h2))
    = Ret (mkUint8Array (length h) 0 (totalLength chunks),
           h ++ [contents h chunks])).
  { unfold newUint8Array.
    rewrite (copyChunks_fresh h (totalLength chunks) chunks 0);
      [ | assumption | lia | lia | unfold len; rewrite repeat_length; lia ].
    cbn [bind firstn Z.to_nat app].
    rewrite (skipn_all2 (n := Z.to_nat (0 + totalLength chunks)))
      by (rewrite repeat_length; lia).
    now rewrite app_nil_r. }
  unfold readChain. rewrite Hloop. cbn [bind].
  destruct chunks as [|chunk [|chunk' rest]]; try exact Hcopy.
  now contradiction Hmany.
Qed.

(** X5.  What [readChain] returns is either the single chunk of the
    chain, a view into the image itself, with the heap untouched, or,
    for any other number of chunks, the whole of one fresh buffer that
    holds the chunks one after the other. *)
Theorem readChain_view_or_copy (fuel : nat) (buf : Uint8Array) (boot : Boot)
    (c : Z) (limitBytes : option Z) (h g : heap) (v : Uint8Array) :
  valid h buf ->
  readChain fuel buf boot c limitBytes h = Ret (v, g) ->
  exists chunks,
    chainLoop fuel h buf boot [] limitBytes c = Ret chunks /\
    ((chunks = [v] /\ g = h /\ inside buf v) \/
     (length chunks <> 1%nat /\
      v = mkUint8Array (length h) 0 (totalLength chunks) /\
      g = h ++ [contents h chunks])).
Proof.
  intros Hv Hret.
  destruct (chainLoop fuel h buf boot [] limitBytes c) as [chunks| |] eqn:Hloop;
    try (unfold readChain in Hret; rewrite Hloop in Hret; discriminate).
  exists chunks. split; [reflexivity|].
  destruct (Nat.eq_dec (length chunks) 1) as [Hone | Hmany].
  - left. destruct chunks as [|chunk [|chunk' rest]]; try discriminate.
    unfold readChain in Hret. rewrite Hloop in Hret. injection Hret as <- <-.
    split; [reflexivity|]. split; [reflexivity|].
    apply chainLoop_inside in Hloop; [|apply Hv].
    now apply Forall_cons_iff in Hloop as [Hin _].
  - right. rewrite (readChain_copied _ _ _ _ _ _ _ Hv Hloop Hmany) in Hret.
    injection Hret as <- <-. auto.
Qed.

Lemma readChain_view_or_copy_witness :
  exists v g,
    readChain 4 (Image.whole Sample.image) Sample.geometry 5 None
              (Image.load Sample.image) = Ret (v, g) /\
    exists chunks,
      chainLoop 4 (Image.load Sample.image) (Image.whole Sample.image)
                Sample.geometry [] None 5 = Ret chunks /\
      ((chunks = [v] /\ g = Image.load Sample.image /\
        inside (Image.whole Sample.image) v) \/
       (length chunks <> 1%nat /\
        v = mkUint8Array (length (Image.load Sample.image)) 0
                         (totalLength chunks) /\
        g = Image.load Sample.image
            ++ [contents (Image.load Sample.image) chunks])).
Proof.
  eexists _, _. split; [vm_compute; reflexivity|].
  apply (readChain_view_or_copy 4 (Image.whole Sample.image) Sample.geometry 5
           None (Image.load Sample.image)); [by_compute|].
  vm_compute. reflexivity.
Defined.

(** X6.  The chain ends at a cluster whose FAT entry lies beyond the end
    of the image, or holds a value outside [[2, 0x0fffffff)] (an
    end-of-chain mark, 0, 1, or any other such value): reading from that
    cluster returns its slice alone, as a view into the image. *)
Theorem chain_ends (fuel : nat) (buf : Uint8Array) (boot : Boot) (c : Z)
    (h : heap) :
  2 <= c < 0x0fffffff ->
  byteLength buf < fatOffsetBytes boot + c * 4 + 4 \/
  (exists v, readFATNext h buf boot c = Ret v /\ ~ (2 <= v < 0x0fffffff)) ->
  readChain (S fuel) buf boot c None h
  = Ret (subarray buf (clusterOffset boot c)
                  (clusterOffset boot c + clusterSize boot), h).
Proof.
  intros Hc Hend.
  assert (Hnext : exists v, readFATNext h buf boot c = Ret v /\
                            ~ (2 <= v < 0x0fffffff)).
  { destruct Hend as [Hbeyond | Hv]; [|exact Hv].
    exists 0xffffffff. split; [|lia]. unfold readFATNext.
    now replace (_ >? _) with true by (symmetry; lia). }
  destruct Hnext as (v & Hv & Hout).
  unfold readChain. cbn [chainLoop].
  replace ((c >=? 2) && (c <? 0x0fffffff)) with true
    by (symmetry; apply andb_true_iff; split; lia).
  rewrite Hv. cbn [bind app].
  destruct (isEndOfChain v); [reflexivity|].
  assert (E : (v >=? 2) && (v <? 0x0fffffff) = false)
    by (apply andb_false_iff; lia).
  destruct fuel; cbn [chainLoop]; rewrite E; reflexivity.
Qed.

Lemma chain_ends_witness :
  readChain 1 (Image.whole Sample.image) Sample.geometry 3 None
            (Image.load Sample.image)
  = Ret (mkUint8Array 0 416 256, Image.load Sample.image).
Proof.
  apply (chain_ends 0 (Image.whole Sample.image) Sample.geometry 3
           (Image.load Sample.image) ltac:(by_compute)).
  right. exists 0xffffffff. split; [vm_compute; reflexivity | lia].
Defined.

(** X7.  A chain is its first cluster followed by the chain of the
    cluster its FAT entry names: when that entry holds a cluster of
    [[2, 0x0fffffff)] whose chain can be read, reading from [c] returns
    the slice of [c] followed by the bytes of that chain. *)
Theorem chain_continues (fuel : nat) (buf : Uint8Array) (boot : Boot)
    (c next : Z) (h g : heap) (d : Uint8Array) :
  valid h buf ->
  2 <= c < 0x0fffffff ->
  readFATNext h buf boot c = Ret next ->
  2 <= next < 0x0fffffff ->
  readChain fuel buf boot next None h = Ret (d, g) ->
  exists v g',
    readChain (S fuel) buf boot c None h = Ret (v, g') /\
    bytes g' v
    = bytes h (subarray buf (clusterOffset boot c)
                        (clusterOffset boot c + clusterSize boot))
      ++ bytes g d.
Proof.
  intros Hv Hc Hnext Hin Hrest.
  apply readChain_ret in Hrest as (cs & fresh & Hloop & -> & _ & _ & Hd);
    [|exact Hv].
  set (slice := subarray buf _ _).
  assert (Hall : chainLoop (S fuel) h buf boot [] None c = Ret (slice :: cs)).
  { cbn [chainLoop].
    replace ((c >=? 2) && (c <? 0x0fffffff)) with true
      by (symmetry; apply andb_true_iff; split; lia).
    rewrite Hnext. cbn [bind app].
    replace (isEndOfChain next) with false
      by (symmetry; unfold isEndOfChain; rewrite !orb_false_iff; lia).
    rewrite chainLoop_app, Hloop. reflexivity. }
  destruct (readChain_of_chunks _ _ _ _ _ _ _ Hv Hall)
    as (v & fresh' & Hr & _ & _ & Hb).
  exists v, (h ++ fresh'). split; [exact Hr|]. now rewrite Hb, Hd.
Qed.

Lemma chain_continues_witness :
  exists v g',
    readChain 2 (Image.whole Sample.image) Sample.geometry 5 None
              (Image.load Sample.image) = Ret (v, g') /\
    bytes g' v
    = bytes (Image.load Sample.image) (mkUint8Array 0 928 256)
      ++ bytes (Image.load Sample.image) (mkUint8Array 0 1184 256).
Proof.
  apply (chain_continues 1 (Image.whole Sample.image) Sample.geometry 5 6
           (Image.load Sample.image) (Image.load Sample.image)
           (mkUint8Array 0 1184 256));
    try by_compute.
Defined.

(** ** A chain that loops *)

Lemma chainLoop_self_loop (h : heap) (buf : Uint8Array) (boot : Boot) (c : Z) :
  2 <= c < 0x0fffffff ->
  readFATNext h buf boot c = Ret c ->
  forall (fuel : nat) (chunks : list Uint8Array),
    chainLoop fuel h buf boot chunks None c = OutOfFuel.
Proof.
  intros Hc Hself. induction fuel as [|fuel IH]; intros chunks;
    cbn [chainLoop];
    replace ((c >=? 2) && (c <? 0x0fffffff)) with true
      by (symmetry; apply andb_true_iff; split; lia);
    [reflexivity|].
  rewrite Hself. cbn [bind].
  replace (isEndOfChain c) with false
    by (symmetry; unfold isEndOfChain; rewrite !orb_false_iff; lia).
  apply IH.
Qed.

Lemma chainLoop_self_loop_limit (h : heap) (buf : Uint8Array) (boot : Boot)
    (c : Z) :
  2 <= c < 0x0fffffff ->
  readFATNext h buf boot c = Ret c ->
  1 <= byteLength (subarray buf (clusterOffset boot c)
                            (clusterOffset boot c + clusterSize boot)) ->
  forall (fuel : nat) (r : Z) (acc chunks : list Uint8Array),
    0 <= r ->
    chainLoop fuel h buf boot acc (Some r) c = Ret chunks ->
    totalLength chunks = totalLength acc + r.
Proof.
  intros Hc Hself Hslice. induction fuel as [|fuel IH]; intros r acc chunks Hr;
    cbn [chainLoop];
    replace ((c >=? 2) && (c <? 0x0fffffff)) with true
      by (symmetry; apply andb_true_iff; split; lia);
    [discriminate|].
  set (slice := subarray buf _ _) in *.
  destruct (r <=? 0) eqn:Er.
  { intros [= <-]. lia. }
  set (take := Z.min (byteLength slice) r).
  assert (Htake : byteLength (subarray slice 0 take) = take)
    by (apply subarray_prefix_length; lia).
  rewrite Hself. cbn [bind].
  replace (isEndOfChain c) with false
    by (symmetry; unfold isEndOfChain; rewrite !orb_false_iff; lia).
  intros H. apply IH in H; [|lia].
  rewrite H, totalLength_app. unfold totalLength at 2. cbn [fold_left].
  rewrite Htake. lia.
Qed.

(** X8.  There is no loop detection: on a cluster whose FAT entry names
    the cluster itself, [readChain] without a limit never returns,
    whatever the fuel.  A limit ends such a chain.  A limit that the
    slice of the cluster covers is met by the first chunk: the read
    returns the first [N] bytes of the slice, as a view into the image.
    For any limit [N] up to [2^53], where the subtraction of the limit is
    exact, a read that returns has gone round until exactly [N] bytes
    were collected. *)
Theorem self_loop (buf : Uint8Array) (boot : Boot) (c : Z) (h : heap) :
  valid h buf ->
  2 <= c < 0x0fffffff ->
  readFATNext h buf boot c = Ret c ->
  let slice := subarray buf (clusterOffset boot c)
                        (clusterOffset boot c + clusterSize boot) in
  (forall fuel, readChain fuel buf boot c None h = OutOfFuel) /\
  (forall (fuel : nat) (N : Z),
      0 < N <= byteLength slice ->
      readChain (S (S fuel)) buf boot c (Some N) h
      = Ret (subarray slice 0 N, h)) /\
  (forall (fuel : nat) (N : Z) (v : Uint8Array) (g : heap),
      1 <= byteLength slice ->
      0 <= N <= 2^53 ->
      readChain fuel buf boot c (Some N) h = Ret (v, g) ->
      byteLength v = N /\ len (bytes g v) = N).
Proof.
  intros Hv Hc Hself slice.
  assert (Hcond : (c >=? 2) && (c <? 0x0fffffff) = true)
    by (apply andb_true_iff; split; lia).
  assert (Hnot : isEndOfChain c = false)
    by (unfold isEndOfChain; rewrite !orb_false_iff; lia).
  split; [|split].
  - intros fuel. unfold readChain.
    now rewrite (chainLoop_self_loop h buf boot c Hc Hself).
  - intros fuel N HN. unfold readChain.
    cbn [chainLoop]. rewrite Hcond. fold slice.
    replace (N <=? 0) with false by (symmetry; apply Z.leb_gt; lia).
    rewrite Hself. cbn [bind]. rewrite Hnot, Hcond.
    rewrite Z.min_r by lia. replace (N - N) with 0 by lia.
    cbn [Z.leb Z.compare bind app]. reflexivity.
  - intros fuel N v g Hslice HN Hread.
    apply readChain_ret in Hread as (chunks & fresh & Hloop & -> & Hvv & Hlen & _);
      [|exact Hv].
    apply (chainLoop_self_loop_limit h buf boot c Hc Hself Hslice) in Hloop;
      [|lia].
    rewrite (bytes_len _ v Hvv). unfold totalLength at 2 in Hloop.
    cbn [fold_left] in Hloop. lia.
Qed.

Lemma self_loop_witness :
  readChain 1000 (Image.whole Damaged.cyclic) Sample.geometry 5 None
            (Image.load Damaged.cyclic) = OutOfFuel /\
  readChain 2 (Image.whole Damaged.cyclic) Sample.geometry 5 (Some 100)
            (Image.load Damaged.cyclic)
  = Ret (mkUint8Array 0 928 100, Image.load Damaged.cyclic) /\
  exists v g,
    readChain 1000 (Image.whole Damaged.cyclic) Sample.geometry 5 (Some 700)
              (Image.load Damaged.cyclic) = Ret (v, g) /\
    byteLength v = 700 /\ len (bytes g v) = 700.
Proof.
  destruct (self_loop (Image.whole Damaged.cyclic) Sample.geometry 5
              (Image.load Damaged.cyclic)
              ltac:(by_compute) ltac:(by_compute) ltac:(by_compute))
    as (Hloop & Hone & Hmany).
  split; [apply Hloop|]. split.
  - refine (eq_trans (Hone 0%nat 100 ltac:(by_compute)) _).
    vm_compute. reflexivity.
  - eexists _, _. split; [vm_compute; reflexivity|].
    eapply (Hmany 1000%nat 700); [by_compute | by_compute |].
    vm_compute. reflexivity.
Defined.

(** ** What the decoder yields *)

Lemma roundDouble_upper (x : Z) : 0 <= x < 2^64 -> roundDouble x <= 2^64.
Proof.
  intros Hx. unfold roundDouble. rewrite Z.abs_eq by lia.
  destruct (x <? 2^53) eqn:E; [lia|].
  assert (Hpos : 0 < x) by lia.
  pose proof (Z.log2_spec x Hpos) as [Hlow Hhigh].
  assert (H53 : 53 <= Z.log2 x).
  { change 53 with (Z.log2 (2^53)). apply Z.log2_le_mono. lia. }
  assert (H63 : Z.log2 x < 64) by (apply Z.log2_lt_pow2; lia).
  set (L := Z.log2 x) in *. set (e := L - 52).
  assert (He : 0 < 2^e) by (apply Z.pow_pos_nonneg; lia).
  assert (Hsplit : 2^(Z.succ L) = 2^e * 2^53).
  { rewrite <- Z.pow_add_r by lia. f_equal. lia. }
  assert (Hq : x / 2^e < 2^53).
  { apply Z.div_lt_upper_bound; [exact He | lia]. }
  assert (Hq0 : 0 <= x / 2^e) by (apply Z_div_nonneg_nonneg; lia).
  assert (Htop : 2^(Z.succ L) <= 2^64) by (apply Z.pow_le_mono_r; lia).
  replace (Z.sgn x) with 1 by lia.
  clearbody e. clearbody L.
  assert (Hup : forall q', q' <= 2^53 -> 1 * (q' * 2^e) <= 2^64).
  { intros q' Hq'. rewrite Z.mul_1_l.
    apply Z.le_trans with (2^53 * 2^e);
      [|rewrite Z.mul_comm, <- Hsplit; exact Htop].
    apply Z.mul_le_mono_nonneg_r; [apply Z.lt_le_incl, He | exact Hq']. }
  destruct (x mod 2^e <? 2^(e - 1)); [apply Hup; lia|].
  destruct (2^(e - 1) <? x mod 2^e); [apply Hup; lia|].
  destruct (Z.even _); apply Hup; lia.
Qed.

Lemma readU64_range (d : list byte) (o v : Z) :
  readU64 d o = Ret v -> 0 <= v <= 2^64.
Proof.
  intros H. split; [apply (readU64_nonneg d o v H)|].
  unfold readU64 in H.
  apply bind_ret in H as (lo & Hlo & H).
  apply bind_ret in H as (hi & Hhi & [= <-]).
  apply getUint32_range in Hlo, Hhi. apply roundDouble_upper. lia.
Qed.

Lemma codeUnits_units (bs : list byte) : Forall codeUnit (codeUnits bs).
Proof.
  assert (H : forall n bs, (length bs <= n)%nat -> Forall codeUnit (codeUnits bs)).
  { induction n as [|n IH]; intros [|lo [|hi rest]] Hn; cbn [codeUnits];
      try constructor; cbn in Hn; try lia.
    - unfold codeUnit. pose proof (u8_range lo). pose proof (u8_range hi). lia.
    - apply IH. lia. }
  apply (H (length bs)). lia.
Qed.

Lemma utf16_units (odd : bool) (units : list Z) :
  Forall codeUnit units -> Forall codeUnit (utf16 units odd).
Proof.
  assert (Hrep : codeUnit 0xFFFD) by (unfold codeUnit; lia).
  assert (H : forall n units, (length units <= n)%nat ->
                Forall codeUnit units -> Forall codeUnit (utf16 units odd)).
  { induction n as [|n IH]; intros [|u rest] Hn Hall; cbn [utf16].
    - destruct odd; auto.
    - cbn in Hn. lia.
    - destruct odd; auto.
    - cbn in Hn. apply Forall_cons_iff in Hall as [Hu Hrest].
      destruct (isLead u).
      + destruct rest as [|t rest']; [auto|].
        apply Forall_cons_iff in Hrest as [Ht Hrest'].
        destruct (isTrail t).
        * constructor; [exact Hu|]. constructor; [exact Ht|].
          apply IH; [cbn in Hn; lia | exact Hrest'].
        * constructor; [exact Hrep|]. apply IH; [lia | now constructor].
      + destruct (isTrail u); constructor; try assumption; apply IH;
          try assumption; lia. }
  apply (H (length units)). lia.
Qed.

Lemma TD16_decode_units (part : list byte) : Forall codeUnit (TD16_decode part).
Proof.
  unfold TD16_decode, stripBOM.
  pose proof (utf16_units (Nat.odd (length part)) _ (codeUnits_units part)) as H.
  destruct (utf16 _ _) as [|u rest]; [constructor|].
  destruct (u =? 0xFEFF); [|exact H].
  now apply Forall_cons_iff in H as [_ H].
Qed.

Lemma dropWhileNul_spec (s : jsstring) :
  hd 1 (dropWhileNul s) <> 0 /\
  forall P, Forall P s -> Forall P (dropWhileNul s).
Proof.
  induction s as [|u s [IHhd IHall]]; cbn [dropWhileNul].
  - split; [cbn; lia | auto].
  - destruct (u =? 0) eqn:E.
    + split; [exact IHhd|]. intros P H. apply IHall.
      now apply Forall_cons_iff in H as [_ H].
    + split; [cbn; lia | auto].
Qed.

Lemma stripTrailingNul_spec (s : jsstring) :
  last (stripTrailingNul s) 1 <> 0 /\
  forall P, Forall P s -> Forall P (stripTrailingNul s).
Proof.
  unfold stripTrailingNul.
  destruct (dropWhileNul_spec (rev s)) as [Hhd Hall]. split.
  - destruct (dropWhileNul (rev s)) as [|u rest]; [cbn; lia|].
    cbn [rev]. rewrite last_last. exact Hhd.
  - intros P H. apply Forall_rev, Hall, Forall_rev, H.
Qed.

Lemma secondaries_fields (data : list byte) (sc : option Z) :
  forall (fuel : nat) (consumed j : Z) (name : jsstring) (fc size : Z)
         (j' : Z) (name' : jsstring) (fc' size' : Z),
    0 <= size <= 2^64 -> 0 <= fc < 2^32 -> Forall codeUnit name ->
    secondaries fuel data sc consumed j name fc size = Ret (j', name', fc', size') ->
    j <= j' /\ 0 <= size' <= 2^64 /\ 0 <= fc' < 2^32 /\ Forall codeUnit name'.
Proof.
  induction fuel as [|fuel IH];
    intros consumed j name fc size j' name' fc' size' Hs Hf Hn;
    cbn [secondaries]; destruct (leq_opt consumed sc && (j + 32 <=? len data));
    try discriminate;
    try (intros [= <- <- <- <-]; repeat split; try assumption; try lia).
  assert (Hnext : forall name1 fc1 size1,
    0 <= size1 <= 2^64 -> 0 <= fc1 < 2^32 -> Forall codeUnit name1 ->
    secondaries fuel data sc (consumed + 1) (j + 32) name1 fc1 size1
    = Ret (j', name', fc', size') ->
    j <= j' /\ 0 <= size' <= 2^64 /\ 0 <= fc' < 2^32 /\ Forall codeUnit name').
  { intros name1 fc1 size1 Hs1 Hf1 Hn1 H.
    apply IH in H as (Hj & H); auto. split; [lia | exact H]. }
  destruct (elem data j) as [st|]; [|now apply Hnext].
  destruct (Z.eq_dec st 0xc0) as [-> | Hc0].
  - intros H. apply bind_ret in H as (fc1 & Hfc & H).
    apply bind_ret in H as (size1 & Hsize & H).
    apply getUint32_range in Hfc. apply readU64_range in Hsize.
    now apply Hnext in H.
  - destruct (Z.eq_dec st 0xc1) as [-> | Hc1].
    + apply Hnext; auto. apply Forall_app. split; [exact Hn|].
      apply TD16_decode_units.
    + destruct st as [|p|p]; try (now apply Hnext).
      do 8 (destruct p as [p|p|]; try (now apply Hnext)); contradiction.
Qed.

Lemma dirLoop_fields (data : list byte) :
  forall (fuel : nat) (i : Z) (res res' : list DirEntry.t),
    0 <= i ->
    Forall wellFormedEntry res ->
    dirLoop fuel data i res = Ret res' ->
    Forall wellFormedEntry res' /\
    32 * (Z.of_nat (length res') - Z.of_nat (length res))
    <= Z.max 0 (len data - i).
Proof.
  induction fuel as [|fuel IH]; intros i res res' Hi Hres; cbn [dirLoop];
    destruct (i + 32 <=? len data) eqn:E; try discriminate;
    try (intros [= <-]; split; [exact Hres | lia]).
  assert (Hskip : dirLoop fuel data (i + 32) res = Ret res' ->
    Forall wellFormedEntry res' /\
    32 * (Z.of_nat (length res') - Z.of_nat (length res))
    <= Z.max 0 (len data - i)).
  { intros H. apply IH in H as [Hall Hcount]; [|lia|exact Hres].
    split; [exact Hall | lia]. }
  destruct (elem data i) as [et|]; [|exact Hskip].
  destruct (Z.eq_dec et 0x85) as [-> | H85].
  - intros H. apply bind_ret in H as ([[[j name] fc] size] & Hsec & H).
    apply secondaries_fields in Hsec as (Hj & Hsize & Hfc & Hname);
      [ | lia | lia | constructor ].
    apply IH in H as [Hall Hcount]; [ | lia | ].
    + split; [exact Hall|]. rewrite length_app in Hcount.
      cbn [length] in Hcount. lia.
    + apply Forall_app. split; [exact Hres|]. constructor; [|constructor].
      destruct (stripTrailingNul_spec name) as [Hlast Hunits].
      unfold wellFormedEntry. cbn. auto.
  - destruct et as [|p|p]; try exact Hskip.
    do 8 (destruct p as [p|p|]; try exact Hskip); contradiction.
Qed.

(** X9.  Every record [readDirectory] returns is well formed: its size
    lies in [[0, 2^64]], its first cluster in [[0, 2^32)], and its name is
    a sequence of 16-bit code units that does not end with NUL. *)
Theorem decoded_entries_wellformed (fuel : nat) (buf : Uint8Array)
    (boot : Boot) (c : Z) (h g : heap) (entries : list DirEntry.t) :
  readDirectory fuel buf boot c h = Ret (entries, g) ->
  Forall wellFormedEntry entries.
Proof.
  intros H. unfold readDirectory in H.
  apply bind_ret in H as ([data h1] & _ & H).
  apply bind_ret in H as (res & Hdir & [= <- <-]).
  apply dirLoop_fields in Hdir as [Hall _]; [exact Hall | lia | constructor].
Qed.

Lemma decoded_entries_wellformed_witness :
  exists entries g,
    readDirectory 4 (Image.whole Sample.image) Sample.geometry 4
                  (Image.load Sample.image) = Ret (entries, g) /\
    Forall wellFormedEntry entries.
Proof.
  eexists _, _. split; [vm_compute; reflexivity|].
  apply (decoded_entries_wellformed 4 (Image.whole Sample.image)
           Sample.geometry 4 (Image.load Sample.image) (Image.load Sample.image)).
  vm_compute. reflexivity.
Defined.

(** X10.  A directory whose chain can be read is decoded without error,
    and into at most one record per 32 bytes of the chain; a chain of
    fewer than 32 bytes gives no record. *)
Theorem directory_entry_count (fuel : nat) (buf : Uint8Array) (boot : Boot)
    (c : Z) (h g : heap) (data : Uint8Array) :
  valid h buf ->
  readChain fuel buf boot c None h = Ret (data, g) ->
  exists entries,
    readDirectory fuel buf boot c h = Ret (entries, g) /\
    32 * Z.of_nat (length entries) <= byteLength data.
Proof.
  intros Hv Hchain.
  pose proof (readChain_grows _ _ _ _ _ _ _ _ Hv Hchain) as [_ Hd].
  pose proof (bytes_len g data Hd) as Hlen.
  unfold readDirectory. rewrite Hchain. cbn [bind].
  destruct (dirLoop_total (bytes g data) (S (length (bytes g data))) 0 [])
    as (res & Hdir); [lia | unfold len; lia |].
  rewrite Hdir. cbn [bind]. exists res. split; [reflexivity|].
  apply dirLoop_fields in Hdir as [_ Hcount]; [|lia|constructor].
  cbn [length] in Hcount. pose proof (len_nonneg (bytes g data)). lia.
Qed.

Lemma directory_entry_count_witness :
  exists entries,
    readDirectory 4 (Image.whole Sample.image) Sample.geometry 2
                  (Image.load Sample.image)
    = Ret (entries, Image.load Sample.image) /\
    32 * Z.of_nat (length entries) <= 256.
Proof.
  apply (directory_entry_count 4 (Image.whole Sample.image) Sample.geometry 2
           (Image.load Sample.image) (Image.load Sample.image)
           (mkUint8Array 0 160 256) ltac:(by_compute)).
  vm_compute. reflexivity.
Defined.

(** ** Segments and base paths *)

Lemma split_no_slash (s seg : jsstring) :
  In seg (split s) -> ~ In slash seg.
Proof.
  revert seg. induction s as [|u s IH]; intros seg; cbn [split].
  - intros [<- | []]. auto.
  - destruct (u =? slash) eqn:E.
    + intros [<- | Hin]; [auto | now apply IH].
    + pose proof (split_nonempty s) as Hne.
      destruct (split s) as [|seg0 segs]; [contradiction|].
      intros [<- | Hin].
      * intros [-> | Hin]; [lia|]. apply (IH seg0); [now left | exact Hin].
      * apply IH. now right.
Qed.

Lemma normalizePath_all_segments (p : jsstring) :
  Forall segment (normalizePath p).
Proof.
  apply Forall_forall. intros seg Hin. unfold normalizePath in Hin.
  apply filter_In in Hin as [Hin Htruthy]. split.
  - intros ->. discriminate.
  - now apply (split_no_slash p).
Qed.

Lemma split_segment (s : jsstring) : ~ In slash s -> split s = [s].
Proof.
  induction s as [|u s IH]; intros Hs; cbn [split]; [reflexivity|].
  destruct (u =? slash) eqn:E.
  - exfalso. apply Hs. left. lia.
  - rewrite IH; [reflexivity|]. intros Hin. apply Hs. now right.
Qed.

Lemma normalizePath_segment (s : jsstring) :
  segment s -> normalizePath s = [s].
Proof.
  intros [Hne Hs]. unfold normalizePath. rewrite (split_segment s Hs).
  destruct s; [contradiction | reflexivity].
Qed.

Lemma normalizePath_join (parts : list jsstring) :
  Forall segment parts -> normalizePath (join parts) = parts.
Proof.
  induction 1 as [|s parts Hs Hparts IH]; [reflexivity|].
  destruct parts as [|t rest].
  - cbn [join]. now apply normalizePath_segment.
  - change (join (s :: t :: rest)) with (s ++ slash :: join (t :: rest)).
    now rewrite normalizePath_slash, IH, (normalizePath_segment s Hs).
Qed.

Lemma normalizePath_basePath (parts : list jsstring) :
  Forall segment parts -> normalizePath (basePath parts) = parts.
Proof.
  intros H. destruct parts as [|s rest]; [reflexivity|].
  unfold basePath.
  change (slash :: join (s :: rest)) with ([] ++ slash :: join (s :: rest)).
  now rewrite normalizePath_slash, normalizePath_join.
Qed.

(** X11.  The segments [normalizePath] yields are not empty and hold no
    slash, whatever the path. *)
Theorem normalizePath_segments (p : jsstring) :
  Forall (fun seg => seg <> [] /\ ~ In slash seg) (normalizePath p).
Proof. exact (normalizePath_all_segments p). Qed.

(** X12.  Joining segments with slashes and splitting again gives the
    segments back; so the base path [walk] builds from the segments of a
    path has the same segments as the path, and walking it is walking
    the path. *)
Theorem basePath_round_trip (fuel : nat) (this : ExfatReader.t) (h : heap)
    (p : jsstring) :
  (forall parts, Forall segment parts ->
                 normalizePath (join parts) = parts /\
                 normalizePath (basePath parts) = parts) /\
  normalizePath (basePath (normalizePath p)) = normalizePath p /\
  ExfatReader.walk fuel this (basePath (normalizePath p)) h
  = ExfatReader.walk fuel this p h.
Proof.
  split; [|split].
  - intros parts H. split;
      [now apply normalizePath_join | now apply normalizePath_basePath].
  - apply normalizePath_basePath, normalizePath_all_segments.
  - unfold ExfatReader.walk.
    now rewrite (normalizePath_basePath _ (normalizePath_all_segments p)).
Qed.

(** ** Lookups along a path *)

Lemma streq_true (a b : jsstring) : streq a b = true <-> a = b.
Proof.
  unfold streq. destruct (list_eq_dec Z.eq_dec a b); split; auto; discriminate.
Qed.

Lemma find_ext {A : Type} (f g : A -> bool) (l : list A) :
  (forall x, f x = g x) -> find f l = find g l.
Proof.
  intros E. induction l as [|x l IH]; cbn; [reflexivity|].
  rewrite E, IH. reflexivity.
Qed.

Lemma find_exists {A : Type} (f : A -> bool) (l : list A) (x : A) :
  In x l -> f x = true -> exists y, find f l = Some y.
Proof.
  intros Hin Hx. destruct (find f l) as [y|] eqn:E; [eauto|].
  rewrite (find_none f l E x Hin) in Hx. discriminate.
Qed.

Lemma find_absent {A : Type} (f : A -> bool) (l : list A) :
  Forall (fun x => f x = false) l -> find f l = None.
Proof.
  induction 1 as [|x l Hx _ IH]; cbn; [reflexivity|]. now rewrite Hx.
Qed.

Lemma isLast_app (pre rest : list jsstring) :
  rest <> [] -> ExfatReader.isLast (pre ++ rest) = false.
Proof.
  intros Hne. destruct pre; [|reflexivity]. now destruct rest.
Qed.

Section Prefix.

Variables (fuel : nat) (this : ExfatReader.t).

(** Each loop walks down the first segments of a path as
    [findDirectory] does. *)
Lemma findDirectory_app (rest : list jsstring) :
  forall (pre : list jsstring) (c : Z) (h : heap),
    ExfatReader.findDirectory fuel this (pre ++ rest) c h
    = ('(found, h1) <- ExfatReader.findDirectory fuel this pre c h ;;
       match found with
       | None => Ret (None, h1)
       | Some c' => ExfatReader.findDirectory fuel this rest c' h1
       end).
Proof.
  induction pre as [|part pre IH]; intros c h; [reflexivity|].
  cbn [app ExfatReader.findDirectory]. rewrite bind_assoc.
  destruct (readDirectory fuel _ _ c h) as [[entries h1]| |]; cbn [bind];
    try reflexivity.
  destruct (find _ entries) as [next|]; [apply IH | reflexivity].
Qed.

Lemma existsLoop_app (rest : list jsstring) :
  rest <> [] ->
  forall (pre : list jsstring) (c : Z) (h : heap),
    ExfatReader.existsLoop fuel this (pre ++ rest) c h
    = ('(found, h1) <- ExfatReader.findDirectory fuel this pre c h ;;
       match found with
       | None => Ret (false, h1)
       | Some c' => ExfatReader.existsLoop fuel this rest c' h1
       end).
Proof.
  intros Hne. induction pre as [|part pre IH]; intros c h; [reflexivity|].
  cbn [app ExfatReader.findDirectory ExfatReader.existsLoop].
  rewrite bind_assoc, (isLast_app pre rest Hne).
  destruct (readDirectory fuel _ _ c h) as [[entries h1]| |]; cbn [bind];
    try reflexivity.
  rewrite (find_ext _ (fun e => DirEntry.isDir e
                                && streq (DirEntry.name e) part))
    by (intros e; cbn [orb]; apply andb_comm).
  destruct (find _ entries) as [next|]; [apply IH | reflexivity].
Qed.

Lemma readFileLoop_app (rest : list jsstring) :
  rest <> [] ->
  forall (pre : list jsstring) (c : Z) (h : heap),
    ExfatReader.readFileLoop fuel this (pre ++ rest) c h
    = ('(found, h1) <- ExfatReader.findDirectory fuel this pre c h ;;
       match found with
       | None => Ret (None, h1)
       | Some c' => ExfatReader.readFileLoop fuel this rest c' h1
       end).
Proof.
  intros Hne. induction pre as [|part pre IH]; intros c h; [reflexivity|].
  cbn [app ExfatReader.findDirectory ExfatReader.readFileLoop].
  rewrite bind_assoc, (isLast_app pre rest Hne).
  destruct (readDirectory fuel _ _ c h) as [[entries h1]| |]; cbn [bind];
    try reflexivity.
  rewrite (find_ext _ (fun e => DirEntry.isDir e
                                && streq (DirEntry.name e) part))
    by (intros e; cbn [negb]; apply andb_comm).
  destruct (find _ entries) as [next|]; [|reflexivity].
  cbn [negb]. apply IH.
Qed.

End Prefix.

(** X13.  Every entry [list] reports exists: for an item of [list path]
    whose name is a segment (not empty, without slash), [exists] returns
    [true] on the path followed by a slash and the name, with the same
    directory reads. *)
Theorem listed_entries_exist (fuel : nat) (this : ExfatReader.t)
    (path : jsstring) (h g : heap) (items : list ExfatListItem.t)
    (item : ExfatListItem.t) :
  ExfatReader.list fuel this path h = Ret (items, g) ->
  In item items ->
  segment (ExfatListItem.name item) ->
  ExfatReader.exists_ fuel this (path ++ slash :: ExfatListItem.name item) h
  = Ret (true, g).
Proof.
  intros Hlist Hin Hseg.
  unfold ExfatReader.list in Hlist.
  apply bind_ret in Hlist as ([found h1] & Hfind & Hlist).
  destruct found as [cluster|];
    [|injection Hlist as <- _; contradiction].
  apply bind_ret in Hlist as ([out h2] & Hread & [= <- <-]).
  apply in_map_iff in Hin as (e & <- & He). cbn in Hseg |- *.
  unfold ExfatReader.exists_.
  rewrite normalizePath_slash, (normalizePath_segment _ Hseg).
  rewrite existsLoop_app by discriminate. rewrite Hfind. cbn [bind].
  cbn [ExfatReader.existsLoop]. rewrite Hread. cbn [bind ExfatReader.isLast].
  destruct (find_exists
              (fun e0 => streq (DirEntry.name e0) (DirEntry.name e)
                         && (true || DirEntry.isDir e0)) out e He)
    as (y & ->); [|reflexivity].
  cbn [orb]. rewrite andb_true_r. now apply streq_true.
Qed.

Lemma listed_entries_exist_witness :
  ExfatReader.exists_ 4 (Sample.reader Sample.image)
    (Image.str "/Documents/"%string ++ slash :: Image.str "a.bin"%string)
    (Image.load Sample.image)
  = Ret (true, Image.load Sample.image).
Proof.
  apply (listed_entries_exist 4 (Sample.reader Sample.image)
           (Image.str "/Documents/"%string) (Image.load Sample.image)
           (Image.load Sample.image)
           [ExfatListItem.mk (Image.str "a.bin"%string) false 266;
            ExfatListItem.mk (Image.str "empty"%string) false 0]
           (ExfatListItem.mk (Image.str "a.bin"%string) false 266)).
  - vm_compute. reflexivity.
  - now left.
  - split; [discriminate|]. cbn. intros H.
    repeat (destruct H as [H | H]; [discriminate|]). exact H.
Defined.

(** X14.  A segment that names no entry of the directory the segments
    before it lead to makes every lookup fail softly: [list] and [walk]
    return no items, [exists] returns [false] and [readFile] [null],
    whatever follows the segment. *)
Theorem missing_segment_not_found (fuel : nat) (this : ExfatReader.t)
    (path : jsstring) (pre post : list jsstring) (part : jsstring)
    (c : Z) (h h1 g : heap) (entries : list DirEntry.t) :
  normalizePath path = pre ++ part :: post ->
  ExfatReader.findDirectory fuel this pre
    (rootDirCluster (ExfatReader.boot this)) h = Ret (Some c, h1) ->
  readDirectory fuel (ExfatReader.buf this) (ExfatReader.boot this) c h1
  = Ret (entries, g) ->
  Forall (fun e => DirEntry.name e <> part) entries ->
  ExfatReader.list fuel this path h = Ret ([], g) /\
  ExfatReader.walk fuel this path h = Ret ([], g) /\
  ExfatReader.exists_ fuel this path h = Ret (false, g) /\
  ExfatReader.readFile fuel this path h = Ret (None, g).
Proof.
  intros Hpath Hpre Hread Habsent.
  assert (Hnone : forall f : DirEntry.t -> bool,
            (forall e, f e = true -> DirEntry.name e = part) ->
            find f entries = None).
  { intros f Hf. apply find_absent.
    eapply Forall_impl; [|exact Habsent]. intros e Hne.
    destruct (f e) eqn:E; [|reflexivity]. now apply Hf in E. }
  unfold ExfatReader.list, ExfatReader.walk, ExfatReader.exists_,
    ExfatReader.readFile.
  rewrite Hpath, findDirectory_app, existsLoop_app, readFileLoop_app
    by discriminate.
  rewrite Hpre. cbn [bind].
  cbn [ExfatReader.findDirectory ExfatReader.existsLoop
         ExfatReader.readFileLoop].
  rewrite Hread. cbn [bind].
  rewrite !Hnone; [repeat split | | | ];
    intros e He; apply andb_true_iff in He as [H1 H2];
    first [now apply streq_true in H1 | now apply streq_true in H2].
Qed.

Lemma missing_segment_not_found_witness :
  ExfatReader.list 4 (Sample.reader Sample.image)
    (Image.str "/Documents/nope/x"%string) (Image.load Sample.image)
  = Ret ([], Image.load Sample.image) /\
  ExfatReader.walk 4 (Sample.reader Sample.image)
    (Image.str "/Documents/nope/x"%string) (Image.load Sample.image)
  = Ret ([], Image.load Sample.image) /\
  ExfatReader.exists_ 4 (Sample.reader Sample.image)
    (Image.str "/Documents/nope/x"%string) (Image.load Sample.image)
  = Ret (false, Image.load Sample.image) /\
  ExfatReader.readFile 4 (Sample.reader Sample.image)
    (Image.str "/Documents/nope/x"%string) (Image.load Sample.image)
  = Ret (None, Image.load Sample.image).
Proof.
  apply (missing_segment_not_found 4 (Sample.reader Sample.image)
           (Image.str "/Documents/nope/x"%string)
           [Image.str "Documents"%string] [Image.str "x"%string]
           (Image.str "nope"%string) 4
           (Image.load Sample.image) (Image.load Sample.image)
           (Image.load Sample.image)
           [DirEntry.mk (Image.str "a.bin"%string) false 266 5;
            DirEntry.mk (Image.str "empty"%string) false 0 0]);
    try (vm_compute; reflexivity).
  repeat constructor; discriminate.
Defined.

Lemma readFileLoop_exists (fuel : nat) (this : ExfatReader.t) :
  forall (parts : list jsstring) (c : Z) (h g : heap) (v : Uint8Array),
    ExfatReader.readFileLoop fuel this parts c h = Ret (Some v, g) ->
    exists g', ExfatReader.existsLoop fuel this parts c h = Ret (true, g').
Proof.
  induction parts as [|part rest IH]; intros c h g v;
    cbn [ExfatReader.readFileLoop ExfatReader.existsLoop]; [discriminate|].
  intros H. apply bind_ret in H as ([entries h1] & Hread & H).
  rewrite Hread. cbn [bind].
  destruct (find _ entries) as [found|] eqn:Hfind in H; [|discriminate].
  destruct rest as [|part' rest]; cbn [ExfatReader.isLast negb orb] in *.
  - apply find_some in Hfind as [Hin Hp].
    apply andb_true_iff in Hp as [Hname _].
    destruct (find_exists
                (fun e => streq (DirEntry.name e) part && true) entries found Hin)
      as (y & ->); [now rewrite andb_true_r|].
    cbn [ExfatReader.existsLoop]. eauto.
  - rewrite Hfind. eapply IH. exact H.
Qed.

Lemma findDirectory_exists (fuel : nat) (this : ExfatReader.t) :
  forall (parts : list jsstring) (c c' : Z) (h g : heap),
    ExfatReader.findDirectory fuel this parts c h = Ret (Some c', g) ->
    exists g', ExfatReader.existsLoop fuel this parts c h = Ret (true, g').
Proof.
  induction parts as [|part rest IH]; intros c c' h g;
    cbn [ExfatReader.findDirectory ExfatReader.existsLoop]; [eauto|].
  intros H. apply bind_ret in H as ([entries h1] & Hread & H).
  rewrite Hread. cbn [bind].
  destruct (find _ entries) as [next|] eqn:Hfind in H; [|discriminate].
  destruct rest as [|part' rest]; cbn [ExfatReader.isLast orb].
  - apply find_some in Hfind as [Hin Hp].
    apply andb_true_iff in Hp as [_ Hname].
    destruct (find_exists
                (fun e => streq (DirEntry.name e) part && true) entries next Hin)
      as (y & ->); [now rewrite andb_true_r|].
    cbn [ExfatReader.existsLoop]. eauto.
  - rewrite (find_ext _ (fun e => DirEntry.isDir e
                                  && streq (DirEntry.name e) part))
      by (intros e; apply andb_comm).
    rewrite Hfind. eapply IH. exact H.
Qed.

(** X15.  What can be read or listed exists: when [readFile] returns an
    array, or [list] returns at least one item, [exists] returns [true]
    on the same path. *)
Theorem read_or_listed_exists (fuel : nat) (this : ExfatReader.t)
    (path : jsstring) (h : heap) :
  (forall v g,
      ExfatReader.readFile fuel this path h = Ret (Some v, g) ->
      exists g', ExfatReader.exists_ fuel this path h = Ret (true, g')) /\
  (forall items g,
      ExfatReader.list fuel this path h = Ret (items, g) ->
      items <> [] ->
      exists g', ExfatReader.exists_ fuel this path h = Ret (true, g')).
Proof.
  split.
  - intros v g H. eapply readFileLoop_exists. exact H.
  - intros items g H Hne. unfold ExfatReader.list in H.
    apply bind_ret in H as ([found h1] & Hfind & H).
    destruct found as [cluster|]; [|injection H as <- _; contradiction].
    eapply findDirectory_exists. exact Hfind.
Qed.

Lemma read_or_listed_exists_witness :
  exists g',
    ExfatReader.exists_ 4 (Sample.reader Sample.image)
      (Image.str "/Documents/a.bin"%string) (Image.load Sample.image)
    = Ret (true, g').
Proof.
  eapply (proj1 (read_or_listed_exists 4 (Sample.reader Sample.image)
                   (Image.str "/Documents/a.bin"%string)
                   (Image.load Sample.image))).
  vm_compute. reflexivity.
Defined.

(** ** The items of [walk] *)

Lemma childPath_head (currentPath name : jsstring) :
  hd 0 currentPath = slash ->
  hd 0 (ExfatReader.childPath currentPath name) = slash.
Proof.
  intros H. unfold ExfatReader.childPath.
  destruct (streq currentPath [slash]); [reflexivity|].
  destruct currentPath; [discriminate | exact H].
Qed.

Lemma itemOf_ok (currentPath : jsstring) (e : DirEntry.t) :
  hd 0 currentPath = slash -> 0 <= DirEntry.size e ->
  walkItemOk (itemOf currentPath e).
Proof.
  intros Hp Hs. unfold itemOf, walkItemOk.
  destruct (DirEntry.isDir e); cbn;
    (split; [now apply childPath_head|]); (split; [exact Hs|]); split;
    try (split; [reflexivity | discriminate || reflexivity]);
    try (split; discriminate);
    try discriminate.
  now intros fc sz [= _ <-].
Qed.

Lemma visitEntry_itemOf
    (recurse : jsstring -> Z -> list ExfatWalkItem.t * heap ->
               outcome (list ExfatWalkItem.t * heap))
    (currentPath : jsstring) (e : DirEntry.t)
    (result : list ExfatWalkItem.t) (h : heap) :
  ExfatReader.visitEntry recurse currentPath e (result, h)
  = if DirEntry.isDir e
    then recurse (ExfatReader.childPath currentPath (DirEntry.name e))
                 (DirEntry.firstCluster e)
                 (result ++ [itemOf currentPath e], h)
    else Ret (result ++ [itemOf currentPath e], h).
Proof.
  unfold ExfatReader.visitEntry, itemOf. now destruct (DirEntry.isDir e).
Qed.

Lemma visit_items_ok (fuel : nat) (this : ExfatReader.t) :
  forall (depth : nat) (currentPath : jsstring) (c : Z)
         (result result' : list ExfatWalkItem.t) (h g : heap),
    valid h (ExfatReader.buf this) ->
    hd 0 currentPath = slash ->
    Forall walkItemOk result ->
    ExfatReader.visit depth fuel this currentPath c (result, h)
    = Ret (result', g) ->
    Forall walkItemOk result'.
Proof.
  induction depth as [|depth IH];
    intros currentPath c result result' h g Hv Hp Hres;
    cbn [ExfatReader.visit]; [discriminate|].
  intros H. apply bind_ret in H as ([entries h1] & Hread & H).
  apply readDirectory_ret in Hread as [Hg Hsizes]; [|exact Hv].
  pose proof (grows_valid h h1 _ Hg Hv) as Hv1. clear Hg Hv.
  revert result h1 Hv1 Hres H.
  induction Hsizes as [|e entries Hsize _ IHe]; intros result h1 Hv1 Hres;
    cbn [ExfatReader.forOf].
  - now intros [= <- _].
  - intros H. apply bind_ret in H as ([r1 g1] & He & H).
    rewrite visitEntry_itemOf in He.
    assert (Hpushed : Forall walkItemOk (result ++ [itemOf currentPath e])).
    { apply Forall_app. split; [exact Hres|].
      constructor; [now apply itemOf_ok | constructor]. }
    destruct (DirEntry.isDir e).
    + pose proof (visit_grows _ _ _ _ _ _ _ _ _ Hv1 He) as Hg1.
      apply IH in He; [|exact Hv1|now apply childPath_head|exact Hpushed].
      apply (IHe r1 g1); [apply (grows_valid h1 g1); assumption | exact He | exact H].
    + injection He as <- <-. apply (IHe _ h1 Hv1 Hpushed H).
Qed.

Lemma walk_all_ok (fuel : nat) (this : ExfatReader.t) (path : jsstring)
    (h g : heap) (items : list ExfatWalkItem.t) :
  valid h (ExfatReader.buf this) ->
  ExfatReader.walk fuel this path h = Ret (items, g) ->
  Forall walkItemOk items.
Proof.
  intros Hv H. unfold ExfatReader.walk in H.
  apply bind_ret in H as ([found h1] & Hfind & H).
  apply findDirectory_grows in Hfind; [|exact Hv].
  destruct found as [cluster|]; [|injection H as <- _; constructor].
  eapply visit_items_ok; [ | | | exact H].
  - apply (grows_valid h h1); assumption.
  - now destruct (normalizePath path).
  - constructor.
Qed.

(** X16.  Every item of [walk] has a path that starts with a slash and a
    size that is not negative; it carries a [read] accessor exactly when
    it is not a directory, and the accessor reads with the size of the
    item as its limit. *)
Theorem walk_items_ok (fuel : nat) (this : ExfatReader.t) (path : jsstring)
    (h g : heap) (items : list ExfatWalkItem.t) :
  valid h (ExfatReader.buf this) ->
  ExfatReader.walk fuel this path h = Ret (items, g) ->
  Forall walkItemOk items.
Proof. apply walk_all_ok. Qed.

Lemma walk_items_ok_witness :
  exists items g,
    ExfatReader.walk 4 (Sample.reader Sample.image) (Image.str "/"%string)
      (Image.load Sample.image) = Ret (items, g) /\
    Forall walkItemOk items.
Proof.
  eexists _, _. split; [vm_compute; reflexivity|].
  eapply (walk_items_ok 4 (Sample.reader Sample.image) (Image.str "/"%string)
            (Image.load Sample.image) _ _ ltac:(by_compute)).
  vm_compute. reflexivity.
Defined.

(** X17.  A directory item of [walk] has no [read] accessor: calling it
    is a [TypeError].  The accessor of a file item, whenever it is
    called and returns, returns an array of at most the size of the
    item. *)
Theorem walk_read_bounded (fuel : nat) (this : ExfatReader.t) (path : jsstring)
    (h g k : heap) (items : list ExfatWalkItem.t) (item : ExfatWalkItem.t) :
  valid h (ExfatReader.buf this) ->
  ExfatReader.walk fuel this path h = Ret (items, g) ->
  In item items ->
  valid k (ExfatReader.buf this) ->
  (ExfatWalkItem.isDir item = true ->
   ExfatReader.callRead fuel this item k = Throw TypeError) /\
  (forall v k',
      ExfatReader.callRead fuel this item k = Ret (v, k') ->
      ExfatWalkItem.isDir item = false /\
      byteLength v <= ExfatWalkItem.size item /\
      len (bytes k' v) <= ExfatWalkItem.size item).
Proof.
  intros Hv Hwalk Hin Hk.
  assert (Hok : walkItemOk item).
  { pose proof (walk_all_ok _ _ _ _ _ _ Hv Hwalk) as Hall.
    rewrite Forall_forall in Hall. now apply Hall. }
  destruct Hok as (_ & Hsize & Hdir & Hlimit).
  unfold ExfatReader.callRead.
  destruct (ExfatWalkItem.read item) as [[fc sz]|] eqn:Hread.
  - assert (Hfile : ExfatWalkItem.isDir item = false).
    { destruct (ExfatWalkItem.isDir item); [|reflexivity].
      destruct Hdir as [Hdir _]. now specialize (Hdir eq_refl). }
    rewrite (Hlimit fc sz eq_refl).
    split; [intros E; congruence|].
    intros v k' Hchain. split; [exact Hfile|].
    apply (proj1 (readChain_limit_facts fuel _ _ fc _ k Hk Hsize) v k' Hchain).
  - split; [reflexivity | discriminate].
Qed.

Lemma walk_read_bounded_witness :
  ExfatReader.callRead 4 (Sample.reader Sample.image)
    (ExfatWalkItem.mk (Image.str "/Documents"%string) true 0 None)
    (Image.load Sample.image) = Throw TypeError /\
  exists v k',
    ExfatReader.callRead 4 (Sample.reader Sample.image)
      (ExfatWalkItem.mk (Image.str "/Documents/a.bin"%string) false 266
                        (Some (5, 266)))
      (Image.load Sample.image) = Ret (v, k') /\
    byteLength v <= 266.
Proof.
  split.
  - refine (proj1 (walk_read_bounded 4 (Sample.reader Sample.image)
                     (Image.str "/"%string) (Image.load Sample.image) _
                     (Image.load Sample.image) _
                     (ExfatWalkItem.mk (Image.str "/Documents"%string) true 0
                                       None)
                     ltac:(by_compute) _ _ ltac:(by_compute)) eq_refl).
    + vm_compute. reflexivity.
    + right. now left.
  - eexists _, _. split; [vm_compute; reflexivity|].
    refine (proj1 (proj2 (proj2
              (walk_read_bounded 4 (Sample.reader Sample.image)
                 (Image.str "/Documents"%string) (Image.load Sample.image) _
                 (Image.load Sample.image) _
                 (ExfatWalkItem.mk (Image.str "/Documents/a.bin"%string) false
                                   266 (Some (5, 266)))
                 ltac:(by_compute) _ _ ltac:(by_compute)) _ _ _))).
    + vm_compute. reflexivity.
    + now left.
    + vm_compute. reflexivity.
Defined.

Lemma appends_ret
    (run : list ExfatWalkItem.t * heap -> outcome (list ExfatWalkItem.t * heap))
    (result result' : list ExfatWalkItem.t) (h g : heap) :
  appends run -> run (result, h) = Ret (result', g) ->
  exists pushed, result' = result ++ pushed.
Proof.
  intros Happ H. rewrite Happ in H.
  apply bind_ret in H as ([pushed g1] & _ & [= <- _]). eauto.
Qed.

Lemma forOf_pushes
    (recurse : jsstring -> Z -> list ExfatWalkItem.t * heap ->
               outcome (list ExfatWalkItem.t * heap))
    (currentPath : jsstring) :
  (forall p c, appends (recurse p c)) ->
  forall (entries : list DirEntry.t) (result result' : list ExfatWalkItem.t)
         (h g : heap),
    ExfatReader.forOf (ExfatReader.visitEntry recurse currentPath) entries
                      (result, h) = Ret (result', g) ->
    (exists pushed, result' = result ++ pushed) /\
    forall e, In e entries -> In (itemOf currentPath e) result'.
Proof.
  intros Hrec. induction entries as [|e entries IH];
    intros result result' h g; cbn [ExfatReader.forOf].
  - intros [= <- _]. split; [exists []; now rewrite app_nil_r | intros e []].
  - intros H. apply bind_ret in H as ([r1 g1] & He & H).
    rewrite visitEntry_itemOf in He.
    assert (Hr1 : exists pushed,
              r1 = result ++ [itemOf currentPath e] ++ pushed).
    { destruct (DirEntry.isDir e).
      - apply (appends_ret _ _ _ _ _ (Hrec _ _)) in He as (pushed & ->).
        exists pushed. now rewrite <- app_assoc.
      - injection He as <- _. exists []. now rewrite app_nil_r. }
    destruct Hr1 as (pushed1 & ->).
    apply IH in H as [(pushed2 & ->) Hall]. split.
    + eexists. rewrite <- !app_assoc. reflexivity.
    + intros e' [<- | Hin]; [|now apply Hall].
      apply in_or_app. left. apply in_or_app. right. now left.
Qed.

(** X18.  [walk] covers [list]: for every item [list] reports on a path,
    [walk] on the same path yields an item of the same kind and size
    whose path is the base path followed by the name. *)
Theorem walk_covers_list (fuel : nat) (this : ExfatReader.t) (path : jsstring)
    (h g g' : heap) (listed : list ExfatListItem.t)
    (items : list ExfatWalkItem.t) (item : ExfatListItem.t) :
  ExfatReader.list fuel this path h = Ret (listed, g) ->
  ExfatReader.walk fuel this path h = Ret (items, g') ->
  In item listed ->
  exists it,
    In it items /\
    ExfatWalkItem.path it
    = ExfatReader.childPath (basePath (normalizePath path))
                            (ExfatListItem.name item) /\
    ExfatWalkItem.isDir it = ExfatListItem.isDir item /\
    ExfatWalkItem.size it = ExfatListItem.size item.
Proof.
  intros Hlist Hwalk Hin.
  unfold ExfatReader.list in Hlist. unfold ExfatReader.walk in Hwalk.
  apply bind_ret in Hlist as ([found h1] & Hfind & Hlist).
  rewrite Hfind in Hwalk. cbn [bind] in Hwalk.
  destruct found as [cluster|]; [|injection Hlist as <- _; contradiction].
  apply bind_ret in Hlist as ([out h2] & Hread & [= <- <-]).
  apply in_map_iff in Hin as (e & <- & He).
  fold (basePath (normalizePath path)) in Hwalk.
  destruct fuel as [|depth]; [discriminate|].
  cbn [ExfatReader.visit] in Hwalk. rewrite Hread in Hwalk. cbn [bind] in Hwalk.
  apply (forOf_pushes _ _ (visit_appends (S depth) this depth)) in Hwalk
    as [_ Hall].
  exists (itemOf (basePath (normalizePath path)) e).
  split; [now apply Hall|].
  unfold itemOf. now destruct (DirEntry.isDir e).
Qed.

Lemma walk_covers_list_witness :
  exists it items g',
    ExfatReader.walk 4 (Sample.reader Sample.image)
      (Image.str "/Documents"%string) (Image.load Sample.image)
    = Ret (items, g') /\
    In it items /\
    ExfatWalkItem.path it = Image.str "/Documents/a.bin"%string /\
    ExfatWalkItem.isDir it = false /\
    ExfatWalkItem.size it = 266.
Proof.
  destruct (walk_covers_list 4 (Sample.reader Sample.image)
              (Image.str "/Documents"%string) (Image.load Sample.image)
              (Image.load Sample.image) (Image.load Sample.image)
              [ExfatListItem.mk (Image.str "a.bin"%string) false 266;
               ExfatListItem.mk (Image.str "empty"%string) false 0]
              [ExfatWalkItem.mk (Image.str "/Documents/a.bin"%string) false 266
                                (Some (5, 266));
               ExfatWalkItem.mk (Image.str "/Documents/empty"%string) false 0
                                (Some (0, 0))]
              (ExfatListItem.mk (Image.str "a.bin"%string) false 266)
              eq_refl eq_refl (or_introl eq_refl))
    as (it & Hin & Hpath & Hdir & Hsize).
  exists it. eexists _, _. split; [vm_compute; reflexivity|].
  repeat split; assumption.
Defined.

(** X19.  An entry of the wrong kind is not found.  When the entries a
    segment names are all files, the segment does not lead anywhere:
    [list] and [walk] return no items and, if more segments follow,
    [exists] returns [false] and [readFile] [null].  When the entries the
    last segment names are all directories, [readFile] returns [null]. *)
Theorem wrong_kind_not_found (fuel : nat) (this : ExfatReader.t)
    (path : jsstring) (pre post : list jsstring) (part : jsstring)
    (c : Z) (h h1 g : heap) (entries : list DirEntry.t) :
  normalizePath path = pre ++ part :: post ->
  ExfatReader.findDirectory fuel this pre
    (rootDirCluster (ExfatReader.boot this)) h = Ret (Some c, h1) ->
  readDirectory fuel (ExfatReader.buf this) (ExfatReader.boot this) c h1
  = Ret (entries, g) ->
  (Forall (fun e => DirEntry.name e = part -> DirEntry.isDir e = false)
          entries ->
   ExfatReader.list fuel this path h = Ret ([], g) /\
   ExfatReader.walk fuel this path h = Ret ([], g) /\
   (post <> [] ->
    ExfatReader.exists_ fuel this path h = Ret (false, g) /\
    ExfatReader.readFile fuel this path h = Ret (None, g))) /\
  (Forall (fun e => DirEntry.name e = part -> DirEntry.isDir e = true)
          entries ->
   post = [] ->
   ExfatReader.readFile fuel this path h = Ret (None, g)).
Proof.
  intros Hpath Hpre Hread.
  assert (Hnone : forall (f : DirEntry.t -> bool) (kind : bool),
            Forall (fun e => DirEntry.name e = part -> DirEntry.isDir e = kind)
                   entries ->
            (forall e, f e = true ->
                       DirEntry.name e = part /\ DirEntry.isDir e = negb kind) ->
            find f entries = None).
  { intros f kind Hkind Hf. apply find_absent.
    eapply Forall_impl; [|exact Hkind]. intros e He.
    destruct (f e) eqn:E; [|reflexivity].
    apply Hf in E as [Hname Hdir]. rewrite (He Hname) in Hdir.
    now destruct kind. }
  unfold ExfatReader.list, ExfatReader.walk, ExfatReader.exists_,
    ExfatReader.readFile.
  rewrite Hpath, findDirectory_app, existsLoop_app, readFileLoop_app
    by discriminate.
  rewrite Hpre. cbn [bind].
  cbn [ExfatReader.findDirectory ExfatReader.existsLoop
         ExfatReader.readFileLoop].
  rewrite Hread. cbn [bind]. split.
  - intros Hfiles.
    rewrite (Hnone _ false Hfiles);
      [|intros e He; apply andb_true_iff in He as [Hd Hn];
        apply streq_true in Hn; auto].
    split; [reflexivity|]. split; [reflexivity|].
    intros Hpost. destruct post as [|part' post]; [contradiction|].
    cbn [ExfatReader.isLast negb orb].
    rewrite !(Hnone _ false Hfiles);
      try (intros e He; apply andb_true_iff in He as [Hn Hd];
           apply streq_true in Hn; auto).
    split; reflexivity.
  - intros Hdirs ->. cbn [ExfatReader.isLast negb].
    rewrite (Hnone _ true Hdirs); [reflexivity|].
    intros e He. apply andb_true_iff in He as [Hn Hd].
    apply streq_true in Hn. apply negb_true_iff in Hd. auto.
Qed.

Lemma wrong_kind_not_found_witness :
  ExfatReader.list 4 (Sample.reader Sample.image)
    (Image.str "/hello.txt"%string) (Image.load Sample.image)
  = Ret ([], Image.load Sample.image) /\
  ExfatReader.readFile 4 (Sample.reader Sample.image)
    (Image.str "/Documents"%string) (Image.load Sample.image)
  = Ret (None, Image.load Sample.image).
Proof.
  split.
  - apply (proj1 (wrong_kind_not_found 4 (Sample.reader Sample.image)
                    (Image.str "/hello.txt"%string) [] []
                    (Image.str "hello.txt"%string) 2
                    (Image.load Sample.image) (Image.load Sample.image)
                    (Image.load Sample.image)
                    [DirEntry.mk (Image.str "hello.txt"%string) false 4 3;
                     DirEntry.mk (Image.str "Documents"%string) true 0 4]
                    eq_refl eq_refl eq_refl)).
    repeat constructor; discriminate.
  - apply (proj2 (wrong_kind_not_found 4 (Sample.reader Sample.image)
                    (Image.str "/Documents"%string) [] []
                    (Image.str "Documents"%string) 2
                    (Image.load Sample.image) (Image.load Sample.image)
                    (Image.load Sample.image)
                    [DirEntry.mk (Image.str "hello.txt"%string) false 4 3;
                     DirEntry.mk (Image.str "Documents"%string) true 0 4]
                    eq_refl eq_refl eq_refl)); [|reflexivity].
    repeat constructor; discriminate.
Defined.

(** ** The boot sector is the first 110 bytes *)

Lemma len_firstn (n : nat) (d : list byte) :
  len (firstn n d) = Z.min (Z.of_nat n) (len d).
Proof. unfold len. rewrite length_firstn. lia. Qed.

Lemma nth_error_firstn_lt {A : Type} (n k : nat) (l : list A) :
  (k < n)%nat -> nth_error (firstn n l) k = nth_error l k.
Proof.
  revert k l. induction n as [|n IH]; intros k l Hk; [lia|].
  destruct l as [|x l]; [reflexivity|].
  destruct k as [|k]; [reflexivity|]. cbn. apply IH. lia.
Qed.

Lemma nth_firstn_lt {A : Type} (n k : nat) (l : list A) (d : A) :
  (k < n)%nat -> nth k (firstn n l) d = nth k l d.
Proof.
  revert k l. induction n as [|n IH]; intros k l Hk; [lia|].
  destruct l as [|x l]; [reflexivity|].
  destruct k as [|k]; [reflexivity|]. cbn. apply IH. lia.
Qed.

Lemma elem_firstn (n : nat) (d : list byte) (i : Z) :
  i < Z.of_nat n -> elem (firstn n d) i = elem d i.
Proof.
  intros Hi. unfold elem. rewrite len_firstn.
  replace (i <? Z.min (Z.of_nat n) (len d)) with (i <? len d) by lia.
  destruct ((0 <=? i) && (i <? len d)) eqn:E; [|reflexivity].
  rewrite nth_error_firstn_lt by lia. reflexivity.
Qed.

Lemma getUint32_firstn (n : nat) (d : list byte) (o : Z) :
  o + 4 <= Z.of_nat n -> getUint32 (firstn n d) o = getUint32 d o.
Proof.
  intros Ho. unfold getUint32. rewrite len_firstn.
  replace (o + 4 <=? Z.min (Z.of_nat n) (len d)) with (o + 4 <=? len d) by lia.
  destruct ((0 <=? o) && (o + 4 <=? len d)) eqn:E; [|reflexivity].
  apply andb_true_iff in E as [E1 E2].
  unfold byteAt. rewrite !nth_firstn_lt by lia. reflexivity.
Qed.

(** X20.  The geometry is a function of the first 110 bytes of the
    image: two images that agree on them give the same result of
    [parseBoot], the same geometry or the same error. *)
Theorem parseBoot_prefix (h h' : heap) (image image' : Uint8Array) :
  firstn 110 (bytes h image) = firstn 110 (bytes h' image') ->
  parseBoot h image = parseBoot h' image'.
Proof.
  intros E. unfold parseBoot, readU32. cbv zeta.
  rewrite <- (elem_firstn 110 (bytes h image) 0x6c) by lia.
  rewrite <- (elem_firstn 110 (bytes h image) 0x6d) by lia.
  rewrite <- (getUint32_firstn 110 (bytes h image) 0x50) by lia.
  rewrite <- (getUint32_firstn 110 (bytes h image) 0x54) by lia.
  rewrite <- (getUint32_firstn 110 (bytes h image) 0x58) by lia.
  rewrite <- (getUint32_firstn 110 (bytes h image) 0x5c) by lia.
  rewrite <- (getUint32_firstn 110 (bytes h image) 0x60) by lia.
  rewrite E.
  rewrite (elem_firstn 110 (bytes h' image') 0x6c) by lia.
  rewrite (elem_firstn 110 (bytes h' image') 0x6d) by lia.
  rewrite (getUint32_firstn 110 (bytes h' image') 0x50) by lia.
  rewrite (getUint32_firstn 110 (bytes h' image') 0x54) by lia.
  rewrite (getUint32_firstn 110 (bytes h' image') 0x58) by lia.
  rewrite (getUint32_firstn 110 (bytes h' image') 0x5c) by lia.
  rewrite (getUint32_firstn 110 (bytes h' image') 0x60) by lia.
  reflexivity.
Qed.

Lemma parseBoot_prefix_witness :
  parseBoot (Image.load Damaged.cyclic) (Image.whole Damaged.cyclic)
  = parseBoot (Image.load Sample.truncated) (Image.whole Sample.truncated).
Proof.
  apply parseBoot_prefix. vm_compute. reflexivity.
Defined.

(** ** The operations as functions of the image *)

Section Pure.

Variables (fuel : nat) (this : ExfatReader.t).

Lemma findDirectory_related :
  forall (parts : list jsstring) (cluster : Z) (h h' : heap),
    agree (ExfatReader.buf this) h h' ->
    related (sameIn (ExfatReader.buf this))
            (ExfatReader.findDirectory fuel this parts cluster h)
            (ExfatReader.findDirectory fuel this parts cluster h').
Proof.
  induction parts as [|part rest IH]; intros cluster h h' Hag;
    cbn [ExfatReader.findDirectory].
  - cbn. split; [reflexivity | exact Hag].
  - apply (related_bind _ _ _ _ _ _
             (readDirectory_related fuel _ _ cluster h h' Hag)).
    intros entries g entries' g' [<- Hg].
    destruct (find _ entries) as [next|]; [apply IH, Hg|].
    cbn. split; [reflexivity | exact Hg].
Qed.

Lemma existsLoop_related :
  forall (parts : list jsstring) (cluster : Z) (h h' : heap),
    agree (ExfatReader.buf this) h h' ->
    related (sameIn (ExfatReader.buf this))
            (ExfatReader.existsLoop fuel this parts cluster h)
            (ExfatReader.existsLoop fuel this parts cluster h').
Proof.
  induction parts as [|part rest IH]; intros cluster h h' Hag;
    cbn [ExfatReader.existsLoop].
  - cbn. split; [reflexivity | exact Hag].
  - apply (related_bind _ _ _ _ _ _
             (readDirectory_related fuel _ _ cluster h h' Hag)).
    intros entries g entries' g' [<- Hg].
    destruct (find _ entries) as [found|]; [apply IH, Hg|].
    cbn. split; [reflexivity | exact Hg].
Qed.

Lemma visit_related :
  forall (depth : nat) (currentPath : jsstring) (c : Z)
         (result : list ExfatWalkItem.t) (h h' : heap),
    agree (ExfatReader.buf this) h h' ->
    related (sameIn (ExfatReader.buf this))
            (ExfatReader.visit depth fuel this currentPath c (result, h))
            (ExfatReader.visit depth fuel this currentPath c (result, h')).
Proof.
  induction depth as [|depth IH]; intros currentPath c result h h' Hag;
    cbn [ExfatReader.visit]; [exact I|].
  apply (related_bind _ _ _ _ _ _
           (readDirectory_related fuel _ _ c h h' Hag)).
  intros entries g entries' g' [<- Hg]. clear Hag. revert result g g' Hg.
  induction entries as [|e entries IHe]; intros result g g' Hg;
    cbn [ExfatReader.forOf].
  - cbn. split; [reflexivity | exact Hg].
  - apply (related_bind (sameIn (ExfatReader.buf this))).
    + cbn [ExfatReader.visitEntry]. destruct (DirEntry.isDir e).
      * apply IH, Hg.
      * cbn. split; [reflexivity | exact Hg].
    + intros r1 k r1' k' [<- Hk]. apply IHe, Hk.
Qed.

Lemma operations_related (path : jsstring) (h h' : heap) :
  agree (ExfatReader.buf this) h h' ->
  related (sameIn (ExfatReader.buf this)) (ExfatReader.list fuel this path h)
               (ExfatReader.list fuel this path h') /\
  related (sameIn (ExfatReader.buf this)) (ExfatReader.exists_ fuel this path h)
               (ExfatReader.exists_ fuel this path h') /\
  related (sameIn (ExfatReader.buf this)) (ExfatReader.walk fuel this path h)
               (ExfatReader.walk fuel this path h').
Proof.
  intros Hag. repeat apply conj.
  - unfold ExfatReader.list.
    apply (related_bind _ _ _ _ _ _
             (findDirectory_related _ _ h h' Hag)).
    intros found g found' g' [<- Hg].
    destruct found as [cluster|]; [|cbn; split; [reflexivity | exact Hg]].
    apply (related_bind _ _ _ _ _ _
             (readDirectory_related fuel _ _ cluster g g' Hg)).
    intros out k out' k' [<- Hk]. cbn. split; [reflexivity | exact Hk].
  - apply existsLoop_related, Hag.
  - unfold ExfatReader.walk.
    apply (related_bind _ _ _ _ _ _
             (findDirectory_related _ _ h h' Hag)).
    intros found g found' g' [<- Hg].
    destruct found as [cluster|]; [|cbn; split; [reflexivity | exact Hg]].
    apply visit_related, Hg.
Qed.

End Pure.

(** X21.  [list], [exists] and [walk] are functions of the bytes of the
    image: in two heaps in which the image shows the same bytes, each of
    them ends the same way (returns, throws or runs on) and returns the
    same result. *)
Theorem operations_pure (fuel : nat) (this : ExfatReader.t) (path : jsstring)
    (h h' : heap) :
  agree (ExfatReader.buf this) h h' ->
  related (fun r _ r' _ => r = r')
          (ExfatReader.list fuel this path h)
          (ExfatReader.list fuel this path h') /\
  related (fun r _ r' _ => r = r')
          (ExfatReader.exists_ fuel this path h)
          (ExfatReader.exists_ fuel this path h') /\
  related (fun r _ r' _ => r = r')
          (ExfatReader.walk fuel this path h)
          (ExfatReader.walk fuel this path h').
Proof.
  intros Hag.
  destruct (operations_related fuel this path h h' Hag) as (Hl & He & Hw).
  repeat apply conj.
  - destruct (ExfatReader.list fuel this path h) as [[r g]| |],
      (ExfatReader.list fuel this path h') as [[r' g']| |]; cbn in *;
      try contradiction; try discriminate; auto. apply Hl.
  - destruct (ExfatReader.exists_ fuel this path h) as [[r g]| |],
      (ExfatReader.exists_ fuel this path h') as [[r' g']| |]; cbn in *;
      try contradiction; try discriminate; auto. apply He.
  - destruct (ExfatReader.walk fuel this path h) as [[r g]| |],
      (ExfatReader.walk fuel this path h') as [[r' g']| |]; cbn in *;
      try contradiction; try discriminate; auto. apply Hw.
Qed.

Lemma operations_pure_witness :
  related (fun r _ r' _ => r = r')
    (ExfatReader.list 4 (Sample.reader Sample.image)
       (Image.str "/Documents"%string) (Image.load Sample.image))
    (ExfatReader.list 4 (Sample.reader Sample.image)
       (Image.str "/Documents"%string)
       (Image.load Sample.image ++ [Sample.truncated])).
Proof.
  refine (proj1 (operations_pure 4 (Sample.reader Sample.image)
                   (Image.str "/Documents"%string) (Image.load Sample.image)
                   (Image.load Sample.image ++ [Sample.truncated]) _)).
  unfold agree. split; [by_compute|]. split; by_compute.
Defined.

(** ** Slots that are skipped *)

Lemma len_app (pre data : list byte) : len (pre ++ data) = len pre + len data.
Proof. unfold len. rewrite length_app. lia. Qed.

Lemma elem_app_shift (pre data : list byte) (i : Z) :
  0 <= i -> elem (pre ++ data) (len pre + i) = elem data i.
Proof.
  intros Hi. unfold elem. rewrite len_app.
  replace (0 <=? len pre + i) with (0 <=? i)
    by (pose proof (len_nonneg pre); lia).
  replace (len pre + i <? len pre + len data) with (i <? len data) by lia.
  destruct ((0 <=? i) && (i <? len data)); [|reflexivity].
  rewrite nth_error_app2 by (unfold len; lia).
  do 2 f_equal. unfold len. lia.
Qed.

Lemma elem_app_l (pre data : list byte) (i : Z) :
  i < len pre -> elem (pre ++ data) i = elem pre i.
Proof.
  intros Hi. unfold elem. rewrite len_app.
  pose proof (len_nonneg data).
  replace (i <? len pre + len data) with true by (symmetry; lia).
  replace (i <? len pre) with true by (symmetry; lia).
  destruct (0 <=? i) eqn:E; [|reflexivity]. cbn [andb].
  rewrite nth_error_app1 by (unfold len in Hi; lia). reflexivity.
Qed.

Lemma getUint32_app_shift (pre data : list byte) (o : Z) :
  0 <= o -> getUint32 (pre ++ data) (len pre + o) = getUint32 data o.
Proof.
  intros Ho. unfold getUint32. rewrite len_app.
  pose proof (len_nonneg pre) as Hp.
  replace (0 <=? len pre + o) with (0 <=? o) by lia.
  replace (len pre + o + 4 <=? len pre + len data) with (o + 4 <=? len data)
    by lia.
  destruct ((0 <=? o) && (o + 4 <=? len data)); [|reflexivity].
  unfold byteAt.
  assert (Hnth : forall k, 0 <= k ->
            nth (Z.to_nat (len pre + k)) (pre ++ data) x00
            = nth (Z.to_nat k) data x00).
  { intros k Hk. rewrite app_nth2 by (unfold len; lia).
    f_equal. unfold len. lia. }
  rewrite <- !Z.add_assoc, !Hnth by lia. reflexivity.
Qed.

Lemma subBytes_app_shift (pre data : list byte) (a b : Z) :
  0 <= a -> 0 <= b ->
  subBytes (pre ++ data) (len pre + a) (len pre + b) = subBytes data a b.
Proof.
  intros Ha Hb. unfold subBytes, clampIndex. rewrite len_app.
  pose proof (len_nonneg pre) as Hp.
  replace (len pre + a <? 0) with false by (symmetry; lia).
  replace (len pre + b <? 0) with false by (symmetry; lia).
  replace (a <? 0) with false by (symmetry; lia).
  replace (b <? 0) with false by (symmetry; lia).
  replace (Z.to_nat (Z.min (len pre + a) (len pre + len data)))
    with (Z.to_nat (Z.min a (len data)) + length pre)%nat
    by (unfold len; lia).
  rewrite <- skipn_skipn, skipn_app, skipn_all, Nat.sub_diag.
  cbn [skipn app]. f_equal. lia.
Qed.

Lemma secondaries_shift (pre data : list byte) (sc : option Z) :
  forall (fuel : nat) (consumed j : Z) (name : jsstring) (fc size : Z),
    0 <= j ->
    secondaries fuel (pre ++ data) sc consumed (len pre + j) name fc size
    = ('(j', name', fc', size') <-
         secondaries fuel data sc consumed j name fc size ;;
       Ret (len pre + j', name', fc', size')).
Proof.
  induction fuel as [|fuel IH]; intros consumed j name fc size Hj;
    cbn [secondaries]; rewrite len_app;
    replace (len pre + j + 32 <=? len pre + len data)
      with (j + 32 <=? len data) by lia;
    destruct (leq_opt consumed sc && (j + 32 <=? len data)); try reflexivity.
  rewrite (elem_app_shift pre data j Hj).
  replace (len pre + j + 32) with (len pre + (j + 32)) by lia.
  assert (Hnext : forall name1 fc1 size1,
    secondaries fuel (pre ++ data) sc (consumed + 1) (len pre + (j + 32))
                name1 fc1 size1
    = ('(j', name', fc', size') <-
         secondaries fuel data sc (consumed + 1) (j + 32) name1 fc1 size1 ;;
       Ret (len pre + j', name', fc', size'))).
  { intros name1 fc1 size1. apply IH. lia. }
  destruct (elem data j) as [st|]; [|apply Hnext].
  destruct (Z.eq_dec st 0xc0) as [-> | Hc0].
  - unfold readU32, readU64.
    replace (len pre + j + 0x14) with (len pre + (j + 0x14)) by lia.
    replace (len pre + j + 0x18) with (len pre + (j + 0x18)) by lia.
    replace (len pre + (j + 0x18) + 4) with (len pre + (j + 0x18 + 4)) by lia.
    rewrite !getUint32_app_shift by lia.
    destruct (getUint32 data (j + 0x14)) as [v1| |]; cbn [bind]; try reflexivity.
    destruct (getUint32 data (j + 0x18)) as [v2| |]; cbn [bind]; try reflexivity.
    destruct (getUint32 data (j + 0x18 + 4)) as [v3| |]; cbn [bind];
      try reflexivity.
    apply Hnext.
  - destruct (Z.eq_dec st 0xc1) as [-> | Hc1].
    + replace (len pre + j + 2) with (len pre + (j + 2)) by lia.
      rewrite subBytes_app_shift by lia. apply Hnext.
    + destruct st as [|p|p]; try apply Hnext.
      do 8 (destruct p as [p|p|]; try apply Hnext); contradiction.
Qed.

Lemma secondaries_advances (data : list byte) (sc : option Z) (fuel : nat)
    (consumed j j' : Z) (name' : jsstring) (fc' size' : Z) :
  secondaries fuel data sc consumed j [] 0 0 = Ret (j', name', fc', size') ->
  j <= j'.
Proof.
  intros H. apply secondaries_fields in H; [apply H | lia | lia | constructor].
Qed.

Lemma dirLoop_shift (pre data : list byte) :
  forall (fuel : nat) (i : Z) (res : list DirEntry.t),
    0 <= i ->
    dirLoop fuel (pre ++ data) (len pre + i) res = dirLoop fuel data i res.
Proof.
  induction fuel as [|fuel IH]; intros i res Hi; cbn [dirLoop];
    rewrite len_app;
    replace (len pre + i + 32 <=? len pre + len data)
      with (i + 32 <=? len data) by lia;
    destruct (i + 32 <=? len data); try reflexivity.
  rewrite (elem_app_shift pre data i Hi).
  replace (len pre + i + 32) with (len pre + (i + 32)) by lia.
  destruct (elem data i) as [et|]; [|apply IH; lia].
  destruct (Z.eq_dec et 0x85) as [-> | H85].
  - replace (len pre + i + 1) with (len pre + (i + 1)) by lia.
    replace (len pre + i + 4) with (len pre + (i + 4)) by lia.
    rewrite !elem_app_shift, secondaries_shift by lia.
    destruct (secondaries fuel data (elem data (i + 1)) 1 (i + 32) [] 0 0)
      as [[[[j name] fc] size]| |] eqn:Hsec; cbn [bind]; try reflexivity.
    apply secondaries_advances in Hsec. apply IH. lia.
  - destruct et as [|p|p]; try (apply IH; lia).
    do 8 (destruct p as [p|p|]; try (apply IH; lia)); contradiction.
Qed.

Lemma secondaries_more_fuel (data : list byte) (sc : option Z) :
  forall (fuel : nat) (consumed j : Z) (name : jsstring) (fc size : Z)
         (r : Z * jsstring * Z * Z),
    secondaries fuel data sc consumed j name fc size = Ret r ->
    secondaries (S fuel) data sc consumed j name fc size = Ret r.
Proof.
  induction fuel as [|fuel IH]; intros consumed j name fc size r.
  - cbn [secondaries]. destruct (_ && _); [discriminate | auto].
  - intros H.
    change (secondaries (S fuel) data sc consumed j name fc size)
      with (if leq_opt consumed sc && (j + 32 <=? len data) then
              match elem data j with
              | Some 0xc0 =>
                  firstCluster' <- readU32 data (j + 0x14) ;;
                  size' <- readU64 data (j + 0x18) ;;
                  secondaries fuel data sc (consumed + 1) (j + 32)
                              name firstCluster' size'
              | Some 0xc1 =>
                  secondaries fuel data sc (consumed + 1) (j + 32)
                    (name ++ TD16_decode (subBytes data (j + 2) (j + 32)))
                    fc size
              | _ => secondaries fuel data sc (consumed + 1) (j + 32)
                                 name fc size
              end
            else Ret (j, name, fc, size)) in H.
    cbn [secondaries].
    destruct (leq_opt consumed sc && (j + 32 <=? len data)); [|exact H].
    destruct (elem data j) as [st|]; [|now apply IH].
    destruct (Z.eq_dec st 0xc0) as [-> | Hc0].
    + destruct (readU32 data (j + 0x14)) as [v1| |]; cbn [bind] in *;
        try discriminate.
      destruct (readU64 data (j + 0x18)) as [v2| |]; cbn [bind] in *;
        try discriminate.
      now apply IH.
    + destruct (Z.eq_dec st 0xc1) as [-> | Hc1]; [now apply IH|].
      destruct st as [|p|p]; try (now apply IH).
      do 8 (destruct p as [p|p|]; try (now apply IH)); contradiction.
Qed.

Lemma dirLoop_more_fuel (data : list byte) :
  forall (fuel : nat) (i : Z) (res r : list DirEntry.t),
    dirLoop fuel data i res = Ret r ->
    dirLoop (S fuel) data i res = Ret r.
Proof.
  induction fuel as [|fuel IH]; intros i res r.
  - cbn [dirLoop]. destruct (_ <=? _); [discriminate | auto].
  - intros H.
    change (dirLoop (S fuel) data i res)
      with (if i + 32 <=? len data then
              match elem data i with
              | Some 0x00 => dirLoop fuel data (i + 32) res
              | Some 0x85 =>
                  '(j, name, firstCluster, size) <-
                    secondaries fuel data (elem data (i + 1)) 1 (i + 32) [] 0 0 ;;
                  dirLoop fuel data j
                    (res ++ [DirEntry.mk (stripTrailingNul name)
                               (negb (land_opt (elem data (i + 4)) 0x10 =? 0))
                               size firstCluster])
              | _ => dirLoop fuel data (i + 32) res
              end
            else Ret res) in H.
    cbn [dirLoop].
    destruct (i + 32 <=? len data); [|exact H].
    destruct (elem data i) as [et|]; [|now apply IH].
    destruct (Z.eq_dec et 0x85) as [-> | H85].
    + destruct (secondaries fuel data _ 1 (i + 32) [] 0 0)
        as [[[[j name] fc] size]| |] eqn:Hsec; cbn [bind] in H;
        try discriminate.
      rewrite (secondaries_more_fuel _ _ _ _ _ _ _ _ _ Hsec). cbn [bind].
      now apply IH.
    + destruct et as [|p|p]; try (now apply IH).
      do 8 (destruct p as [p|p|]; try (now apply IH)); contradiction.
Qed.

Lemma dirLoop_fuel_le (data : list byte) (i : Z) (res r : list DirEntry.t) :
  forall (fuel fuel' : nat),
    (fuel <= fuel')%nat ->
    dirLoop fuel data i res = Ret r -> dirLoop fuel' data i res = Ret r.
Proof.
  intros fuel fuel' Hle H. induction Hle as [|fuel' _ IH]; [exact H|].
  now apply dirLoop_more_fuel.
Qed.

(** X22.  A slot whose type byte is not 0x85 is skipped and ends
    nothing: a directory that begins with such a slot (an unused slot of
    type 0x00 included) decodes to the records of what follows it. *)
Theorem leading_slot_skipped (slot rest : list byte) :
  length slot = 32%nat ->
  elem slot 0 <> Some 0x85 ->
  dirLoop (S (length (slot ++ rest))) (slot ++ rest) 0 []
  = dirLoop (S (length rest)) rest 0 [].
Proof.
  intros Hslot Htype.
  assert (Hlen : len slot = 32) by (unfold len; lia).
  destruct (dirLoop_total rest (S (length rest)) 0 [])
    as (r & Hr); [lia | unfold len; lia |].
  rewrite Hr. cbn [dirLoop]. rewrite len_app.
  replace (0 + 32 <=? len slot + len rest) with true
    by (symmetry; pose proof (len_nonneg rest); lia).
  rewrite elem_app_l by lia.
  assert (Hskip : dirLoop (length (slot ++ rest)) (slot ++ rest) (0 + 32) []
                  = Ret r).
  { replace (0 + 32) with (len slot + 0) by lia.
    rewrite dirLoop_shift by lia.
    apply (dirLoop_fuel_le rest 0 [] r (S (length rest))); [|exact Hr].
    rewrite length_app. lia. }
  destruct (elem slot 0) as [et|]; [|exact Hskip].
  destruct (Z.eq_dec et 0x85) as [-> | H85]; [now contradiction Htype|].
  destruct et as [|p|p]; try exact Hskip.
  do 8 (destruct p as [p|p|]; try exact Hskip); contradiction.
Qed.

Lemma leading_slot_skipped_witness :
  dirLoop 129 (repeat x00 32
               ++ Image.entrySet false (Image.str "ab"%string) 7 1000) 0 []
  = Ret [DirEntry.mk (Image.str "ab"%string) false 1000 7].
Proof.
  refine (eq_trans (leading_slot_skipped (repeat x00 32)
                      (Image.entrySet false (Image.str "ab"%string) 7 1000)
                      eq_refl ltac:(discriminate)) _).
  vm_compute. reflexivity.
Defined.

(** ** Clusters do not overlap *)

(** X23.  With a positive cluster size and a cluster heap at a
    non-negative offset, the slices of two different clusters share no
    byte of the image: the slice of the lower cluster ends where, or
    before, the slice of the higher one begins. *)
Theorem cluster_slices_disjoint (buf : Uint8Array) (boot : Boot) (c c' : Z) :
  0 <= byteLength buf ->
  0 < clusterSize boot ->
  0 <= clusterOffset boot c ->
  c < c' ->
  let slice k := subarray buf (clusterOffset boot k)
                          (clusterOffset boot k + clusterSize boot) in
  byteOffset (slice c) + byteLength (slice c) <= byteOffset (slice c').
Proof.
  intros Hl Hsize Hoff Hlt slice. unfold slice, subarray, clusterOffset in *.
  cbn [byteOffset byteLength]. unfold clampIndex.
  set (heap := clusterHeapOffsetBytes boot) in *.
  set (size := clusterSize boot) in *.
  assert (Hnext : heap + (c - 2) * size + size <= heap + (c' - 2) * size) by nia.
  destruct (heap + (c - 2) * size <? 0) eqn:E1; [lia|].
  destruct (heap + (c - 2) * size + size <? 0) eqn:E2; [lia|].
  destruct (heap + (c' - 2) * size <? 0) eqn:E3; lia.
Qed.

Lemma cluster_slices_disjoint_witness :
  byteOffset (subarray (Image.whole Sample.image) 928 1184)
  + byteLength (subarray (Image.whole Sample.image) 928 1184)
  <= byteOffset (subarray (Image.whole Sample.image) 1184 1440).
Proof.
  apply (cluster_slices_disjoint (Image.whole Sample.image) Sample.geometry 5 6);
    by_compute.
Defined.

Lemma basePath_round_trip_witness :
  normalizePath (basePath [Image.str "Documents"%string; Image.str "a.bin"%string])
  = [Image.str "Documents"%string; Image.str "a.bin"%string].
Proof.
  apply (proj1 (basePath_round_trip 0 (Sample.reader Sample.image)
                  (Image.load Sample.image) [])).
  repeat constructor; try discriminate;
    cbn; intros H; repeat (destruct H as [H | H]; [discriminate|]); exact H.
Defined.
